(** * pg_sub_data: a shallow embedding of the extraction engine

    The development follows the Go packages of the repository:
    - [gostring]: what the Go language does when a program ranges over a
      string and writes runes to a [strings.Builder] (UTF-8 decoding and
      encoding);
    - [gotime]: the readings of a [time.Time] and [Format] for the layout
      of the writer;
    - [schema]: columns, primary keys, foreign keys, tables;
    - [graph]: the FK graph and Kahn's algorithm ([TopoSort]);
    - [output]: COPY text-format escaping and the script writer;
    - [extract]: the query builder and the extractor.

    Go maps are [gmap]s, a [map[string]bool] used as a set is a [gset],
    Go strings are byte strings ([string], one [ascii] per byte), Go [int]s
    are [Z] (the counters modelled here stay far below 2^63), a panic is
    the [None] of an [option]. *)

From Stdlib Require Import ZArith Ascii String List Lia.
From stdpp Require Import gmap strings list fin_maps pretty.

Open Scope Z_scope.

(* ================================================================== *)
(** * Go strings                                                       *)
(* ================================================================== *)

Module gostring.

(** A rune is an [int32] code point. *)
Definition rune := Z.

Definition RuneError : rune := 0xFFFD.

Definition byte_val (c : ascii) : Z := Z.of_N (N_of_ascii c).

(** [byte(x)]: conversion of an integer to a byte keeps the low 8 bits. *)
Definition to_byte (x : Z) : ascii := ascii_of_N (Z.to_N (x mod 256)).

Definition is_cont (b : Z) : bool := (0x80 <=? b) && (b <=? 0xBF).

(** The rune at the head of [s] and its width in bytes, as the Go
    runtime decodes it for [for _, r := range s]: a byte below 0x80 is
    its own rune; a well-formed two, three or four byte sequence that is
    not over-long, not a surrogate and not above U+10FFFF is decoded;
    anything else yields U+FFFD and advances by one byte. *)
Definition decoderune (s : string) : rune * nat :=
  match s with
  | EmptyString => (RuneError, 1%nat)
  | String c0 s1 =>
    let b0 := byte_val c0 in
    if b0 <? 0x80 then (b0, 1%nat)
    else if (0xC0 <=? b0) && (b0 <? 0xE0) then
      match s1 with
      | String c1 _ =>
        let b1 := byte_val c1 in
        let r := Z.lor (Z.shiftl (Z.land b0 0x1F) 6) (Z.land b1 0x3F) in
        if is_cont b1 && (0x7F <? r) then (r, 2%nat) else (RuneError, 1%nat)
      | _ => (RuneError, 1%nat)
      end
    else if (0xE0 <=? b0) && (b0 <? 0xF0) then
      match s1 with
      | String c1 (String c2 _) =>
        let b1 := byte_val c1 in
        let b2 := byte_val c2 in
        let r := Z.lor (Z.lor (Z.shiftl (Z.land b0 0x0F) 12)
                              (Z.shiftl (Z.land b1 0x3F) 6))
                       (Z.land b2 0x3F) in
        if is_cont b1 && is_cont b2 && (0x7FF <? r)
           && negb ((0xD800 <=? r) && (r <=? 0xDFFF))
        then (r, 3%nat) else (RuneError, 1%nat)
      | _ => (RuneError, 1%nat)
      end
    else if (0xF0 <=? b0) && (b0 <? 0xF8) then
      match s1 with
      | String c1 (String c2 (String c3 _)) =>
        let b1 := byte_val c1 in
        let b2 := byte_val c2 in
        let b3 := byte_val c3 in
        let r := Z.lor (Z.lor (Z.lor (Z.shiftl (Z.land b0 0x07) 18)
                                     (Z.shiftl (Z.land b1 0x3F) 12))
                              (Z.shiftl (Z.land b2 0x3F) 6))
                       (Z.land b3 0x3F) in
        if is_cont b1 && is_cont b2 && is_cont b3
           && (0xFFFF <? r) && (r <=? 0x10FFFF)
        then (r, 4%nat) else (RuneError, 1%nat)
      | _ => (RuneError, 1%nat)
      end
    else (RuneError, 1%nat)
  end.

(** The runes that [for _, r := range s] yields, in order. [skip] counts
    the bytes of [s] that still belong to the rune decoded last. *)
Fixpoint range_from (skip : nat) (s : string) : list rune :=
  match s with
  | EmptyString => []
  | String _ s' =>
    match skip with
    | S k => range_from k s'
    | O => let '(r, w) := decoderune s in r :: range_from (Nat.pred w) s'
    end
  end.

Definition range (s : string) : list rune := range_from 0 s.

Definition enc3 (r : rune) : string :=
  String (to_byte (Z.lor 0xE0 (Z.shiftr r 12 mod 256)))
 (String (to_byte (Z.lor 0x80 (Z.land (Z.shiftr r 6 mod 256) 0x3F)))
 (String (to_byte (Z.lor 0x80 (Z.land (r mod 256) 0x3F))) EmptyString)).

(** The bytes that [strings.Builder.WriteRune] appends
    ([utf8.AppendRune]): an invalid rune is written as U+FFFD. *)
Definition encoderune (r : rune) : string :=
  let i := r mod 2 ^ 32 in
  if i <=? 0x7F then String (to_byte r) EmptyString
  else if i <=? 0x7FF then
    String (to_byte (Z.lor 0xC0 (Z.shiftr r 6 mod 256)))
   (String (to_byte (Z.lor 0x80 (Z.land (r mod 256) 0x3F))) EmptyString)
  else if (0x10FFFF <? i) || ((0xD800 <=? i) && (i <=? 0xDFFF)) then enc3 RuneError
  else if i <=? 0xFFFF then enc3 r
  else
    String (to_byte (Z.lor 0xF0 (Z.shiftr r 18 mod 256)))
   (String (to_byte (Z.lor 0x80 (Z.land (Z.shiftr r 12 mod 256) 0x3F)))
   (String (to_byte (Z.lor 0x80 (Z.land (Z.shiftr r 6 mod 256) 0x3F)))
   (String (to_byte (Z.lor 0x80 (Z.land (r mod 256) 0x3F))) EmptyString))).

(** [string([]rune(s))]: [s] with every byte that is not part of a valid
    UTF-8 sequence replaced by the encoding of U+FFFD. *)
Definition to_valid_utf8 (s : string) : string :=
  foldl (fun b r => b +:+ encoderune r) "" (range s).

(** [utf8.ValidString]. *)
Definition valid_utf8 (s : string) : Prop := to_valid_utf8 s = s.

(** [strings.Join]. *)
Definition Join (elems : list string) (sep : string) : string :=
  String.concat sep elems.

(** [fmt.Sprintf("%d", n)]. *)
Definition itoa (n : Z) : string := pretty n.

End gostring.

(* ================================================================== *)
(** * Package time: what [Format] reads and writes                     *)
(* ================================================================== *)

Module gotime.

(** A [time.Time] by its readings: the year, month and day of [t.Date()],
    the hour, minute and second of [t.Clock()], [t.Nanosecond()], and the
    offset of [t.Zone()] in seconds east of UTC. *)
Record Time := {
  Year : Z; Month : Z; Day : Z;
  Hour : Z; Minute : Z; Second : Z;
  Nanosecond : Z;
  Offset : Z
}.

(** The same readings of date and clock in a zone of another offset. *)
Definition withOffset (t : Time) (offset : Z) : Time :=
  {| Year := Year t; Month := Month t; Day := Day t;
     Hour := Hour t; Minute := Minute t; Second := Second t;
     Nanosecond := Nanosecond t; Offset := offset |}.

(** What [time.Date] accepts without normalising, in the years that
    print as four digits. *)
Definition wellFormed (t : Time) : Prop :=
  0 <= Year t <= 9999 ∧ 1 <= Month t <= 12 ∧ 1 <= Day t <= 31
  ∧ 0 <= Hour t < 24 ∧ 0 <= Minute t < 60 ∧ 0 <= Second t < 60
  ∧ 0 <= Nanosecond t < 1000000000
  ∧ -86400 < Offset t < 86400.

(** Days from 1970-01-01 to the day [y]-[m]-[d] of the proleptic
    Gregorian calendar. *)
Definition daysFromCivil (y m d : Z) : Z :=
  let y' := if m <=? 2 then y - 1 else y in
  let era := y' / 400 in
  let yoe := y' - era * 400 in
  let mp := if m <=? 2 then m + 9 else m - 3 in
  let doy := (153 * mp + 2) / 5 + d - 1 in
  let doe := yoe * 365 + yoe / 4 - yoe / 100 + doy in
  era * 146097 + doe - 719468.

(** [t.Unix()]: the instant of [t] in seconds since 1970-01-01 00:00:00
    UTC, which is the reading of date and clock less the zone offset. *)
Definition Unix (t : Time) : Z :=
  daysFromCivil (Year t) (Month t) (Day t) * 86400
  + Hour t * 3600 + Minute t * 60 + Second t - Offset t.

(** [appendInt(b, x, width)]: the decimal digits of [x] after [b], with a
    minus sign when [x] is negative and zeros in front up to [width]
    digits. *)
Definition appendInt (b : string) (x : Z) (width : nat) : string :=
  let digits := pretty (Z.to_N (Z.abs x)) in
  b +:+ (if x <? 0 then "-" else "")
    +:+ string_of_list_ascii (replicate (width - String.length digits) "0"%char)
    +:+ digits.

(** [b] without its trailing bytes [c]. *)
Fixpoint trimRight (c : ascii) (b : string) : string :=
  match b with
  | EmptyString => EmptyString
  | String a rest =>
    let rest' := trimRight c rest in
    if Ascii.eqb a c && (String.length rest' =? 0)%nat then EmptyString
    else String a rest'
  end.

(** [b[:len(b)-n]]. *)
Definition dropRight (n : nat) (b : string) : string :=
  substring 0 (String.length b - n) b.

(** [appendNano(b, nanosec, std)] for the chunk [.999999]: nothing when
    the nanoseconds are zero; else the point and the nine digits of the
    nanoseconds, cut to six, less the trailing zeros, less the point
    when no digit is left after it. *)
Definition appendNano (b : string) (nanosec : Z) : string :=
  if nanosec =? 0 then b
  else
    let b := appendInt (b +:+ ".") nanosec 9 in
    let b := dropRight 3 b in
    let b := trimRight "0" b in
    match String.get (String.length b - 1) b with
    | Some "."%char => dropRight 1 b
    | _ => b
    end.

(** [t.Format("2006-01-02 15:04:05.999999-07")]. The chunks of the
    layout are the year in four digits, the month, day, hour, minute and
    second in two digits each, the fraction of the second, and [-07]:
    the sign of the zone offset and its hours in two digits. The minutes
    and seconds of the offset are not part of this layout. *)
Definition Format (t : Time) : string :=
  let b := appendInt "" (Year t) 4 in
  let b := appendInt (b +:+ "-") (Month t) 2 in
  let b := appendInt (b +:+ "-") (Day t) 2 in
  let b := appendInt (b +:+ " ") (Hour t) 2 in
  let b := appendInt (b +:+ ":") (Minute t) 2 in
  let b := appendInt (b +:+ ":") (Second t) 2 in
  let b := appendNano b (Nanosecond t) in
  let zone := Z.quot (Offset t) 60 in
  if zone <? 0 then appendInt (b +:+ "-") (Z.quot (- zone) 60) 2
  else appendInt (b +:+ "+") (Z.quot zone 60) 2.

End gotime.

(* ================================================================== *)
(** * Package schema                                                   *)
(* ================================================================== *)

Module schema.

Record Column := {
  col_Name : string;
  col_DataType : string;
  col_Nullable : bool;
  col_OrdPos : Z
}.

Record PrimaryKey := { pk_Columns : list string }.

(** [type VirtualType string]. *)
Definition VirtualType := string.
Definition VirtualNone : VirtualType := "".
Definition VirtualArray : VirtualType := "array".
Definition VirtualJSON : VirtualType := "json".

Record ForeignKey := {
  Name : string;
  ChildSchema : string;
  ChildTable : string;
  ChildColumns : list string;
  ParentSchema : string;
  ParentTable : string;
  ParentColumns : list string;
  IsSelfRef : bool;
  Virtual : VirtualType;
  JSONPath : string
}.

Record Table := {
  tbl_Schema : string;
  tbl_Name : string;
  Columns : list Column;
  PrimaryKey_of : option PrimaryKey;
  ForeignKeys : list ForeignKey
}.

Definition FullName (t : Table) : string :=
  tbl_Schema t +:+ "." +:+ tbl_Name t.

Definition ColumnNames (t : Table) : list string :=
  map col_Name (Columns t).

End schema.

(* ================================================================== *)
(** * Package graph                                                    *)
(* ================================================================== *)

Module graph.
Import schema.

Record Edge := {
  FK : ForeignKey;
  edge_ChildTable : string;
  edge_ParentTable : string
}.

Record Graph := {
  Tables : gmap string Table;
  Edges : list Edge;
  SelfRefs : gmap string (list ForeignKey);
  Children : gmap string (list string);
  Parents : gmap string (list string);
  Adjacency : gmap string (gset string)
}.

Record TopoResult := {
  Order : list string;
  HasCycle : bool;
  CycleTables : list string
}.

(** Reading a Go map at a missing key gives the zero value. *)
Definition getInt (m : gmap string Z) (k : string) : Z := default 0 (m !! k).
Definition getList {A} (m : gmap string (list A)) (k : string) : list A :=
  default [] (m !! k).

(** The three maps that the first loops of [TopoSort] fill. *)
Record locals := {
  localParents : gmap string (list string);
  localChildren : gmap string (list string);
  inDegree : gmap string Z
}.

(** Body of the inner loop [for _, p := range g.Parents[t]]. *)
Definition addLocalEdge (tableSet : gset string) (t : string)
    (st : locals) (p : string) : locals :=
  if bool_decide (p ∈ tableSet) then
    {| localParents := <[t := getList (localParents st) t ++ [p]]> (localParents st);
       localChildren := <[p := getList (localChildren st) p ++ [t]]> (localChildren st);
       inDegree := <[t := getInt (inDegree st) t + 1]> (inDegree st) |}
  else st.

Definition buildLocals (g : Graph) (tableSet : gset string)
    (tables : list string) (st : locals) : locals :=
  foldl (fun st t => foldl (addLocalEdge tableSet t) st (getList (Parents g) t))
        st tables.

(** [for _, child := range localChildren[node]]: decrement, and enqueue
    a child whose in-degree reaches zero. *)
Fixpoint relax (children : list string) (inDeg : gmap string Z)
    (queue : list string) : gmap string Z * list string :=
  match children with
  | [] => (inDeg, queue)
  | child :: rest =>
    let d := getInt inDeg child - 1 in
    let inDeg' := <[child := d]> inDeg in
    if d =? 0 then relax rest inDeg' (queue ++ [child])
    else relax rest inDeg' queue
  end.

(** [for len(queue) > 0]: one unit of [fuel] per iteration. The state
    reached is returned with the queue that is left; [kahn_drains] shows
    that the fuel [TopoSort] passes always empties the queue. *)
Fixpoint kahn (fuel : nat) (lc : gmap string (list string))
    (inDeg : gmap string Z) (queue order : list string)
    : gmap string Z * list string * list string :=
  match queue with
  | [] => (inDeg, [], order)
  | node :: queue' =>
    match fuel with
    | O => (inDeg, queue, order)
    | S fuel' =>
      let '(inDeg', queue'') := relax (getList lc node) inDeg queue' in
      kahn fuel' lc inDeg' queue'' (order ++ [node])
    end
  end.

Definition initLocals (tables : list string) : locals :=
  {| localParents := ∅;
     localChildren := ∅;
     inDegree := foldl (fun m t => <[t := 0]> m) ∅ tables |}.

Definition topoState (g : Graph) (tables : list string)
    : locals * (gmap string Z * list string * list string) :=
  let tableSet : gset string := list_to_set tables in
  let loc := buildLocals g tableSet tables (initLocals tables) in
  let queue := filter (fun t => getInt (inDegree loc) t = 0) tables in
  (loc, kahn (length tables) (localChildren loc) (inDegree loc) queue []).

Definition TopoSort (g : Graph) (tables : list string) : TopoResult :=
  let '(_, (inDeg, _, order)) := topoState g tables in
  if (length order <? length tables)%nat then
    {| Order := order;
       HasCycle := true;
       CycleTables := filter (fun t => 0 < getInt inDeg t) tables |}
  else
    {| Order := order; HasCycle := false; CycleTables := [] |}.

(** [for name := range g.Tables] visits every key once, in an order the
    language leaves unspecified: [all] is one such enumeration. *)
Definition map_range {V} (m : gmap string V) (keys : list string) : Prop :=
  keys ≡ₚ (map_to_list m).*1.

Definition TopoSortAll (g : Graph) (all : list string) : TopoResult :=
  TopoSort g all.

(** ** graph.go *)

(** [config.VirtualRelation], with the fields that [Build] reads. *)
Record VirtualRelation := {
  vr_ChildTable : string;
  vr_ChildColumn : string;
  vr_ParentTable : string;
  vr_ParentColumn : string;
  vr_Type : string;
  vr_JSONPath : string
}.

(** A loop that a panic may leave: [None] is the panic. *)
Fixpoint foldlO {A B} (f : A → B → option A) (a : A) (l : list B) : option A :=
  match l with
  | [] => Some a
  | x :: l' => match f a x with Some a' => foldlO f a' l' | None => None end
  end.

(** [findTableKey]; [keys] is the order in which the loop meets the keys
    of [tables]. *)
Definition findTableKey (tables : gmap string Table) (name : string)
    (keys : list string) : string :=
  match tables !! name with
  | Some _ => name
  | None =>
    match List.find (fun key => match tables !! key with
                                | Some tbl => String.eqb (tbl_Name tbl) name
                                | None => false
                                end) keys with
    | Some key => key
    | None => ""
    end
  end.

Definition emptyGraph : Graph :=
  {| Tables := ∅; Edges := []; SelfRefs := ∅; Children := ∅; Parents := ∅;
     Adjacency := ∅ |}.

(** Body of the first loop of [Build]: keep a table that is not excluded. *)
Definition keepTable (tables : gmap string Table) (excludeSet : gset string)
    (g : Graph) (name : string) : Graph :=
  match tables !! name with
  | None => g
  | Some tbl =>
    if bool_decide (tbl_Name tbl ∈ excludeSet) then g
    else {| Tables := <[name := tbl]> (Tables g); Edges := Edges g;
            SelfRefs := SelfRefs g; Children := Children g; Parents := Parents g;
            Adjacency := <[name := ∅]> (Adjacency g) |}
  end.

Definition withForeignKeys (t : Table) (fks : list ForeignKey) : Table :=
  {| tbl_Schema := tbl_Schema t; tbl_Name := tbl_Name t; Columns := Columns t;
     PrimaryKey_of := PrimaryKey_of t; ForeignKeys := fks |}.

(** Body of the second loop: a virtual relation becomes a foreign key of
    its child table. The tables are shared with the caller's map through
    their pointers; the model keeps the one copy that [g.Tables] holds.
    [None] is the nil dereference of a key that [g.Tables] does not hold. *)
Definition injectVirtual (ckeys pkeys : list string) (tbls : gmap string Table)
    (vr : VirtualRelation) : option (gmap string Table) :=
  let childKey := findTableKey tbls (vr_ChildTable vr) ckeys in
  let parentKey := findTableKey tbls (vr_ParentTable vr) pkeys in
  if String.eqb childKey "" || String.eqb parentKey "" then Some tbls
  else
    match tbls !! childKey, tbls !! parentKey with
    | Some child, Some parent =>
      let fk :=
        {| Name := "virtual_" +:+ tbl_Name child +:+ "_" +:+ vr_ChildColumn vr
                   +:+ "_" +:+ tbl_Name parent;
           ChildSchema := tbl_Schema child;
           ChildTable := tbl_Name child;
           ChildColumns := [vr_ChildColumn vr];
           ParentSchema := tbl_Schema parent;
           ParentTable := tbl_Name parent;
           ParentColumns := [vr_ParentColumn vr];
           IsSelfRef := String.eqb childKey parentKey;
           Virtual := vr_Type vr;
           JSONPath := vr_JSONPath vr |} in
      Some (<[childKey := withForeignKeys child (ForeignKeys child ++ [fk])]> tbls)
    | _, _ => None
    end.

(** The second loop; [lookupKeys i false] and [lookupKeys i true] are the
    orders in which the two calls of [findTableKey] for relation [i] meet
    the keys. *)
Fixpoint injectAll (lookupKeys : nat → bool → list string) (i : nat)
    (tbls : gmap string Table) (vrs : list VirtualRelation)
    : option (gmap string Table) :=
  match vrs with
  | [] => Some tbls
  | vr :: rest =>
    match injectVirtual (lookupKeys i false) (lookupKeys i true) tbls vr with
    | Some tbls' => injectAll lookupKeys (S i) tbls' rest
    | None => None
    end
  end.

(** Body of the inner loop of the third loop: one foreign key of table
    [name]. [None] is the write into a missing (nil) adjacency map. *)
Definition addFK (name : string) (g : Graph) (fk : ForeignKey) : option Graph :=
  let parentKey := ParentSchema fk +:+ "." +:+ ParentTable fk in
  match Tables g !! parentKey with
  | None => Some g
  | Some _ =>
    if IsSelfRef fk then
      Some {| Tables := Tables g; Edges := Edges g;
              SelfRefs := <[name := getList (SelfRefs g) name ++ [fk]]> (SelfRefs g);
              Children := Children g; Parents := Parents g;
              Adjacency := Adjacency g |}
    else
      let edge := {| FK := fk; edge_ChildTable := name; edge_ParentTable := parentKey |} in
      match Adjacency g !! name with
      | None => None
      | Some adjChild =>
        let adj1 := <[name := {[parentKey]} ∪ adjChild]> (Adjacency g) in
        match adj1 !! parentKey with
        | None => None
        | Some adjParent =>
          Some {| Tables := Tables g; Edges := Edges g ++ [edge];
                  SelfRefs := SelfRefs g;
                  Children := <[parentKey := getList (Children g) parentKey ++ [name]]>
                                (Children g);
                  Parents := <[name := getList (Parents g) name ++ [parentKey]]>
                               (Parents g);
                  Adjacency := <[parentKey := {[name]} ∪ adjParent]> adj1 |}
        end
      end
  end.

Definition addTableEdges (g : Graph) (name : string) : option Graph :=
  match Tables g !! name with
  | None => Some g
  | Some tbl => foldlO (addFK name) g (ForeignKeys tbl)
  end.

(** [Build]. [keys1] and [keys3] are the orders in which the first and
    the third loop meet the keys of [tables] and of [g.Tables]. *)
Definition Build (tables : gmap string Table) (excludeSet : gset string)
    (virtualRelations : list VirtualRelation)
    (keys1 : list string) (lookupKeys : nat → bool → list string)
    (keys3 : list string) : option Graph :=
  let g0 := foldl (keepTable tables excludeSet) emptyGraph keys1 in
  match injectAll lookupKeys 0 (Tables g0) virtualRelations with
  | None => None
  | Some tbls =>
    let g1 := {| Tables := tbls; Edges := Edges g0; SelfRefs := SelfRefs g0;
                 Children := Children g0; Parents := Parents g0;
                 Adjacency := Adjacency g0 |} in
    foldlO addTableEdges g1 keys3
  end.

(** [Roots]; [keys] is the order in which the loop meets the keys of
    [g.Tables]. *)
Definition Roots (g : Graph) (keys : list string) : list string :=
  filter (fun name => length (getList (Parents g) name) = 0%nat) keys.

(** ** components.go *)

Record Component := { comp_Tables : list string }.

(** Ranging over a missing (nil) inner map visits nothing. *)
Definition getSet (m : gmap string (gset string)) (k : string) : gset string :=
  default ∅ (m !! k).

(** Body of [for neighbor := range g.Adjacency[node]]. *)
Definition visit (st : gset string * list string) (neighbor : string)
    : gset string * list string :=
  if bool_decide (neighbor ∈ st.1) then st
  else ({[neighbor]} ∪ st.1, st.2 ++ [neighbor]).

(** The loop of [bfs], one unit of [fuel] per iteration; the queue that
    is left is returned with the result. [rangeSet node s] is the order in
    which the loop over the neighbours [s] of [node] meets them. *)
Fixpoint bfsLoop (fuel : nat) (g : Graph) (rangeSet : string → gset string → list string)
    (visited : gset string) (queue result : list string)
    : list string * gset string * list string :=
  match queue with
  | [] => (result, visited, [])
  | node :: queue' =>
    match fuel with
    | O => (result, visited, queue)
    | S fuel' =>
      let '(visited', queue'') :=
        foldl visit (visited, queue') (rangeSet node (getSet (Adjacency g) node)) in
      bfsLoop fuel' g rangeSet visited' queue'' (result ++ [node])
    end
  end.

(** All the tables that are a neighbour of some table. *)
Definition neighbourhood (g : Graph) : gset string :=
  ⋃ (map_to_list (Adjacency g)).*2.

(** [bfs]; the map [visited] is shared with the caller, which sees the
    entries that [bfs] adds. *)
Definition bfs (g : Graph) (rangeSet : string → gset string → list string)
    (start : string) (visited : gset string)
    : list string * gset string * list string :=
  bfsLoop (S (size (neighbourhood g))) g rangeSet ({[start]} ∪ visited) [start] [].

(** [FindComponents]; [keys] is the order in which the loop meets the
    keys of [g.Tables]. *)
Definition FindComponents (g : Graph) (keys : list string)
    (rangeSet : string → gset string → list string) : list Component :=
  (foldl (fun (st : gset string * list Component) name =>
            if bool_decide (name ∈ st.1) then st
            else
              let '(comp, visited', _) := bfs g rangeSet name st.1 in
              (visited', st.2 ++ [{| comp_Tables := comp |}]))
         (∅, []) keys).2.

End graph.

(* ================================================================== *)
(** * Dynamic values, errors and effects                               *)
(* ================================================================== *)

Module dyn.
Import gotime.

(** A value of type [any] as the driver hands it over ([rows.Values]).
    The constructors are the cases that [EscapeCopyValue] tells apart;
    a value whose text comes from the Go library carries that text. *)
Inductive value :=
| VNil                          (* nil *)
| VBool (b : bool)              (* bool *)
| VBytes (bs : list Byte.byte)  (* []byte *)
| VTime (layout_text : string)  (* time.Time; its v.Format("2006-01-02 15:04:05.999999-07") *)
| VString (s : string)          (* string *)
| VStringer (text : string)     (* any other type with a String method; its v.String() *)
| VInt (n : Z)                  (* an integer type: fmt.Sprintf("%v", v) is decimal *)
| VOther (text : string).       (* any other type; its fmt.Sprintf("%v", v) *)

(** The value that the driver hands over for the time [t]. *)
Definition ofTime (t : Time) : value := VTime (Format t).

Definition row := list value.

Inductive error :=
| ExecError (msg : string)                (* reported by the executor *)
| IOError (msg : string)                  (* reported by the io.Writer *)
| Wrapped (prefix : string) (e : error).  (* fmt.Errorf(prefix + ": %w", e) *)

(** How the iteration over the rows of a query ends: [rows.Next] turns
    false and [rows.Err] is nil, or [rows.Values] fails on a further row,
    or [rows.Next] turns false and [rows.Err] reports an error. *)
Inductive rows_end :=
| EndOk
| ValuesErr (e : error)
| RowsErr (e : error).

(** What one call of [pool.Query] delivers: an error at once, or the
    rows decoded by [rows.Values] and the way the iteration ends. *)
Inductive QueryResult :=
| QFail (e : error)
| QRows (rows : list row) (stop : rows_end).

(** The error a query ends with, if any. *)
Definition query_error (r : QueryResult) : option error :=
  match r with
  | QFail e => Some e
  | QRows _ (ValuesErr e) => Some e
  | QRows _ (RowsErr e) => Some e
  | QRows _ EndOk => None
  end.

Inductive event :=
| EvQuery (sql : string) (args : list value) (res : QueryResult)
| EvWrite (data : string)   (* a successful write to the io.Writer *)
| EvPrint (text : string)   (* fmt.Printf *)
| EvLog (text : string).    (* log.Printf *)

(** The environment of a run: [exec] is the database behind the
    [QueryExecutor], [io_fail n] is the error, if any, that the [io.Writer]
    reports for the write issued after [n] successful ones, [trace] is
    what has happened so far. *)
Record world := {
  exec : string → list value → QueryResult;
  io_fail : nat → option error;
  trace : list event
}.

Definition emit (ev : event) (w : world) : world :=
  {| exec := exec w; io_fail := io_fail w; trace := trace w ++ [ev] |}.

Definition writes (tr : list event) : list string :=
  omap (fun ev => match ev with EvWrite d => Some d | _ => None end) tr.

Definition queries (tr : list event) : list (string * list value * QueryResult) :=
  omap (fun ev => match ev with EvQuery q a r => Some (q, a, r) | _ => None end) tr.

(** Outcome of a call: a value, a returned error, or a panic. *)
Inductive res (A : Type) :=
| Ok (a : A)
| Err (e : error)
| Panic.
Arguments Ok {A} a.
Arguments Err {A} e.
Arguments Panic {A}.

(** State and error monad. *)
Definition M (S A : Type) : Type := S → res A * S.

Definition ret {S A} (a : A) : M S A := fun s => (Ok a, s).

Definition bind {S A B} (m : M S A) (k : A → M S B) : M S B :=
  fun s =>
    match m s with
    | (Ok a, s') => k a s'
    | (Err e, s') => (Err e, s')
    | (Panic, s') => (Panic, s')
    end.

Definition fail {S A} (e : error) : M S A := fun s => (Err e, s).

(** [if err := m; err != nil { return fmt.Errorf(prefix + ": %w", err) }]. *)
Definition wrap {S A} (prefix : string) (m : M S A) : M S A :=
  fun s =>
    match m s with
    | (Err e, s') => (Err (Wrapped prefix e), s')
    | r => r
    end.

(** A value that may come from a panicking expression. *)
Definition orPanic {S A} (o : option A) : M S A :=
  fun s => match o with Some a => (Ok a, s) | None => (Panic, s) end.

(** [for _, x := range l { body }], stopping at the first error. *)
Fixpoint forEach {S A} (l : list A) (body : A → M S unit) : M S unit :=
  match l with
  | [] => ret tt
  | x :: l' => bind (body x) (fun _ => forEach l' body)
  end.

End dyn.

Declare Scope go_scope.
Delimit Scope go_scope with go.
Notation "x <- m ;; k" := (dyn.bind m (fun x => k))
  (at level 100, m at next level, right associativity) : go_scope.
Notation "m ;;; k" := (dyn.bind m (fun _ => k))
  (at level 100, right associativity) : go_scope.

(* ================================================================== *)
(** * Package output                                                   *)
(* ================================================================== *)

Module output.
Import gostring schema dyn.

Definition TAB : ascii := "009"%char.
Definition LF : ascii := "010"%char.
Definition CR : ascii := "013"%char.
Definition BACKSLASH : ascii := "\"%char.

(** ** escape.go *)

Definition hex_digit (n : N) : ascii :=
  match String.get (N.to_nat n) "0123456789abcdef" with
  | Some c => c
  | None => "0"%char
  end.

(** [hex.EncodeToString]. *)
Fixpoint EncodeToString (bs : list Byte.byte) : string :=
  match bs with
  | [] => EmptyString
  | b :: bs' =>
    String (hex_digit (N.shiftr (Byte.to_N b) 4))
      (String (hex_digit (N.land (Byte.to_N b) 15)) (EncodeToString bs'))
  end.

(** Body of the loop of [escapeString]: what is appended for one rune. *)
Definition escapeRune (r : rune) : string :=
  if r =? 92 then "\\"
  else if r =? 10 then "\n"
  else if r =? 13 then "\r"
  else if r =? 9 then "\t"
  else encoderune r.

Definition escapeString (s : string) : string :=
  foldl (fun b r => b +:+ escapeRune r) "" (range s).

Definition EscapeCopyValue (val : value) : string :=
  match val with
  | VNil => "\N"
  | VBool v => if v then "t" else "f"
  | VBytes v => "\\x" +:+ EncodeToString v
  | VTime text => escapeString text
  | VString v => escapeString v
  | VStringer text => escapeString text
  | VInt n => escapeString (itoa n)
  | VOther text => escapeString text
  end.

(** ** Decoding a field

    The reading side of the COPY text format, after the rules of the
    specification: [\N] alone is NULL; in any other field a backslash
    introduces one of the escapes [\\], [\n], [\r], [\t]; a field holds
    no raw tab, newline or carriage return, since these separate fields
    and rows. [None] is a field that is not well formed. *)

Definition unescapeChar (e : ascii) : option ascii :=
  if Ascii.eqb e BACKSLASH then Some BACKSLASH
  else if Ascii.eqb e "n" then Some LF
  else if Ascii.eqb e "r" then Some CR
  else if Ascii.eqb e "t" then Some TAB
  else None.

Definition is_raw_separator (c : ascii) : bool :=
  Ascii.eqb c TAB || Ascii.eqb c LF || Ascii.eqb c CR.

Fixpoint unescape (s : string) : option string :=
  match s with
  | EmptyString => Some EmptyString
  | String c rest =>
    if Ascii.eqb c BACKSLASH then
      match rest with
      | EmptyString => None
      | String e rest' =>
        match unescapeChar e with
        | Some c' => option_map (String c') (unescape rest')
        | None => None
        end
      end
    else if is_raw_separator c then None
    else option_map (String c) (unescape rest)
  end.

(** A decoded field: [Some None] is NULL, [Some (Some text)] a value in
    its text form. *)
Definition decodeField (field : string) : option (option string) :=
  if String.eqb field "\N" then Some None
  else option_map Some (unescape field).

(** ** writer.go *)

(** [fmt.Fprint(cw.w, data)]. *)
Definition Fprint (data : string) : M world unit :=
  fun w =>
    match io_fail w (length (writes (trace w))) with
    | Some e => (Err e, w)
    | None => (Ok tt, emit (EvWrite data) w)
    end.

Definition NL : string := String LF EmptyString.

Definition Fprintln (line : string) : M world unit := Fprint (line +:+ NL).

Definition WriteHeader : M world unit :=
  (Fprintln "BEGIN;" ;;;
   Fprintln "SET session_replication_role = 'replica';" ;;;
   Fprintln "")%go.

Definition WriteFooter : M world unit :=
  (Fprintln "SET session_replication_role = 'origin';" ;;;
   Fprintln "COMMIT;")%go.

Definition WriteTableData (table : Table) (rows : list row) : M world unit :=
  match rows with
  | [] => ret tt
  | _ =>
    (Fprint ("COPY " +:+ FullName table +:+ " ("
             +:+ Join (ColumnNames table) ", " +:+ ") FROM stdin;" +:+ NL) ;;;
     forEach rows (fun row =>
       Fprintln (Join (map EscapeCopyValue row) (String TAB EmptyString))) ;;;
     Fprintln "\." ;;;
     Fprintln "")%go
  end.

End output.

(* ================================================================== *)
(** * Package extract                                                  *)
(* ================================================================== *)

Module extract.
Import gostring schema graph dyn output.

(** ** query.go *)

Definition buildRootQuery (table : Table) (where_ : string) : string :=
  let q := "SELECT * FROM " +:+ FullName table in
  if String.eqb where_ "" then q else q +:+ " WHERE " +:+ where_.

(** [fmt.Sprintf("$%d", argIdx)]. *)
Definition placeholder (argIdx : Z) : string := "$" +:+ itoa argIdx.

(** [pks = pks[:10000]] when [len(pks) > 10000]. *)
Definition capPKs (pks : list (list value)) : list (list value) :=
  if 10000 <? Z.of_nat (length pks) then take (Z.to_nat 10000) pks else pks.

(** The loop of [buildSingleColumnIN]: one placeholder and one bound
    value [pk[0]] per tuple; [None] when [pk[0]] is out of range. *)
Fixpoint singleLoop (pks : list (list value)) (argIdx : Z)
    : option (list string * list value * Z) :=
  match pks with
  | [] => Some ([], [], argIdx)
  | pk :: rest =>
    match head pk, singleLoop rest (argIdx + 1) with
    | Some v, Some (placeholders, args, next) =>
      Some (placeholder argIdx :: placeholders, v :: args, next)
    | _, _ => None
    end
  end.

Definition buildSingleColumnIN (fk : ForeignKey) (pks : list (list value))
    (nullable : bool) (argIdx : Z) : option (string * list value * Z) :=
  match head (ChildColumns fk) with
  | None => None
  | Some col =>
    match singleLoop (capPKs pks) argIdx with
    | None => None
    | Some (placeholders, args, next) =>
      let cond := col +:+ " IN (" +:+ Join placeholders ", " +:+ ")" in
      let cond := if nullable
                  then "(" +:+ cond +:+ " OR " +:+ col +:+ " IS NULL)"
                  else cond in
      Some (cond, args, next)
    end
  end.

(** The inner loop of [buildCompositeIN], [for j := range fk.ChildColumns],
    from column [j] on: a placeholder per column, bound to [pk[j]], or to
    nil when the tuple has no position [j]. *)
Fixpoint tupleLoop (cols : list string) (j : nat) (pk : list value) (argIdx : Z)
    : list string * list value * Z :=
  match cols with
  | [] => ([], [], argIdx)
  | _ :: cols' =>
    let '(placeholders, args, next) := tupleLoop cols' (S j) pk (argIdx + 1) in
    (placeholder argIdx :: placeholders, default VNil (pk !! j) :: args, next)
  end.

Fixpoint compositeLoop (cols : list string) (pks : list (list value)) (argIdx : Z)
    : list string * list value * Z :=
  match pks with
  | [] => ([], [], argIdx)
  | pk :: rest =>
    let '(placeholders, args1, mid) := tupleLoop cols 0 pk argIdx in
    let '(tuples, args2, next) := compositeLoop cols rest mid in
    (("(" +:+ Join placeholders ", " +:+ ")") :: tuples, args1 ++ args2, next)
  end.

Definition buildCompositeIN (fk : ForeignKey) (pks : list (list value))
    (nullable : bool) (argIdx : Z) : string * list value * Z :=
  let cols := Join (ChildColumns fk) ", " in
  let '(tuples, args, next) := compositeLoop (ChildColumns fk) (capPKs pks) argIdx in
  let cond := "(" +:+ cols +:+ ") IN (" +:+ Join tuples ", " +:+ ")" in
  let cond :=
    if nullable then
      let nullChecks := map (fun c => c +:+ " IS NULL") (ChildColumns fk) in
      "(" +:+ cond +:+ " OR (" +:+ Join nullChecks " AND " +:+ "))"
    else cond in
  (cond, args, next).

Definition isFKNullable (table : Table) (fk : ForeignKey) : bool :=
  let colMap : gmap string Column :=
    foldl (fun m c => <[col_Name c := c]> m) ∅ (Columns table) in
  existsb (fun colName =>
             match colMap !! colName with
             | Some col => col_Nullable col
             | None => false
             end) (ChildColumns fk).

(** What one foreign key adds to the query of its child table: nothing
    for a self-reference or a parent without collected keys, else a
    condition, its arguments and the next argument index. *)
Definition fkCondition (table : Table) (parentPKs : gmap string (list (list value)))
    (fk : ForeignKey) (argIdx : Z) : option (option (string * list value * Z)) :=
  if IsSelfRef fk then Some None
  else
    let parentKey := ParentSchema fk +:+ "." +:+ ParentTable fk in
    match parentPKs !! parentKey with
    | None | Some [] => Some None
    | Some pks =>
      let nullable := isFKNullable table fk in
      if (length (ChildColumns fk) =? 1)%nat
      then option_map Some (buildSingleColumnIN fk pks nullable argIdx)
      else Some (Some (buildCompositeIN fk pks nullable argIdx))
    end.

(** The loop of [buildChildQuery] over [table.ForeignKeys]. *)
Fixpoint childLoop (table : Table) (parentPKs : gmap string (list (list value)))
    (fks : list ForeignKey) (conditions : list string) (args : list value)
    (argIdx : Z) : option (list string * list value) :=
  match fks with
  | [] => Some (conditions, args)
  | fk :: rest =>
    match fkCondition table parentPKs fk argIdx with
    | None => None
    | Some None => childLoop table parentPKs rest conditions args argIdx
    | Some (Some (cond, newArgs, nextIdx)) =>
      childLoop table parentPKs rest (conditions ++ [cond]) (args ++ newArgs) nextIdx
    end
  end.

Definition buildChildQuery (table : Table)
    (parentPKs : gmap string (list (list value))) : option (string * list value) :=
  match childLoop table parentPKs (ForeignKeys table) [] [] 1 with
  | None => None
  | Some ([], _) => Some ("", [])
  | Some (conditions, args) =>
    Some ("SELECT * FROM " +:+ FullName table +:+ " WHERE "
          +:+ Join conditions " AND ", args)
  end.

(** The seed loops of [buildSelfRefQuery]. *)
Fixpoint seedTuple (pkCols : list string) (j : nat) (pk : list value) (argIdx : Z)
    : option (list string * list value * Z) :=
  match pkCols with
  | [] => Some ([], [], argIdx)
  | _ :: pkCols' =>
    match pk !! j, seedTuple pkCols' (S j) pk (argIdx + 1) with
    | Some v, Some (phs, args, next) => Some (placeholder argIdx :: phs, v :: args, next)
    | _, _ => None
    end
  end.

Fixpoint seedLoop (pkCols : list string) (seedPKs : list (list value)) (argIdx : Z)
    : option (list string * list value * Z) :=
  match seedPKs with
  | [] => Some ([], [], argIdx)
  | pk :: rest =>
    match seedTuple pkCols 0 pk argIdx with
    | None => None
    | Some (phs, args1, mid) =>
      match seedLoop pkCols rest mid with
      | None => None
      | Some (tuples, args2, next) =>
        Some (("(" +:+ Join phs ", " +:+ ")") :: tuples, args1 ++ args2, next)
      end
    end
  end.

(** [joinConds[i] = "t." + fkParentCols[i] + " = r." + fkChildCols[i]]. *)
Fixpoint joinConds (fkChildCols fkParentCols : list string) (i : nat)
    : option (list string) :=
  match fkChildCols with
  | [] => Some []
  | c :: rest =>
    match fkParentCols !! i, joinConds rest fkParentCols (S i) with
    | Some p, Some conds => Some (("t." +:+ p +:+ " = r." +:+ c) :: conds)
    | _, _ => None
    end
  end.

Definition buildSelfRefQuery (table : Table) (fk : ForeignKey)
    (seedPKs : list (list value)) : option (string * list value) :=
  match PrimaryKey_of table, seedPKs with
  | None, _ | _, [] => Some ("", [])
  | Some pk, _ =>
    let pkCols := pk_Columns pk in
    let seed :=
      if (length pkCols =? 1)%nat then
        match head pkCols, singleLoop seedPKs 1 with
        | Some col, Some (placeholders, args, _) =>
          Some (col +:+ " IN (" +:+ Join placeholders ", " +:+ ")", args)
        | _, _ => None
        end
      else
        match seedLoop pkCols seedPKs 1 with
        | Some (tuples, args, _) =>
          Some ("(" +:+ Join pkCols ", " +:+ ") IN (" +:+ Join tuples ", " +:+ ")", args)
        | None => None
        end in
    match seed, joinConds (ChildColumns fk) (ParentColumns fk) 0 with
    | Some (seedCond, args), Some conds =>
      Some ("WITH RECURSIVE tree AS (" +:+ NL
            +:+ "  SELECT t.* FROM " +:+ FullName table +:+ " t WHERE " +:+ seedCond +:+ NL
            +:+ "  UNION ALL" +:+ NL
            +:+ "  SELECT t.* FROM " +:+ FullName table +:+ " t JOIN tree r ON "
            +:+ Join conds " AND " +:+ NL
            +:+ ")" +:+ NL
            +:+ "SELECT DISTINCT * FROM tree", args)
    | _, _ => None
    end
  end.

(** ** selfref.go and extractor.go *)

Record Root := { root_Table : string; root_Where : string }.

(** The fields of [Extractor] that never change. *)
Record Extractor := {
  cfg_Roots : list Root;
  g : Graph;
  verbose : bool;
  dryRun : bool
}.

(** The fields of [Extractor] that do, and the environment. *)
Record state := {
  collected : gmap string (list row);
  collectedPKs : gmap string (list (list value));
  env : world
}.

(** [New]. *)
Definition New (w : world) : state :=
  {| collected := ∅; collectedPKs := ∅; env := w |}.

Definition liftIO {A} (m : M world A) : M state A :=
  fun st =>
    let '(r, w) := m (env st) in
    (r, {| collected := collected st; collectedPKs := collectedPKs st; env := w |}).

Definition gets {A} (f : state → A) : M state A := fun st => (Ok (f st), st).

(** [fmt.Printf] and [log.Printf]. *)
Definition Printf (text : string) : M state unit :=
  liftIO (fun w => (Ok tt, emit (EvPrint text) w)).
Definition logPrintf (text : string) : M state unit :=
  liftIO (fun w => (Ok tt, emit (EvLog text) w)).

Definition when {S} (b : bool) (m : M S unit) : M S unit :=
  if b then m else ret tt.

(** [pool.Query(ctx, sql, args...)] and the iteration over its rows. *)
Definition Query (sql : string) (args : list value) : M state QueryResult :=
  liftIO (fun w => let r := exec w sql args in (Ok r, emit (EvQuery sql args r) w)).

Definition pkColumnIndexes (table : Table) : option (list nat) :=
  match PrimaryKey_of table with
  | None => None
  | Some pk =>
    let colIdx : gmap string nat :=
      foldl (fun m ic => <[col_Name ic.2 := ic.1]> m) ∅
            (imap (fun i c => (i, c)) (Columns table)) in
    Some (map (fun col => default 0%nat (colIdx !! col)) (pk_Columns pk))
  end.

(** [None] is the nil slice of a table without primary key. *)
Definition extractPK (table : Table) (values : row) : option (list value) :=
  match pkColumnIndexes table with
  | None => None
  | Some pkIdxs => Some (map (fun idx => default VNil (values !! idx)) pkIdxs)
  end.

Definition addRow (table : Table) (values : row) : M state unit :=
  fun st =>
    let fullName := FullName table in
    let collected' :=
      <[fullName := getList (collected st) fullName ++ [values]]> (collected st) in
    let collectedPKs' :=
      match extractPK table values with
      | Some pkVals =>
        <[fullName := getList (collectedPKs st) fullName ++ [pkVals]]> (collectedPKs st)
      | None => collectedPKs st
      end in
    (Ok tt, {| collected := collected'; collectedPKs := collectedPKs'; env := env st |}).

Section with_fmt.
(** [fmt.Sprintf("%v", x)] for a slice [x] of values. *)
Variable Sprint : list value → string.

Definition pkKey (table : Table) (values : row) : string :=
  Sprint (default [] (extractPK table values)).

Definition pkSet (table : Table) (st : state) : gset string :=
  list_to_set (map (pkKey table) (getList (collected st) (FullName table))).

Definition rowCount (table : Table) : M state string :=
  gets (fun st => itoa (Z.of_nat (length (getList (collected st) (FullName table))))).

(** The tail shared by [extractRoot] and [extractChild]: run the query,
    add every row, report. *)
Definition collectRows (e : Extractor) (table : Table) (sql : string)
    (args : list value) : M state unit :=
  (r <- Query sql args ;;
   match r with
   | QFail err => fail err
   | QRows rows stop =>
     forEach rows (addRow table) ;;;
     match stop with
     | ValuesErr err => fail err
     | _ =>
       when (verbose e)
         (n <- rowCount table ;; Printf ("  -> " +:+ n +:+ " rows" +:+ NL)) ;;;
       match stop with
       | RowsErr err => fail err
       | _ => ret tt
       end
     end
   end)%go.

Definition extractRoot (e : Extractor) (table : Table) (where_ : string)
    : M state unit :=
  let query := buildRootQuery table where_ in
  (when (verbose e || dryRun e)
     (Printf ("[root] " +:+ FullName table +:+ ": " +:+ query +:+ NL)) ;;;
   if dryRun e then ret tt
   else collectRows e table query [])%go.

Definition extractChild (e : Extractor) (table : Table) : M state unit :=
  (pks <- gets collectedPKs ;;
   qa <- orPanic (buildChildQuery table pks) ;;
   let '(query, args) := qa in
   if String.eqb query "" then ret tt
   else
     when (verbose e || dryRun e)
       (Printf ("[child] " +:+ FullName table +:+ ": " +:+ query +:+ NL) ;;;
        when (dryRun e) (Printf ("  args: " +:+ Sprint args +:+ NL))) ;;;
     if dryRun e then ret tt
     else collectRows e table query args)%go.

Definition fetchSelfRefRows (table : Table) (fk : ForeignKey)
    (seedPKs : list (list value)) (verbose : bool) : M state (list row) :=
  (qa <- orPanic (buildSelfRefQuery table fk seedPKs) ;;
   let '(query, args) := qa in
   if String.eqb query "" then ret []
   else
     when verbose
       (Printf ("  [self-ref] " +:+ FullName table +:+ ": " +:+ query
                +:+ " (args: " +:+ Sprint args +:+ ")" +:+ NL)) ;;;
     r <- Query query args ;;
     match r with
     | QFail err => fail (Wrapped ("self-ref query for " +:+ FullName table) err)
     | QRows _ (ValuesErr err) => fail err
     | QRows _ (RowsErr err) => fail err
     | QRows rows EndOk => ret rows
     end)%go.

(** [for _, row := range extraRows]: add the rows whose key is new. *)
Fixpoint addNewRows (table : Table) (extraRows : list row) (existing : gset string)
    : M state unit :=
  match extraRows with
  | [] => ret tt
  | row :: rest =>
    let key := pkKey table row in
    if bool_decide (key ∈ existing) then addNewRows table rest existing
    else (addRow table row ;;; addNewRows table rest ({[key]} ∪ existing))%go
  end.

Definition extractSelfRef (e : Extractor) (table : Table)
    (selfRefs : list ForeignKey) : M state unit :=
  (seedPKs <- gets (fun st => getList (collectedPKs st) (FullName table)) ;;
   match seedPKs with
   | [] => ret tt
   | _ =>
     forEach selfRefs (fun fk =>
       extraRows <- fetchSelfRefRows table fk seedPKs (verbose e || dryRun e) ;;
       existing <- gets (pkSet table) ;;
       addNewRows table extraRows existing ;;;
       when (verbose e)
         (n <- rowCount table ;;
          Printf ("  [self-ref] " +:+ FullName table +:+ ": total " +:+ n
                  +:+ " rows after recursive" +:+ NL)))
   end)%go.

(** [fmt.Sprintf("%v", names)] for a slice of strings. *)
Definition SprintNames (names : list string) : string :=
  "[" +:+ Join names " " +:+ "]".

(** The traversal loop of [Extract]. *)
Definition extractTable (e : Extractor) (rootWhere : gmap string string)
    (tableName : string) : M state unit :=
  match Tables (g e) !! tableName with
  | None => ret tt
  | Some tbl =>
    (match rootWhere !! tbl_Name tbl with
     | Some where_ =>
       wrap ("extracting root " +:+ tableName) (extractRoot e tbl where_)
     | None =>
       if (0 <? length (getList (Parents (g e)) tableName))%nat
       then wrap ("extracting child " +:+ tableName) (extractChild e tbl)
       else ret tt
     end ;;;
     match SelfRefs (g e) !! tableName with
     | Some (fk :: fks) =>
       wrap ("extracting self-ref " +:+ tableName) (extractSelfRef e tbl (fk :: fks))
     | _ => ret tt
     end)%go
  end.

(** The output loop of [Extract]. *)
Definition writeTable (e : Extractor) (tableName : string) : M state unit :=
  match Tables (g e) !! tableName with
  | None => ret tt
  | Some tbl =>
    (rows <- gets (fun st => getList (collected st) tableName) ;;
     wrap ("writing " +:+ tableName) (liftIO (WriteTableData tbl rows)))%go
  end.

(** [Extract]; [all] is the order in which [TopoSortAll] meets the keys
    of [g.Tables]. *)
Definition Extract (e : Extractor) (all : list string) : M state unit :=
  let rootWhere : gmap string string :=
    foldl (fun m r => <[root_Table r := root_Where r]> m) ∅ (cfg_Roots e) in
  let topoResult := TopoSortAll (g e) all in
  (when (HasCycle topoResult)
     (logPrintf ("WARNING: Circular dependencies detected: "
                 +:+ SprintNames (CycleTables topoResult)) ;;;
      logPrintf "Tables in cycles will be handled with session_replication_role = 'replica'") ;;;
   let order := if HasCycle topoResult
                then Order topoResult ++ CycleTables topoResult
                else Order topoResult in
   forEach order (extractTable e rootWhere) ;;;
   if dryRun e then ret tt
   else
     liftIO WriteHeader ;;;
     forEach order (writeTable e) ;;;
     liftIO WriteFooter)%go.

End with_fmt.

End extract.

Import gostring gotime schema graph dyn output extract.

(* ================================================================== *)
(** * Kahn's algorithm                                                 *)
(* ================================================================== *)

Section counting.
Context {A : Type} `{EqDecision A}.

(** Number of occurrences of [x] in [l]. *)
Definition occ (x : A) (l : list A) : nat := length (filter (fun y => y = x) l).

Lemma occ_nil x : occ x [] = 0%nat.
Proof. reflexivity. Qed.

Lemma occ_cons x y l :
  occ x (y :: l) = (if decide (y = x) then S (occ x l) else occ x l).
Proof. unfold occ. rewrite filter_cons. by destruct (decide (y = x)). Qed.

Lemma occ_app x l k : occ x (l ++ k) = (occ x l + occ x k)%nat.
Proof. unfold occ. by rewrite filter_app, length_app. Qed.

Lemma occ_pos x l : (0 < occ x l)%nat ↔ x ∈ l.
Proof.
  induction l as [|y l IH]; [rewrite occ_nil; split; [lia|inversion 1]|].
  rewrite occ_cons, elem_of_cons. destruct (decide (y = x)); subst.
  - split; [auto|lia].
  - rewrite IH. split; [auto|]. intros [?|?]; [congruence|done].
Qed.

Lemma occ_zero x l : occ x l = 0%nat ↔ x ∉ l.
Proof. rewrite <- occ_pos. lia. Qed.

(** Entries of [l] outside [seen]. *)
Definition pending (seen l : list A) : nat :=
  length (filter (fun y => y ∉ seen) l).

Lemma pending_nil l : pending [] l = length l.
Proof.
  unfold pending. induction l as [|y l IH]; [done|].
  rewrite filter_cons_True by (inversion 1). cbn [length]. by f_equal.
Qed.

Lemma pending_snoc seen x l :
  x ∉ seen → (pending (seen ++ [x]) l + occ x l = pending seen l)%nat.
Proof.
  intros Hx. unfold pending, occ. induction l as [|y l IH]; [done|].
  rewrite !filter_cons.
  destruct (decide (y = x)) as [->|Hne].
  - destruct (decide (x ∉ seen ++ [x])) as [Hn|_];
      [exfalso; apply Hn, elem_of_app; right; by apply list_elem_of_singleton|].
    destruct (decide (x ∉ seen)); [|done]. simpl. lia.
  - destruct (decide (y ∉ seen)) as [Hy|Hy];
      destruct (decide (y ∉ seen ++ [x])) as [Hy'|Hy']; simpl; try lia.
    + exfalso. apply Hy'. intros [?|Hs]%elem_of_app; [done|].
      apply list_elem_of_singleton in Hs. done.
    + exfalso. apply Hy. intros ?. apply Hy', elem_of_app. by left.
Qed.

Lemma pending_zero seen l : pending seen l = 0%nat → ∀ y, y ∈ l → y ∈ seen.
Proof.
  unfold pending. intros H y Hy.
  destruct (decide (y ∈ seen)) as [|Hn]; [done|].
  assert (y ∈ filter (fun y => y ∉ seen) l) as Hin by (by apply list_elem_of_filter).
  destruct (filter _ l); [inversion Hin | done].
Qed.

End counting.

Lemma getInt_insert m k v k' :
  getInt (<[k:=v]> m) k' = if decide (k = k') then v else getInt m k'.
Proof. unfold getInt. rewrite lookup_insert. by destruct (decide (k = k')). Qed.

Lemma getList_insert {A} (m : gmap string (list A)) k v k' :
  getList (<[k:=v]> m) k' = if decide (k = k') then v else getList m k'.
Proof. unfold getList. rewrite lookup_insert. by destruct (decide (k = k')). Qed.

(** ** The relaxation loop *)

Lemma relax_inDeg cs : ∀ inDeg q c,
  getInt (relax cs inDeg q).1 c = getInt inDeg c - Z.of_nat (occ c cs).
Proof.
  induction cs as [|x cs IH]; intros inDeg q c; simpl.
  - rewrite occ_nil. lia.
  - destruct (getInt inDeg x - 1 =? 0);
      rewrite IH, getInt_insert, occ_cons; destruct (decide (x = c)); subst; lia.
Qed.

Lemma relax_spec cs : ∀ inDeg q,
  (∀ c, c ∈ cs → Z.of_nat (occ c cs) ≤ getInt inDeg c) →
  ∃ added, (relax cs inDeg q).2 = q ++ added ∧ NoDup added ∧
    ∀ c, c ∈ added ↔ c ∈ cs ∧ getInt inDeg c = Z.of_nat (occ c cs).
Proof.
  induction cs as [|x cs IH]; intros inDeg q Hpre; simpl.
  - exists []. rewrite app_nil_r. split; [done|]. split; [constructor|].
    intros c. split; [inversion 1|]. intros [Hc _]. inversion Hc.
  - pose proof (Hpre x (list_elem_of_here _ _)) as Hx.
    rewrite occ_cons in Hx. destruct (decide (x = x)) as [_|]; [|done].
    set (d := getInt inDeg x - 1) in *.
    assert (Hpre' : ∀ c, c ∈ cs → Z.of_nat (occ c cs) ≤ getInt (<[x:=d]> inDeg) c).
    { intros c Hc. rewrite getInt_insert. destruct (decide (x = c)) as [->|Hne].
      - unfold d. lia.
      - specialize (Hpre c (list_elem_of_further _ _ _ Hc)).
        rewrite occ_cons in Hpre. by destruct (decide (x = c)). }
    destruct (Z.eqb_spec d 0) as [Hd|Hd].
    + destruct (IH (<[x:=d]> inDeg) (q ++ [x]) Hpre') as (added & Heq & Hnd & Hin).
      exists (x :: added). rewrite Heq, <- app_assoc. split; [done|].
      assert (Hocc : occ x cs = 0%nat) by (unfold d in Hd; lia).
      split.
      * apply NoDup_cons. split; [|done]. intros Hxa. apply Hin in Hxa as [Hxc _].
        by apply occ_zero in Hocc.
      * intros c. rewrite !elem_of_cons, Hin, getInt_insert, occ_cons.
        destruct (decide (x = c)) as [->|Hne].
        -- split; [|auto]. intros _. split; [auto|]. unfold d in Hd. lia.
        -- split.
           ++ intros [->|[? ?]]; [done|]. auto.
           ++ intros [[->|?] ?]; [done|]. auto.
    + destruct (IH (<[x:=d]> inDeg) q Hpre') as (added & Heq & Hnd & Hin).
      exists added. split; [done|]. split; [done|].
      intros c. rewrite Hin, elem_of_cons, getInt_insert, occ_cons.
      destruct (decide (x = c)) as [->|Hne].
      * split.
        -- intros [? ?]. split; [auto|]. unfold d in *. lia.
        -- intros [_ ?]. assert (occ c cs ≠ 0%nat) as Hnz by (unfold d in *; lia).
           split; [|unfold d; lia]. apply occ_pos. lia.
      * split.
        -- intros [? ?]. auto.
        -- intros [[->|?] ?]; [done|]. auto.
Qed.

(** ** Termination of the work-list loop *)

Definition positives (inDeg : gmap string Z) : nat :=
  size (filter (fun kv : string * Z => 0 < kv.2) inDeg).

Lemma positives_insert inDeg x d :
  d = getInt inDeg x - 1 →
  ((if Z.eqb d 0 then 1 else 0) + positives (<[x:=d]> inDeg))%nat = positives inDeg.
Proof.
  intros Hd. unfold positives, getInt in *. rewrite map_filter_insert.
  destruct (decide (0 < (x, d).2)) as [Hpos|Hpos]; simpl in Hpos.
  - destruct (Z.eqb_spec d 0); [lia|].
    rewrite map_size_insert_Some; [done|].
    destruct (inDeg !! x) as [v|] eqn:Hx; simpl in Hd; [|lia].
    exists v. apply map_lookup_filter_Some. split; [done|]. simpl. lia.
  - rewrite map_filter_delete.
    destruct (Z.eqb_spec d 0) as [Hz|Hz].
    + destruct (inDeg !! x) as [v|] eqn:Hx; simpl in Hd; [|lia].
      assert (filter (fun kv : string * Z => 0 < kv.2) inDeg !! x = Some v) as Hf.
      { apply map_lookup_filter_Some. split; [done|]. simpl. lia. }
      rewrite map_size_delete_Some by eauto.
      assert (size (filter (fun kv : string * Z => 0 < kv.2) inDeg) ≠ 0%nat); [|lia].
      intros Hs. apply map_size_empty_inv in Hs. rewrite Hs in Hf.
      by rewrite lookup_empty in Hf.
    + rewrite map_size_delete_None; [done|].
      apply map_lookup_filter_None. right. intros v Hv. simpl.
      rewrite Hv in Hd. simpl in Hd. lia.
Qed.

Lemma relax_measure cs : ∀ inDeg q,
  (length (relax cs inDeg q).2 + positives (relax cs inDeg q).1
   = length q + positives inDeg)%nat.
Proof.
  induction cs as [|x cs IH]; intros inDeg q; simpl; [done|].
  pose proof (positives_insert inDeg x _ eq_refl) as Hp.
  destruct (getInt inDeg x - 1 =? 0); rewrite IH.
  - rewrite length_app. simpl. lia.
  - lia.
Qed.

Lemma kahn_drains fuel : ∀ lc inDeg q order,
  (length q + positives inDeg ≤ fuel)%nat →
  (kahn fuel lc inDeg q order).1.2 = [].
Proof.
  induction fuel as [|fuel IH]; intros lc inDeg q order Hle.
  - destruct q; [done|]. simpl in Hle. lia.
  - destruct q as [|node q]; [done|]. simpl.
    destruct (relax (getList lc node) inDeg q) as [inDeg' q'] eqn:Hr.
    apply IH. pose proof (relax_measure (getList lc node) inDeg q) as Hm.
    rewrite Hr in Hm. simpl in *. lia.
Qed.

(** ** Invariants of loops written as folds *)

Lemma foldl_invariant {A B} (P : A → Prop) (f : A → B → A) (l : list B) :
  (∀ a b, b ∈ l → P a → P (f a b)) → ∀ a, P a → P (foldl f a l).
Proof.
  induction l as [|b l IH]; intros Hstep a Ha; simpl; [done|].
  apply IH.
  - intros a' b' Hb'. apply Hstep. by apply list_elem_of_further.
  - apply Hstep; [apply list_elem_of_here | done].
Qed.

Lemma foldl_reaches {A B} (Q : B → A → Prop) (f : A → B → A) (l : list B) :
  (∀ a b, b ∈ l → Q b (f a b)) →
  (∀ a b b', b' ∈ l → Q b a → Q b (f a b')) →
  ∀ a b, b ∈ l → Q b (foldl f a l).
Proof.
  induction l as [|x l IH]; intros Hadd Hmono a b Hb; [inversion Hb|]. simpl.
  apply elem_of_cons in Hb as [->|Hb].
  - apply (foldl_invariant (Q x)).
    + intros a' b' Hb' Hq. apply Hmono; [by apply list_elem_of_further | done].
    + apply Hadd, list_elem_of_here.
  - apply IH; [| |done].
    + intros a' b' Hb'. apply Hadd. by apply list_elem_of_further.
    + intros a' b1 b2 Hb2. apply Hmono. by apply list_elem_of_further.
Qed.

(** ** The local parent and child maps *)

Record locals_ok (g : Graph) (tables : list string) (st : locals) : Prop := {
  lo_sym : ∀ c p, occ c (getList (localChildren st) p) = occ p (getList (localParents st) c);
  lo_deg : ∀ c, getInt (inDegree st) c = Z.of_nat (length (getList (localParents st) c));
  lo_sound : ∀ c p, p ∈ getList (localParents st) c →
               c ∈ tables ∧ p ∈ tables ∧ p ∈ getList (Parents g) c;
  lo_dom : ∀ k, is_Some (inDegree st !! k) → k ∈ tables
}.

Lemma init_inDegree_lookup tables k :
  foldl (fun m t => <[t := 0]> m) (∅ : gmap string Z) tables !! k = None ∨
  (foldl (fun m t => <[t := 0]> m) (∅ : gmap string Z) tables !! k = Some 0 ∧ k ∈ tables).
Proof.
  apply (foldl_invariant
    (fun m : gmap string Z => m !! k = None ∨ (m !! k = Some 0 ∧ k ∈ tables))).
  - intros m t Ht Hm. rewrite lookup_insert. destruct (decide (t = k)) as [->|]; auto.
  - left. apply lookup_empty.
Qed.

Lemma initLocals_ok g tables : locals_ok g tables (initLocals tables).
Proof.
  split; simpl.
  - intros c p. unfold getList. by rewrite !lookup_empty.
  - intros c. unfold getList, getInt. rewrite lookup_empty. simpl.
    by destruct (init_inDegree_lookup tables c) as [->|[-> _]].
  - intros c p. unfold getList. rewrite lookup_empty. inversion 1.
  - intros k [v Hk]. destruct (init_inDegree_lookup tables k) as [H|[_ H]]; [congruence|done].
Qed.

Lemma addLocalEdge_ok g tables t st p :
  t ∈ tables → p ∈ getList (Parents g) t →
  locals_ok g tables st →
  locals_ok g tables (addLocalEdge (list_to_set tables) t st p).
Proof.
  intros Ht Hp [Hsym Hdeg Hsound Hdom]. unfold addLocalEdge.
  destruct (bool_decide_reflect (p ∈ (list_to_set tables : gset string))) as [Hin|Hin];
    [|by split].
  apply elem_of_list_to_set in Hin.
  split; simpl.
  - intros c p'. rewrite !getList_insert.
    destruct (decide (p = p')) as [<-|Hp']; destruct (decide (t = c)) as [<-|Hc];
      rewrite ?occ_app, ?occ_cons, ?occ_nil, ?Hsym;
      repeat (destruct (decide _)); try congruence; lia.
  - intros c. rewrite getInt_insert, getList_insert.
    destruct (decide (t = c)) as [<-|]; [|done].
    rewrite Hdeg, length_app. simpl. lia.
  - intros c p'. rewrite getList_insert.
    destruct (decide (t = c)) as [<-|]; [|by apply Hsound].
    intros [H|H]%elem_of_app; [by apply Hsound|].
    apply list_elem_of_singleton in H as ->. done.
  - intros k. rewrite lookup_insert. destruct (decide (t = k)) as [<-|]; [done|]. apply Hdom.
Qed.

Lemma buildLocals_ok g tables ts st :
  (∀ t, t ∈ ts → t ∈ tables) →
  locals_ok g tables st →
  locals_ok g tables (buildLocals g (list_to_set tables) ts st).
Proof.
  intros Hts. unfold buildLocals. apply foldl_invariant.
  intros st' t Ht. apply foldl_invariant.
  intros st'' p Hp. apply addLocalEdge_ok; auto.
Qed.

Lemma addLocalEdge_mono S t st p c q :
  q ∈ getList (localParents st) c →
  q ∈ getList (localParents (addLocalEdge S t st p)) c.
Proof.
  intros Hq. unfold addLocalEdge. destruct (bool_decide _); [|done]. simpl.
  rewrite getList_insert. destruct (decide (t = c)) as [<-|]; [|done].
  apply elem_of_app. by left.
Qed.

Lemma buildLocals_complete g tables ts st c p :
  c ∈ ts → p ∈ getList (Parents g) c → p ∈ tables →
  p ∈ getList (localParents (buildLocals g (list_to_set tables) ts st)) c.
Proof.
  intros Hc Hp Hpt. unfold buildLocals.
  apply (foldl_reaches
    (fun (c : string) (st : locals) =>
       ∀ p, p ∈ getList (Parents g) c → p ∈ tables → p ∈ getList (localParents st) c));
    [| |done|done|done].
  - intros st' t _ q Hq Hqt.
    apply (foldl_reaches
      (fun (q : string) (st : locals) => q ∈ tables → q ∈ getList (localParents st) t));
      [| |done|done].
    + intros st'' q' _ Hq't. unfold addLocalEdge.
      rewrite bool_decide_true by (by apply elem_of_list_to_set). simpl.
      rewrite getList_insert. destruct (decide (t = t)); [|done].
      apply elem_of_app. right. by apply list_elem_of_singleton.
    + intros st'' q1 q2 _ H1 Hq1. by apply addLocalEdge_mono, H1.
  - intros st' t t' _ H q Hq Hqt.
    apply (foldl_invariant (fun st : locals => q ∈ getList (localParents st) t)).
    + intros st'' p' _. apply addLocalEdge_mono.
    + by apply H.
Qed.

(** ** The invariant of Kahn's loop *)

Section kahn_invariant.
Variables (lp lc : gmap string (list string)) (tables : list string).
Hypothesis Hsym : ∀ c p, occ c (getList lc p) = occ p (getList lp c).
Hypothesis Hlc : ∀ c p, c ∈ getList lc p → c ∈ tables.

Record kahn_ok (inDeg : gmap string Z) (queue order : list string) : Prop := {
  k_deg : ∀ c, getInt inDeg c = Z.of_nat (pending order (getList lp c));
  k_nodup : NoDup (order ++ queue);
  k_zero : ∀ c, c ∈ order ++ queue ↔ c ∈ tables ∧ getInt inDeg c = 0;
  k_sorted : ∀ l1 c l2, order = l1 ++ c :: l2 → ∀ p, p ∈ getList lp c → p ∈ l1
}.

Lemma kahn_step inDeg node queue order :
  kahn_ok inDeg (node :: queue) order →
  kahn_ok (relax (getList lc node) inDeg queue).1
          (relax (getList lc node) inDeg queue).2 (order ++ [node]).
Proof.
  intros [Hdeg Hnd Hzero Hsorted].
  assert (Hnode : node ∉ order).
  { apply NoDup_app in Hnd as (_ & Hdis & _). intros Hin.
    apply (Hdis _ Hin), list_elem_of_here. }
  assert (Hbound : ∀ c, getInt inDeg c =
            Z.of_nat (pending (order ++ [node]) (getList lp c))
            + Z.of_nat (occ c (getList lc node))).
  { intros c. rewrite Hdeg, Hsym, <- (pending_snoc order node) by done. lia. }
  destruct (relax_spec (getList lc node) inDeg queue) as (added & Hq & Hnda & Hadded).
  { intros c _. rewrite (Hbound c). lia. }
  assert (Hdeg' : ∀ c, getInt (relax (getList lc node) inDeg queue).1 c
                       = Z.of_nat (pending (order ++ [node]) (getList lp c))).
  { intros c. rewrite relax_inDeg, (Hbound c). lia. }
  assert (Hlist : (order ++ [node]) ++ queue ++ added = (order ++ node :: queue) ++ added).
  { by rewrite <- !app_assoc. }
  split.
  - exact Hdeg'.
  - rewrite Hq, Hlist. apply NoDup_app. split; [done|]. split; [|done].
    intros x Hx Hxa. apply Hzero in Hx as [_ Hx0].
    apply Hadded in Hxa as [Hxc Hxe]. apply occ_pos in Hxc. lia.
  - intros c. rewrite Hq, Hlist, elem_of_app, Hzero, Hadded, Hdeg'.
    pose proof (Hbound c) as Hb. split.
    + intros [[Hc H0]|[Hc He]].
      * split; [done|]. lia.
      * split; [by eapply Hlc|]. lia.
    + intros [Hc H0]. destruct (decide (c ∈ getList lc node)) as [Hin|Hin].
      * right. split; [done|]. lia.
      * left. split; [done|]. apply occ_zero in Hin. lia.
  - intros l1 c l2 Heq p Hp.
    destruct l2 as [|x l2 _] using rev_ind.
    + apply app_inj_tail in Heq as [<- <-].
      assert (getInt inDeg node = 0) as H0.
      { apply Hzero, elem_of_app. right. apply list_elem_of_here. }
      rewrite Hdeg in H0. apply (pending_zero order (getList lp node)); [lia|done].
    + rewrite app_comm_cons, app_assoc in Heq.
      apply app_inj_tail in Heq as [Heq _]. by eapply Hsorted.
Qed.

Lemma kahn_preserves fuel : ∀ inDeg queue order,
  kahn_ok inDeg queue order →
  kahn_ok (kahn fuel lc inDeg queue order).1.1
          (kahn fuel lc inDeg queue order).1.2
          (kahn fuel lc inDeg queue order).2.
Proof.
  induction fuel as [|fuel IH]; intros inDeg queue order Hok.
  - by destruct queue.
  - destruct queue as [|node queue]; [done|]. simpl.
    pose proof (kahn_step _ _ _ _ Hok) as Hstep.
    destruct (relax (getList lc node) inDeg queue) as [inDeg' queue'].
    by apply IH.
Qed.

End kahn_invariant.

(** ** [TopoSort] *)

Lemma positives_le_filter (m : gmap string Z) (tables : list string) :
  (∀ k, is_Some (m !! k) → k ∈ tables) →
  (positives m ≤ length (filter (fun t => (0 < getInt m t)%Z) tables))%nat.
Proof.
  intros Hdom. unfold positives.
  rewrite <- length_map_to_list, <- (length_fmap fst).
  apply submseteq_length, NoDup_submseteq; [apply NoDup_fst_map_to_list|].
  intros k Hk. apply list_elem_of_fmap in Hk as ([k' v] & -> & Hkv). simpl.
  apply elem_of_map_to_list, map_lookup_filter_Some in Hkv as [Hkv Hpos]. simpl in Hpos.
  apply list_elem_of_filter. split.
  - unfold getInt. by rewrite Hkv.
  - apply Hdom. eauto.
Qed.

Lemma filter_zero_pos_length (m : gmap string Z) (tables : list string) :
  (length (filter (fun t => getInt m t = 0%Z) tables)
   + length (filter (fun t => (0 < getInt m t)%Z) tables) ≤ length tables)%nat.
Proof.
  induction tables as [|t tables IH]; [done|].
  rewrite !filter_cons.
  destruct (decide (getInt m t = 0)); destruct (decide (0 < getInt m t)); simpl; lia.
Qed.

(** The fuel of the model is never exhausted, whatever the graph and the
    list. *)
Lemma topoState_queue_empty g tables :
  (topoState g tables).2.1.2 = [].
Proof.
  unfold topoState. cbn [snd]. apply kahn_drains.
  pose proof (buildLocals_ok g tables tables (initLocals tables)
                (fun _ H => H) (initLocals_ok g tables)) as Hok.
  pose proof (positives_le_filter _ tables (lo_dom _ _ _ Hok)).
  pose proof (filter_zero_pos_length
    (inDegree (buildLocals g (list_to_set tables) tables (initLocals tables))) tables).
  lia.
Qed.

(** X1. The loop of [TopoSort] always runs until the queue is empty, within
    [len(tables)] iterations, whatever the graph and the list. *)
Lemma TopoSort_queue_drained g tables :
  (topoState g tables).2.1.2 = [].
Proof. apply topoState_queue_empty. Qed.

Lemma topoState_ok g tables :
  NoDup tables →
  let st := topoState g tables in
  (∀ c p, c ∈ tables → p ∈ getList (Parents g) c → p ∈ tables →
          p ∈ getList (localParents st.1) c) ∧
  kahn_ok (localParents st.1) tables st.2.1.1 [] st.2.2.
Proof.
  intros Hnd st.
  pose proof (buildLocals_ok g tables tables (initLocals tables)
                (fun _ H => H) (initLocals_ok g tables)) as Hok.
  split; [intros c p; apply buildLocals_complete|].
  pose proof (topoState_queue_empty g tables) as Hq. fold st in Hq. rewrite <- Hq.
  unfold st, topoState. cbn [fst snd].
  set (loc := buildLocals g (list_to_set tables) tables (initLocals tables)) in *.
  apply (kahn_preserves (localParents loc) (localChildren loc) tables).
  - apply (lo_sym _ _ _ Hok).
  - intros c p Hc. apply occ_pos in Hc. rewrite (lo_sym _ _ _ Hok) in Hc.
    apply occ_pos in Hc. by apply (lo_sound _ _ _ Hok) in Hc as [? _].
  - split.
    + intros c. rewrite pending_nil. apply (lo_deg _ _ _ Hok).
    + simpl. by apply NoDup_filter.
    + intros c. simpl. rewrite list_elem_of_filter. tauto.
    + intros l1 c l2 Heq. by destruct l1.
Qed.

(** [x] occurs in [l] at an earlier position than [y]. *)
Definition before (x y : string) (l : list string) : Prop :=
  ∃ l1 l2 l3, l = l1 ++ x :: l2 ++ y :: l3.

(** C1. For a list of tables without repetition and an edge child→parent of
    [g.Parents] between two different tables of the list: when neither table
    is reported in [CycleTables], the parent stands before the child in
    [Order]. *)
Theorem TopoSort_parent_before_child g tables child parent :
  NoDup tables →
  parent ∈ getList (Parents g) child →
  child ≠ parent →
  child ∈ tables → parent ∈ tables →
  child ∉ CycleTables (TopoSort g tables) →
  parent ∉ CycleTables (TopoSort g tables) →
  before parent child (Order (TopoSort g tables)).
Proof.
  intros Hnd Hedge _ Hc Hp Hcc _.
  destruct (topoState_ok g tables Hnd) as [Hlok Hk].
  unfold TopoSort in *.
  destruct (topoState g tables) as [loc [[inDeg queue] order]]. cbn [fst snd] in *.
  destruct Hk as [Hdeg Hndo Hzero Hsorted]. rewrite app_nil_r in *.
  assert (Hin : child ∈ order).
  { destruct (Nat.ltb_spec (length order) (length tables)) as [Hlt|Hge]; simpl in *.
    - apply Hzero. split; [done|].
      assert (¬ 0 < getInt inDeg child).
      { intros Hpos. apply Hcc, list_elem_of_filter. by split. }
      specialize (Hdeg child). lia.
    - assert (order ⊆+ tables) as Hsub.
      { apply NoDup_submseteq; [done|]. intros x Hx. by apply Hzero in Hx as [? _]. }
      apply submseteq_length_Permutation in Hsub; [|done].
      by rewrite Hsub. }
  apply list_elem_of_split in Hin as (l1 & l3 & Heq).
  assert (parent ∈ l1) as Hpl.
  { apply (Hsorted l1 child l3 Heq). by apply Hlok. }
  apply list_elem_of_split in Hpl as (l1a & l2 & ->).
  exists l1a, l2, l3.
  destruct (length order <? length tables)%nat; simpl; rewrite Heq; by rewrite <- app_assoc.
Qed.

(* ================================================================== *)
(** * COPY text format                                                 *)
(* ================================================================== *)

(** ** Bytes *)

Lemma byte_val_bound c : 0 ≤ byte_val c < 256.
Proof.
  unfold byte_val. pose proof (N_ascii_bounded c). lia.
Qed.

Lemma byte_val_to_byte x : byte_val (to_byte x) = x mod 256.
Proof.
  unfold byte_val, to_byte.
  pose proof (Z.mod_pos_bound x 256 eq_refl).
  rewrite N_ascii_embedding by lia. lia.
Qed.

Lemma to_byte_byte_val c : to_byte (byte_val c) = c.
Proof.
  unfold to_byte. rewrite Z.mod_small by apply byte_val_bound.
  unfold byte_val. rewrite N2Z.id. apply ascii_N_embedding.
Qed.

(** A byte that the escape rules leave alone. *)
Definition plain (c : ascii) : bool :=
  negb (Ascii.eqb c BACKSLASH) && negb (is_raw_separator c).

Definition high (c : ascii) : bool := 0x80 <=? byte_val c.

Lemma high_plain c : high c = true → plain c = true.
Proof. destruct c as [[] [] [] [] [] [] [] []]; vm_compute; congruence. Qed.

Lemma lead_high (m : Z) c :
  m = 0xC0 ∨ m = 0xE0 ∨ m = 0xF0 →
  high (to_byte (Z.lor m (byte_val c))) = true.
Proof.
  intros [-> | [-> | ->]]; destruct c as [[] [] [] [] [] [] [] []]; vm_compute; reflexivity.
Qed.

Lemma cont_high c : high (to_byte (Z.lor 0x80 (Z.land (byte_val c) 0x3F))) = true.
Proof. destruct c as [[] [] [] [] [] [] [] []]; vm_compute; reflexivity. Qed.

Fixpoint all_bytes (P : ascii → bool) (s : string) : bool :=
  match s with
  | EmptyString => true
  | String c s' => P c && all_bytes P s'
  end.

Lemma all_bytes_app P s1 s2 :
  all_bytes P (s1 +:+ s2) = all_bytes P s1 && all_bytes P s2.
Proof. induction s1 as [|c s1 IH]; simpl; [done|]. by rewrite IH, andb_assoc. Qed.

Lemma all_bytes_impl (P Q : ascii → bool) s :
  (∀ c, P c = true → Q c = true) → all_bytes P s = true → all_bytes Q s = true.
Proof.
  intros HPQ. induction s as [|c s IH]; simpl; [done|].
  intros [? ?]%andb_true_iff. apply andb_true_iff. auto.
Qed.

(** ** Runes *)

Definition is_rune (r : Z) : Prop := 0 ≤ r ≤ 0x10FFFF.

Lemma lor_bounds a b : 0 ≤ a → 0 ≤ b → 0 ≤ Z.lor a b ≤ a + b.
Proof.
  intros Ha Hb. split; [by apply Z.lor_nonneg|].
  pose proof (Z.add_lor_land a b). assert (0 ≤ Z.land a b) by (apply Z.land_nonneg; auto). lia.
Qed.

Lemma land_mask_bounds x n : 0 ≤ n → 0 ≤ Z.land x (Z.ones n) < 2 ^ n.
Proof. intros Hn. rewrite Z.land_ones by done. apply Z.mod_pos_bound. by apply Z.pow_pos_nonneg. Qed.

Lemma decoderune_is_rune s : is_rune (decoderune s).1.
Proof.
  unfold is_rune, decoderune, RuneError.
  destruct s as [|c0 s]; [simpl; lia|].
  pose proof (byte_val_bound c0).
  destruct (Z.ltb_spec (byte_val c0) 0x80); [simpl; lia|].
  destruct (_ && _).
  { destruct s as [|c1 s]; [simpl; lia|]. cbv zeta.
    destruct (_ && _) eqn:E; [|simpl; lia]. cbn [fst].
    apply andb_true_iff in E as [_ E%Z.ltb_lt].
    pose proof (land_mask_bounds (byte_val c0) 5 ltac:(lia)) as H5.
    pose proof (land_mask_bounds (byte_val c1) 6 ltac:(lia)) as H6.
    change (Z.ones 5) with 0x1F in H5. change (Z.ones 6) with 0x3F in H6.
    rewrite Z.shiftl_mul_pow2 in * by lia.
    pose proof (lor_bounds (Z.land (byte_val c0) 31 * 2 ^ 6) (Z.land (byte_val c1) 63)
                  ltac:(lia) ltac:(lia)). lia. }
  destruct (_ && _).
  { destruct s as [|c1 [|c2 s]]; [simpl; lia..|]. cbv zeta.
    destruct (_ && _) eqn:E; [|simpl; lia]. cbn [fst].
    apply andb_true_iff in E as [E _]. apply andb_true_iff in E as [_ E%Z.ltb_lt].
    pose proof (land_mask_bounds (byte_val c0) 4 ltac:(lia)) as H4.
    pose proof (land_mask_bounds (byte_val c1) 6 ltac:(lia)) as H6.
    pose proof (land_mask_bounds (byte_val c2) 6 ltac:(lia)) as H6'.
    change (Z.ones 4) with 0x0F in H4. change (Z.ones 6) with 0x3F in H6, H6'.
    rewrite !Z.shiftl_mul_pow2 in * by lia.
    pose proof (lor_bounds (Z.land (byte_val c0) 15 * 2 ^ 12) (Z.land (byte_val c1) 63 * 2 ^ 6)
                  ltac:(lia) ltac:(lia)).
    pose proof (lor_bounds (Z.lor (Z.land (byte_val c0) 15 * 2 ^ 12)
                                  (Z.land (byte_val c1) 63 * 2 ^ 6))
                           (Z.land (byte_val c2) 63) ltac:(lia) ltac:(lia)). lia. }
  destruct (_ && _); [|simpl; lia].
  destruct s as [|c1 [|c2 [|c3 s]]]; [simpl; lia..|]. cbv zeta.
  destruct (_ && _) eqn:E; [|simpl; lia]. cbn [fst].
  apply andb_true_iff in E as [E E2%Z.leb_le]. apply andb_true_iff in E as [_ E%Z.ltb_lt].
  lia.
Qed.

Lemma range_from_cons skip c s :
  range_from skip (String c s) =
  match skip with
  | S k => range_from k s
  | O => (decoderune (String c s)).1 :: range_from (Nat.pred (decoderune (String c s)).2) s
  end.
Proof. destruct skip; [|done]. cbn [range_from]. by destruct (decoderune (String c s)). Qed.

Lemma range_from_is_rune s : ∀ skip, Forall is_rune (range_from skip s).
Proof.
  induction s as [|c s IH]; intros skip; [constructor|]. rewrite range_from_cons.
  destruct skip; [|apply IH].
  pose proof (decoderune_is_rune (String c s)) as Hr.
  destruct (decoderune (String c s)) as [r w]. constructor; [exact Hr | apply IH].
Qed.

Lemma range_is_rune s : Forall is_rune (range s).
Proof. apply range_from_is_rune. Qed.

(** ** Strings as builders *)

Lemma append_nil_l s : "" +:+ s = s.
Proof. reflexivity. Qed.

Lemma append_cons c s t : String c s +:+ t = String c (s +:+ t).
Proof. reflexivity. Qed.

Lemma append_nil_r s : s +:+ "" = s.
Proof. induction s as [|c s IH]; [done|]. by rewrite append_cons, IH. Qed.

Lemma append_assoc s t u : (s +:+ t) +:+ u = s +:+ (t +:+ u).
Proof. induction s as [|c s IH]; [done|]. by rewrite !append_cons, IH. Qed.

(** What a [strings.Builder] holds after a loop that writes [f r] for every
    [r] of [l]. *)
Lemma builder_loop {A} (f : A → string) (l : list A) : ∀ acc,
  foldl (fun b r => b +:+ f r) acc l = acc +:+ foldr (fun r t => f r +:+ t) "" l.
Proof.
  induction l as [|r l IH]; intros acc; simpl.
  - by rewrite append_nil_r.
  - by rewrite IH, append_assoc.
Qed.

(** ** Escaping one rune *)

Lemma plain_spec c :
  plain c = true ↔
  byte_val c ≠ 92 ∧ byte_val c ≠ 9 ∧ byte_val c ≠ 10 ∧ byte_val c ≠ 13.
Proof.
  destruct c as [[] [] [] [] [] [] [] []]; vm_compute;
    (split; [intros ?; repeat split; congruence | intros (?&?&?&?); congruence]).
Qed.

Lemma encoderune_high r :
  ¬ r mod 2 ^ 32 ≤ 0x7F → all_bytes high (encoderune r) = true.
Proof.
  intros Hr. unfold encoderune. cbv zeta.
  destruct (Z.leb_spec (r mod 2 ^ 32) 0x7F); [done|].
  repeat match goal with |- context [if ?b then _ else _] => destruct b end;
    unfold enc3; rewrite <- !byte_val_to_byte; cbn [all_bytes];
    rewrite ?lead_high, ?cont_high by auto; reflexivity.
Qed.

Lemma encoderune_plain r :
  is_rune r → r ≠ 92 → r ≠ 10 → r ≠ 13 → r ≠ 9 →
  all_bytes plain (encoderune r) = true.
Proof.
  intros Hr H92 H10 H13 H9. unfold is_rune in Hr.
  destruct (Z.le_gt_cases (r mod 2 ^ 32) 0x7F) as [Hle|Hgt].
  - rewrite Z.mod_small in Hle by lia.
    unfold encoderune. cbv zeta. rewrite Z.mod_small by lia.
    destruct (Z.leb_spec r 0x7F); [|lia]. cbn [all_bytes]. rewrite andb_true_r.
    apply plain_spec. rewrite byte_val_to_byte, Z.mod_small by lia. done.
  - eapply all_bytes_impl; [apply high_plain|]. apply encoderune_high. lia.
Qed.

Lemma unescape_plain s rest :
  all_bytes plain s = true →
  unescape (s +:+ rest) = option_map (String.append s) (unescape rest).
Proof.
  induction s as [|c s IH]; intros Hs.
  - rewrite append_nil_l. by destruct (unescape rest).
  - cbn [all_bytes] in Hs. apply andb_true_iff in Hs as [Hc Hs].
    rewrite append_cons. cbn [unescape].
    unfold plain in Hc. apply andb_true_iff in Hc as [Hb Hsep].
    apply negb_true_iff in Hb, Hsep. rewrite Hb, Hsep, IH by done.
    by destruct (unescape rest).
Qed.

Lemma unescape_all_plain s : all_bytes plain s = true → unescape s = Some s.
Proof.
  intros Hs. rewrite <- (append_nil_r s) at 1. rewrite unescape_plain by done.
  cbn. by rewrite append_nil_r.
Qed.

Lemma unescape_backslash e rest :
  unescape (String BACKSLASH (String e rest)) =
  match unescapeChar e with
  | Some c => option_map (String c) (unescape rest)
  | None => None
  end.
Proof. reflexivity. Qed.

Lemma unescape_escapeRune r rest :
  is_rune r →
  unescape (escapeRune r +:+ rest) = option_map (String.append (encoderune r)) (unescape rest).
Proof.
  intros Hr. unfold escapeRune.
  destruct (Z.eqb_spec r 92) as [->|H92];
    [rewrite !append_cons, append_nil_l; apply unescape_backslash|].
  destruct (Z.eqb_spec r 10) as [->|H10];
    [rewrite !append_cons, append_nil_l; apply unescape_backslash|].
  destruct (Z.eqb_spec r 13) as [->|H13];
    [rewrite !append_cons, append_nil_l; apply unescape_backslash|].
  destruct (Z.eqb_spec r 9) as [->|H9];
    [rewrite !append_cons, append_nil_l; apply unescape_backslash|].
  by apply unescape_plain, encoderune_plain.
Qed.

Lemma escapeString_runes s :
  escapeString s = foldr (fun r t => escapeRune r +:+ t) "" (range s).
Proof. unfold escapeString. by rewrite builder_loop. Qed.

Lemma to_valid_utf8_runes s :
  to_valid_utf8 s = foldr (fun r t => encoderune r +:+ t) "" (range s).
Proof. unfold to_valid_utf8. by rewrite builder_loop. Qed.

Lemma unescape_escapeString s : unescape (escapeString s) = Some (to_valid_utf8 s).
Proof.
  rewrite escapeString_runes, to_valid_utf8_runes.
  induction (range_is_rune s) as [|r l Hr _ IH]; [done|].
  cbn [foldr]. rewrite unescape_escapeRune, IH by done. done.
Qed.

(** ** No raw separator in an escaped value *)

Definition not_separator (c : ascii) : bool := negb (is_raw_separator c).

Lemma plain_not_separator c : plain c = true → not_separator c = true.
Proof. unfold plain. by intros [_ ?]%andb_true_iff. Qed.

Lemma escapeRune_clean r : is_rune r → all_bytes not_separator (escapeRune r) = true.
Proof.
  intros Hr. unfold escapeRune.
  destruct (Z.eqb_spec r 92); [done|]. destruct (Z.eqb_spec r 10); [done|].
  destruct (Z.eqb_spec r 13); [done|]. destruct (Z.eqb_spec r 9); [done|].
  eapply all_bytes_impl; [apply plain_not_separator|]. by apply encoderune_plain.
Qed.

Lemma escapeString_clean s : all_bytes not_separator (escapeString s) = true.
Proof.
  rewrite escapeString_runes.
  induction (range_is_rune s) as [|r l Hr _ IH]; [done|].
  cbn [foldr]. by rewrite all_bytes_app, escapeRune_clean, IH.
Qed.

Definition is_hex (c : ascii) : bool :=
  match String.index 0 (String c EmptyString) "0123456789abcdef" with
  | Some _ => true
  | None => false
  end.

Lemma EncodeToString_hex bs : all_bytes is_hex (EncodeToString bs) = true.
Proof.
  induction bs as [|b bs IH]; [done|]. cbn [EncodeToString all_bytes]. rewrite IH.
  by destruct b.
Qed.

Lemma is_hex_plain c : is_hex c = true → plain c = true.
Proof. destruct c as [[] [] [] [] [] [] [] []]; vm_compute; congruence. Qed.

Lemma all_bytes_elem P s c :
  all_bytes P s = true → c ∈ list_ascii_of_string s → P c = true.
Proof.
  induction s as [|c' s IH]; simpl; [inversion 2|].
  intros [? ?]%andb_true_iff [->|?]%elem_of_cons; auto.
Qed.

Lemma EscapeCopyValue_clean v : all_bytes not_separator (EscapeCopyValue v) = true.
Proof.
  destruct v as [|[]|bs|t|s|t|n|t]; cbn [EscapeCopyValue];
    try apply escapeString_clean; try done.
  rewrite all_bytes_app. apply andb_true_iff. split; [done|].
  eapply all_bytes_impl; [|apply EncodeToString_hex].
  intros c Hc. by apply plain_not_separator, is_hex_plain.
Qed.

(** ** Valid UTF-8 *)

Definition is_ascii (c : ascii) : bool := byte_val c <? 0x80.

Lemma to_valid_utf8_ascii c s :
  is_ascii c = true → to_valid_utf8 (String c s) = String c (to_valid_utf8 s).
Proof.
  intros Hc. unfold is_ascii in Hc. rewrite !to_valid_utf8_runes. unfold range.
  rewrite range_from_cons. unfold decoderune. rewrite Hc. cbn [fst snd Nat.pred foldr].
  unfold encoderune. cbv zeta. apply Z.ltb_lt in Hc. pose proof (byte_val_bound c).
  rewrite Z.mod_small by lia. destruct (Z.leb_spec (byte_val c) 0x7F); [|lia].
  by rewrite to_byte_byte_val.
Qed.

Lemma ascii_valid_utf8 s : all_bytes is_ascii s = true → valid_utf8 s.
Proof.
  unfold valid_utf8. induction s as [|c s IH]; [done|]. cbn [all_bytes].
  intros [Hc Hs]%andb_true_iff. rewrite to_valid_utf8_ascii by done. by rewrite IH.
Qed.

Lemma pretty_N_go_ascii x : ∀ s,
  all_bytes is_ascii s = true → all_bytes is_ascii (pretty_N_go x s) = true.
Proof.
  induction (N.lt_wf_0 x) as [x _ IH]; intros s Hs.
  destruct (decide (x = 0)%N) as [->|Hx]; [by rewrite pretty_N_go_0|].
  rewrite pretty_N_go_step by lia. apply IH; [apply N.div_lt; lia|].
  cbn [all_bytes]. rewrite Hs, andb_true_r.
  unfold pretty_N_char. by repeat case_match.
Qed.

Lemma itoa_ascii n : all_bytes is_ascii (itoa n) = true.
Proof.
  assert (∀ p : positive, all_bytes is_ascii (pretty p) = true) as Hpos.
  { intros p. unfold pretty, pretty_positive, pretty, pretty_N.
    destruct (decide _); [done|]. by apply pretty_N_go_ascii. }
  unfold itoa, pretty, pretty_Z. destruct n as [|p|p]; [done|apply Hpos|].
  rewrite all_bytes_app. by rewrite Hpos.
Qed.

Lemma hex_ascii c : is_hex c = true → is_ascii c = true.
Proof. destruct c as [[] [] [] [] [] [] [] []]; vm_compute; congruence. Qed.

(** ** Decoding what [EscapeCopyValue] emits *)

Lemma decodeField_escapeString s :
  decodeField (escapeString s) = Some (Some (to_valid_utf8 s)).
Proof.
  unfold decodeField. destruct (String.eqb_spec (escapeString s) "\N") as [Heq|_].
  - pose proof (unescape_escapeString s) as H. rewrite Heq in H. discriminate.
  - by rewrite unescape_escapeString.
Qed.

Lemma decodeField_bytes bs :
  decodeField (EscapeCopyValue (VBytes bs)) = Some (Some ("\x" +:+ EncodeToString bs)).
Proof.
  cbn [EscapeCopyValue]. unfold decodeField. rewrite !append_cons, append_nil_l.
  change (String.eqb _ _) with false. cbv iota. rewrite unescape_backslash.
  cbn [unescapeChar Ascii.eqb Bool.eqb BACKSLASH option_map].
  change (String "x" (EncodeToString bs)) with ("x" +:+ EncodeToString bs).
  rewrite unescape_all_plain; [done|].
  rewrite all_bytes_app. apply andb_true_iff. split; [done|].
  eapply all_bytes_impl; [apply is_hex_plain|apply EncodeToString_hex].
Qed.

(** ** UTF-8: decoding what was encoded *)

(** A Unicode scalar value: a code point that is no surrogate. *)
Definition is_scalar (r : rune) : Prop :=
  0 ≤ r ≤ 0x10FFFF ∧ ¬ (0xD800 ≤ r ≤ 0xDFFF).

(** [string(rs)]: the UTF-8 encoding of a sequence of runes. *)
Definition utf8_of (rs : list rune) : string :=
  foldl (fun b r => b +:+ encoderune r) "" rs.

Ltac dlia := Z.div_mod_to_equations; lia.

Lemma lor_disjoint a b n :
  0 ≤ n → a mod 2 ^ n = 0 → 0 ≤ b < 2 ^ n → Z.lor a b = a + b.
Proof.
  intros Hn Ha Hb. pose proof (Z.add_lor_land a b) as H.
  assert (Z.land a b = 0) as H0; [|lia].
  apply Z.bits_inj'. intros m Hm. rewrite Z.land_spec, Z.bits_0.
  destruct (Z.lt_ge_cases m n).
  - rewrite <- (Z.mod_pow2_bits_low a n m) by lia. by rewrite Ha, Z.bits_0.
  - rewrite <- (Z.mod_small b (2 ^ n)) by lia.
    rewrite (Z.mod_pow2_bits_high b n m) by lia. apply andb_false_r.
Qed.

Lemma land_low x n : 0 ≤ n → Z.land x (Z.ones n) = x mod 2 ^ n.
Proof. intros Hn. by rewrite Z.land_ones. Qed.

Lemma lead2 x : 0 ≤ x < 32 → Z.lor 0xC0 (x mod 256) mod 256 = 192 + x.
Proof.
  intros Hx. rewrite (Z.mod_small x) by lia.
  rewrite (lor_disjoint 192 x 5 ltac:(lia) eq_refl ltac:(change (2 ^ 5) with 32; lia)). apply Z.mod_small. lia.
Qed.

Lemma lead3 x : 0 ≤ x < 16 → Z.lor 0xE0 (x mod 256) mod 256 = 224 + x.
Proof.
  intros Hx. rewrite (Z.mod_small x) by lia.
  rewrite (lor_disjoint 224 x 4 ltac:(lia) eq_refl ltac:(change (2 ^ 4) with 16; lia)). apply Z.mod_small. lia.
Qed.

Lemma lead4 x : 0 ≤ x < 8 → Z.lor 0xF0 (x mod 256) mod 256 = 240 + x.
Proof.
  intros Hx. rewrite (Z.mod_small x) by lia.
  rewrite (lor_disjoint 240 x 3 ltac:(lia) eq_refl ltac:(change (2 ^ 3) with 8; lia)). apply Z.mod_small. lia.
Qed.

Lemma cont_enc v : Z.lor 0x80 (Z.land (v mod 256) 0x3F) mod 256 = 128 + v mod 64.
Proof.
  change 0x3F with (Z.ones 6). rewrite land_low by lia. change (2 ^ 6) with 64.
  assert ((v mod 256) mod 64 = v mod 64) as -> by dlia.
  rewrite (lor_disjoint 128 (v mod 64) 6 ltac:(lia) eq_refl ltac:(change (2 ^ 6) with 64; dlia)). apply Z.mod_small. dlia.
Qed.

Lemma cont_dec y : 0 ≤ y < 64 → Z.land (128 + y) 0x3F = y.
Proof.
  intros Hy. change 0x3F with (Z.ones 6). rewrite land_low by lia.
  change (2 ^ 6) with 64. dlia.
Qed.

Lemma lead2_dec x : 0 ≤ x < 32 → Z.land (192 + x) 0x1F = x.
Proof.
  intros Hx. change 0x1F with (Z.ones 5). rewrite land_low by lia.
  change (2 ^ 5) with 32. dlia.
Qed.

Lemma lead3_dec x : 0 ≤ x < 16 → Z.land (224 + x) 0x0F = x.
Proof.
  intros Hx. change 0x0F with (Z.ones 4). rewrite land_low by lia.
  change (2 ^ 4) with 16. dlia.
Qed.

Lemma lead4_dec x : 0 ≤ x < 8 → Z.land (240 + x) 0x07 = x.
Proof.
  intros Hx. change 0x07 with (Z.ones 3). rewrite land_low by lia.
  change (2 ^ 3) with 8. dlia.
Qed.

Lemma is_cont_enc y : 0 ≤ y < 64 → is_cont (128 + y) = true.
Proof. intros Hy. unfold is_cont. apply andb_true_iff. split; apply Z.leb_le; lia. Qed.

(** Gluing bit fields: [hi << n | lo]. *)
Lemma glue hi lo n : 0 ≤ n → 0 ≤ lo < 2 ^ n → Z.lor (Z.shiftl hi n) lo = hi * 2 ^ n + lo.
Proof.
  intros Hn Hlo. rewrite Z.shiftl_mul_pow2 by done.
  apply (lor_disjoint _ _ n); [done| |done]. apply Z.mod_mul. lia.
Qed.

Lemma uint32_small r : 0 ≤ r < 2 ^ 32 → r mod 2 ^ 32 = r.
Proof. intros. by apply Z.mod_small. Qed.

Lemma range_enc1 r rest :
  0 ≤ r ≤ 0x7F → range (encoderune r +:+ rest) = r :: range rest.
Proof.
  intros Hr. unfold encoderune. cbv zeta. rewrite uint32_small by lia.
  destruct (Z.leb_spec r 0x7F); [|lia]. rewrite append_cons, append_nil_l.
  unfold range. rewrite range_from_cons. unfold decoderune.
  rewrite byte_val_to_byte, Z.mod_small by lia.
  destruct (Z.ltb_spec r 0x80); [|lia]. reflexivity.
Qed.

Ltac settle b v :=
  let E := fresh in
  assert (b = v) as E
    by (rewrite ?andb_true_iff, ?andb_false_iff, ?Z.leb_le, ?Z.ltb_lt, ?Z.leb_gt, ?Z.ltb_ge;
        dlia);
  rewrite E; clear E.

Lemma range_enc2 r rest :
  0x80 ≤ r ≤ 0x7FF → range (encoderune r +:+ rest) = r :: range rest.
Proof.
  intros Hr. unfold encoderune. cbv zeta. rewrite uint32_small by lia.
  destruct (Z.leb_spec r 0x7F); [lia|]. destruct (Z.leb_spec r 0x7FF); [|lia].
  rewrite !append_cons, append_nil_l.
  unfold range. rewrite range_from_cons. unfold decoderune. cbv zeta.
  rewrite !byte_val_to_byte. rewrite Z.shiftr_div_pow2 by lia. change (2 ^ 6) with 64.
  rewrite lead2, cont_enc by dlia.
  settle (192 + r / 64 <? 0x80) false.
  settle ((0xC0 <=? 192 + r / 64) && (192 + r / 64 <? 0xE0)) true.
  rewrite lead2_dec, cont_dec, is_cont_enc by dlia.
  rewrite glue by (change (2 ^ 6) with 64; dlia). change (2 ^ 6) with 64.
  replace (r / 64 * 64 + r mod 64) with r by dlia.
  settle (0x7F <? r) true. reflexivity.
Qed.

Lemma range_enc3 r rest :
  0x800 ≤ r ≤ 0xFFFF → ¬ (0xD800 ≤ r ≤ 0xDFFF) →
  range (encoderune r +:+ rest) = r :: range rest.
Proof.
  intros Hr Hs. unfold encoderune. cbv zeta. rewrite uint32_small by lia.
  destruct (Z.leb_spec r 0x7F); [lia|]. destruct (Z.leb_spec r 0x7FF); [lia|].
  destruct (Z.ltb_spec 0x10FFFF r); [lia|]. cbn [orb].
  settle ((0xD800 <=? r) && (r <=? 0xDFFF)) false.
  destruct (Z.leb_spec r 0xFFFF); [|lia]. unfold enc3.
  rewrite !append_cons, append_nil_l.
  unfold range. rewrite range_from_cons. unfold decoderune. cbv zeta.
  rewrite !byte_val_to_byte. rewrite !Z.shiftr_div_pow2 by lia.
  change (2 ^ 6) with 64. change (2 ^ 12) with 4096.
  rewrite lead3, !cont_enc by dlia.
  settle (224 + r / 4096 <? 0x80) false.
  settle ((0xC0 <=? 224 + r / 4096) && (224 + r / 4096 <? 0xE0)) false.
  settle ((0xE0 <=? 224 + r / 4096) && (224 + r / 4096 <? 0xF0)) true.
  rewrite lead3_dec, !cont_dec, !is_cont_enc by dlia.
  rewrite (glue _ (Z.shiftl _ 6) 12)
    by (rewrite ?Z.shiftl_mul_pow2 by lia; change (2 ^ 12) with 4096;
        change (2 ^ 6) with 64; dlia).
  rewrite Z.shiftl_mul_pow2 by lia. change (2 ^ 12) with 4096. change (2 ^ 6) with 64.
  replace (r / 4096 * 4096 + r / 64 mod 64 * 64) with (r / 64 * 2 ^ 6)
    by (change (2 ^ 6) with 64; dlia).
  rewrite <- (Z.shiftl_mul_pow2 _ 6) by lia.
  rewrite glue by (change (2 ^ 6) with 64; dlia). change (2 ^ 6) with 64.
  replace (r / 64 * 64 + r mod 64) with r by dlia.
  settle (0x7FF <? r) true. settle ((0xD800 <=? r) && (r <=? 0xDFFF)) false.
  reflexivity.
Qed.

Lemma range_enc4 r rest :
  0x10000 ≤ r ≤ 0x10FFFF → range (encoderune r +:+ rest) = r :: range rest.
Proof.
  intros Hr. unfold encoderune. cbv zeta. rewrite uint32_small by lia.
  destruct (Z.leb_spec r 0x7F); [lia|]. destruct (Z.leb_spec r 0x7FF); [lia|].
  destruct (Z.ltb_spec 0x10FFFF r); [lia|]. cbn [orb].
  settle ((0xD800 <=? r) && (r <=? 0xDFFF)) false.
  destruct (Z.leb_spec r 0xFFFF); [lia|].
  rewrite !append_cons, append_nil_l.
  unfold range. rewrite range_from_cons. unfold decoderune. cbv zeta.
  rewrite !byte_val_to_byte. rewrite !Z.shiftr_div_pow2 by lia.
  change (2 ^ 6) with 64. change (2 ^ 12) with 4096. change (2 ^ 18) with 262144.
  rewrite lead4, !cont_enc by dlia.
  settle (240 + r / 262144 <? 0x80) false.
  settle ((0xC0 <=? 240 + r / 262144) && (240 + r / 262144 <? 0xE0)) false.
  settle ((0xE0 <=? 240 + r / 262144) && (240 + r / 262144 <? 0xF0)) false.
  settle ((0xF0 <=? 240 + r / 262144) && (240 + r / 262144 <? 0xF8)) true.
  rewrite lead4_dec, !cont_dec, !is_cont_enc by dlia.
  rewrite (glue _ (Z.shiftl _ 12) 18)
    by (rewrite ?Z.shiftl_mul_pow2 by lia; change (2 ^ 12) with 4096;
        change (2 ^ 18) with 262144; dlia).
  rewrite (Z.shiftl_mul_pow2 _ 12) by lia.
  change (2 ^ 12) with 4096. change (2 ^ 18) with 262144.
  replace (r / 262144 * 262144 + r / 4096 mod 64 * 4096) with (r / 4096 * 2 ^ 12)
    by (change (2 ^ 12) with 4096; dlia).
  rewrite <- (Z.shiftl_mul_pow2 _ 12) by lia.
  rewrite (glue _ (Z.shiftl _ 6) 12)
    by (rewrite ?Z.shiftl_mul_pow2 by lia; change (2 ^ 12) with 4096;
        change (2 ^ 6) with 64; dlia).
  rewrite (Z.shiftl_mul_pow2 _ 6) by lia. change (2 ^ 12) with 4096. change (2 ^ 6) with 64.
  replace (r / 4096 * 4096 + r / 64 mod 64 * 64) with (r / 64 * 2 ^ 6)
    by (change (2 ^ 6) with 64; dlia).
  rewrite <- (Z.shiftl_mul_pow2 _ 6) by lia.
  rewrite glue by (change (2 ^ 6) with 64; dlia). change (2 ^ 6) with 64.
  replace (r / 64 * 64 + r mod 64) with r by dlia.
  settle (0xFFFF <? r) true. settle (r <=? 0x10FFFF) true.
  reflexivity.
Qed.

Lemma range_encoderune r rest :
  is_scalar r → range (encoderune r +:+ rest) = r :: range rest.
Proof.
  intros [Hr Hs].
  destruct (Z.le_gt_cases r 0x7F); [apply range_enc1; lia|].
  destruct (Z.le_gt_cases r 0x7FF); [apply range_enc2; lia|].
  destruct (Z.le_gt_cases r 0xFFFF); [apply range_enc3; lia|].
  apply range_enc4; lia.
Qed.

Lemma utf8_of_cons r rs : utf8_of (r :: rs) = encoderune r +:+ utf8_of rs.
Proof.
  unfold utf8_of. cbn [foldl]. rewrite !builder_loop. reflexivity.
Qed.

(** Decoding the encoding of scalar values gives them back. *)
Lemma range_utf8_of rs : Forall is_scalar rs → range (utf8_of rs) = rs.
Proof.
  induction 1 as [|r rs Hr _ IH]; [done|].
  by rewrite utf8_of_cons, range_encoderune, IH.
Qed.

Lemma utf8_of_valid rs : Forall is_scalar rs → valid_utf8 (utf8_of rs).
Proof.
  intros Hrs. unfold valid_utf8, to_valid_utf8. rewrite range_utf8_of by done. done.
Qed.

Lemma decoderune_is_scalar s : is_scalar (decoderune s).1.
Proof.
  split; [apply decoderune_is_rune|].
  unfold decoderune, RuneError.
  destruct s as [|c0 s]; [simpl; lia|].
  pose proof (byte_val_bound c0).
  destruct (Z.ltb_spec (byte_val c0) 0x80); [simpl; lia|].
  destruct (_ && _).
  { destruct s as [|c1 s]; [simpl; lia|]. cbv zeta.
    destruct (_ && _) eqn:E; [|simpl; lia]. cbn [fst].
    pose proof (land_mask_bounds (byte_val c0) 5 ltac:(lia)) as H5.
    pose proof (land_mask_bounds (byte_val c1) 6 ltac:(lia)) as H6.
    change (Z.ones 5) with 0x1F in H5. change (Z.ones 6) with 0x3F in H6.
    rewrite Z.shiftl_mul_pow2 in * by lia.
    pose proof (lor_bounds (Z.land (byte_val c0) 31 * 2 ^ 6) (Z.land (byte_val c1) 63)
                  ltac:(lia) ltac:(lia)). lia. }
  destruct (_ && _).
  { destruct s as [|c1 [|c2 s]]; [simpl; lia..|]. cbv zeta.
    destruct (_ && _) eqn:E; [|simpl; lia]. cbn [fst].
    apply andb_true_iff in E as [_ E]. apply negb_true_iff, andb_false_iff in E.
    rewrite Z.leb_gt, Z.leb_gt in E. lia. }
  destruct (_ && _); [|simpl; lia].
  destruct s as [|c1 [|c2 [|c3 s]]]; [simpl; lia..|]. cbv zeta.
  destruct (_ && _) eqn:E; [|simpl; lia]. cbn [fst].
  apply andb_true_iff in E as [E E2%Z.leb_le]. apply andb_true_iff in E as [_ E%Z.ltb_lt].
  lia.
Qed.

Lemma range_from_is_scalar s : ∀ skip, Forall is_scalar (range_from skip s).
Proof.
  induction s as [|c s IH]; intros skip; [constructor|]. rewrite range_from_cons.
  destruct skip; [|apply IH].
  constructor; [apply decoderune_is_scalar | apply IH].
Qed.

(** A string is valid UTF-8 exactly when it is the encoding of a sequence
    of scalar values. *)
Lemma valid_utf8_iff s :
  valid_utf8 s ↔ ∃ rs, Forall is_scalar rs ∧ s = utf8_of rs.
Proof.
  split.
  - intros Hs. exists (range s). split; [apply range_from_is_scalar|].
    symmetry. exact Hs.
  - intros (rs & Hrs & ->). by apply utf8_of_valid.
Qed.

(** What [to_valid_utf8] returns is valid UTF-8. *)
Lemma to_valid_utf8_valid s : valid_utf8 (to_valid_utf8 s).
Proof. apply valid_utf8_iff. exists (range s). split; [apply range_from_is_scalar|done]. Qed.

(* ================================================================== *)
(** * Child queries                                                    *)
(* ================================================================== *)

(** ** The query builder *)

(** The placeholders [$start], [$start+1], ... of [k] consecutive arguments. *)
Definition placeholders (k : nat) (start : Z) : list string :=
  map (fun j => placeholder (start + Z.of_nat j)) (seq 0 k).

(** The values bound for one tuple of a [k]-column key: [pk[j]] at position
    [j], nil where the tuple is too short. *)
Definition tupleBinds (k : nat) (pk : list value) : list value :=
  map (fun j => default VNil (pk !! j)) (seq 0 k).

Lemma capPKs_take pks : capPKs pks = take (Z.to_nat 10000) pks.
Proof.
  unfold capPKs. destruct (Z.ltb_spec 10000 (Z.of_nat (length pks))); [done|].
  symmetry. apply take_ge. lia.
Qed.

Lemma capPKs_small pks : (length pks ≤ Z.to_nat 10000)%nat → capPKs pks = pks.
Proof. intros H. rewrite capPKs_take. by apply take_ge. Qed.

Lemma capPKs_length pks : length (capPKs pks) = Nat.min (Z.to_nat 10000) (length pks).
Proof. by rewrite capPKs_take, length_take. Qed.

Lemma seq_S_shift (n : nat) : seq 0 (S n) = 0%nat :: map S (seq 0 n).
Proof. simpl. by rewrite seq_shift. Qed.

Lemma tupleLoop_spec cols : ∀ j pk argIdx,
  tupleLoop cols j pk argIdx =
  (placeholders (length cols) argIdx,
   map (fun i => default VNil (pk !! (j + i)%nat)) (seq 0 (length cols)),
   argIdx + Z.of_nat (length cols)).
Proof.
  unfold placeholders.
  induction cols as [|c cols IH]; intros j pk argIdx.
  - simpl. f_equal. lia.
  - cbn [tupleLoop length]. rewrite IH, !seq_S_shift. cbn [map].
    rewrite !map_map. f_equal; [f_equal|lia].
    + f_equal; [f_equal; lia|]. apply map_ext. intros i. f_equal. lia.
    + f_equal; [by rewrite Nat.add_0_r|]. apply map_ext. intros i. do 2 f_equal. lia.
Qed.

Lemma tupleLoop_binds cols pk argIdx :
  (tupleLoop cols 0 pk argIdx).1.2 = tupleBinds (length cols) pk.
Proof. by rewrite tupleLoop_spec. Qed.

(** The text of the [i]-th tuple of a composite condition. *)
Definition tupleText (k : nat) (argIdx : Z) (i : nat) : string :=
  "(" +:+ Join (placeholders k (argIdx + Z.of_nat (i * k))) ", " +:+ ")".

Lemma compositeLoop_spec cols pks : ∀ argIdx,
  compositeLoop cols pks argIdx =
  (map (tupleText (length cols) argIdx) (seq 0 (length pks)),
   concat (map (tupleBinds (length cols)) pks),
   argIdx + Z.of_nat (length cols * length pks)).
Proof.
  induction pks as [|pk pks IH]; intros argIdx.
  - simpl. f_equal. lia.
  - cbn [compositeLoop]. rewrite tupleLoop_spec, IH. cbn [length].
    rewrite seq_S_shift. cbn [map concat]. rewrite map_map.
    f_equal; [f_equal|rewrite Nat.mul_succ_r; lia].
    f_equal.
    + unfold tupleText. do 4 f_equal. simpl. lia.
    + apply map_ext. intros i. unfold tupleText. do 4 f_equal.
      change (S i * length cols)%nat with (length cols + i * length cols)%nat. lia.
Qed.

Lemma singleLoop_spec pks : ∀ argIdx phs args next,
  singleLoop pks argIdx = Some (phs, args, next) →
  phs = placeholders (length pks) argIdx ∧
  map Some args = map head pks ∧
  next = argIdx + Z.of_nat (length pks).
Proof.
  unfold placeholders.
  induction pks as [|pk pks IH]; intros argIdx phs args next H.
  - injection H as <- <- <-. repeat split. simpl. lia.
  - cbn [singleLoop] in H. destruct (head pk) as [v|] eqn:Hv; [|done].
    destruct (singleLoop pks (argIdx + 1)) as [[[phs' args'] next']|] eqn:Hrec; [|done].
    injection H as <- <- <-. destruct (IH _ _ _ _ Hrec) as (-> & Hargs & ->).
    cbn [length]. rewrite seq_S_shift. cbn [map]. rewrite map_map, Hargs, Hv.
    repeat split; [|lia]. f_equal; [f_equal; lia|]. apply map_ext. intros i. f_equal. lia.
Qed.

Lemma singleLoop_total pks : ∀ argIdx,
  Forall (fun pk => pk ≠ []) pks → is_Some (singleLoop pks argIdx).
Proof.
  induction pks as [|pk pks IH]; intros argIdx Hne; [by eexists|].
  apply Forall_cons in Hne as [Hpk Hne]. cbn [singleLoop].
  destruct pk as [|v pk]; [done|]. simpl.
  destruct (IH (argIdx + 1) Hne) as [[[phs args] next] ->]. by eexists.
Qed.

Lemma colMap_lookup (cols : list Column) : ∀ (m0 : gmap string Column) name c,
  NoDup (map col_Name cols) →
  foldl (fun m c => <[col_Name c := c]> m) m0 cols !! name = Some c ↔
  (c ∈ cols ∧ col_Name c = name) ∨ (m0 !! name = Some c ∧ name ∉ map col_Name cols).
Proof.
  induction cols as [|x cols IH]; intros m0 name c Hnd.
  - simpl. split; [intros ?; right; split; [done|inversion 1]|].
    intros [[H _]|[? _]]; [inversion H|done].
  - cbn [foldl map] in *. apply NoDup_cons in Hnd as [Hx Hnd].
    rewrite IH by done. rewrite lookup_insert, elem_of_cons, not_elem_of_cons.
    destruct (decide (col_Name x = name)) as [<-|Hne].
    + split.
      * intros [[Hc Hn]|[[= <-] _]]; [|by left; split; [left|]].
        exfalso. apply Hx. rewrite <- Hn. apply list_elem_of_fmap. by exists c.
      * intros [[[->|Hc] Hn]|[_ [? _]]]; [|exfalso|done].
        -- right. split; [done|]. apply Hx.
        -- apply Hx. rewrite <- Hn. apply list_elem_of_fmap. by exists c.
    + split.
      * intros [[Hc Hn]|[Hm Hn]]; [left; split; [by right|done]|right; done].
      * intros [[[->|Hc] Hn]|[Hm [_ Hn]]]; [done|by left|by right].
Qed.

Lemma isFKNullable_spec table fk :
  NoDup (ColumnNames table) →
  isFKNullable table fk = true ↔
  ∃ col, col ∈ Columns table ∧ col_Name col ∈ ChildColumns fk ∧ col_Nullable col = true.
Proof.
  intros Hnd. unfold isFKNullable. rewrite existsb_exists. split.
  - intros (name & Hin & Hcol).
    destruct (foldl _ _ _ !! name) as [col|] eqn:Hl; [|done].
    apply colMap_lookup in Hl as [[Hc Hn]|[He _]]; [|by rewrite lookup_empty in He|done].
    exists col. rewrite Hn. split; [done|]. split; [by apply list_elem_of_In|done].
  - intros (col & Hc & Hin & Hnull). exists (col_Name col).
    split; [by apply list_elem_of_In|].
    assert (foldl (fun m c => <[col_Name c := c]> m) (∅ : gmap string Column)
              (Columns table) !! col_Name col = Some col) as ->; [|done].
    apply colMap_lookup; [done|]. by left.
Qed.

(** The conjunction of the null checks of a composite key. *)
Definition nullChecks (cols : list string) : string :=
  Join (map (fun c => c +:+ " IS NULL") cols) " AND ".

(** C4. For a foreign key that is no self-reference and whose parent has
    collected keys: the key counts as nullable exactly when one of its child
    columns is a nullable column of the table; the condition of a
    one-column key is then [(cond OR col IS NULL)], that of any other key
    [(cond OR (c1 IS NULL AND c2 IS NULL ...))] over all child columns, and
    without a nullable column the condition is [cond] itself. *)
Theorem nullable_fk_wrapping table parentPKs fk argIdx pk pks :
  NoDup (ColumnNames table) →
  IsSelfRef fk = false →
  parentPKs !! (ParentSchema fk +:+ "." +:+ ParentTable fk) = Some (pk :: pks) →
  (isFKNullable table fk = true ↔
     ∃ col, col ∈ Columns table ∧ col_Name col ∈ ChildColumns fk ∧ col_Nullable col = true)
  ∧ (∀ col, ChildColumns fk = [col] →
       fkCondition table parentPKs fk argIdx =
       match buildSingleColumnIN fk (pk :: pks) false argIdx with
       | Some (cond, args, next) =>
         Some (Some (if isFKNullable table fk
                     then "(" +:+ cond +:+ " OR " +:+ col +:+ " IS NULL)"
                     else cond, args, next))
       | None => None
       end)
  ∧ (length (ChildColumns fk) ≠ 1%nat →
       fkCondition table parentPKs fk argIdx =
       let '(cond, args, next) := buildCompositeIN fk (pk :: pks) false argIdx in
       Some (Some (if isFKNullable table fk
                   then "(" +:+ cond +:+ " OR (" +:+ nullChecks (ChildColumns fk) +:+ "))"
                   else cond, args, next))).
Proof.
  intros Hnd Hself Hpks. split; [by apply isFKNullable_spec|]. split.
  - intros col Hcol. unfold fkCondition. rewrite Hself, Hpks, Hcol. cbn [length Nat.eqb].
    unfold buildSingleColumnIN. rewrite Hcol. cbn [head].
    destruct (singleLoop _ _) as [[[phs args] next]|]; [|done].
    by destruct (isFKNullable table fk).
  - intros Hlen. unfold fkCondition. rewrite Hself, Hpks.
    destruct (Nat.eqb_spec (length (ChildColumns fk)) 1); [done|].
    unfold buildCompositeIN, nullChecks.
    destruct (compositeLoop _ _ _) as [[tuples args] next].
    by destruct (isFKNullable table fk).
Qed.

(** C5. The condition of a composite key is [(c1, c2, ...) IN (t0, t1, ...)]
    with one tuple of placeholders for each of the first 10,000 collected
    parent tuples (all of them when there are no more), numbered from
    [argIdx] on; the value bound at position [j] of a tuple is [pk[j]], or nil
    when the parent tuple has no position [j]. *)
Theorem composite_fk_condition fk pks argIdx :
  let k := length (ChildColumns fk) in
  let used := take (Z.to_nat 10000) pks in
  buildCompositeIN fk pks false argIdx =
    ("(" +:+ Join (ChildColumns fk) ", " +:+ ") IN ("
       +:+ Join (map (tupleText k argIdx) (seq 0 (length used))) ", " +:+ ")",
     concat (map (tupleBinds k) used),
     argIdx + Z.of_nat (k * length used))
  ∧ (Z.of_nat (length pks) ≤ 10000 → used = pks)
  ∧ (∀ pk j, (j < k)%nat → tupleBinds k pk !! j = Some (default VNil (pk !! j))).
Proof.
  intros k used. split; [|split].
  - unfold buildCompositeIN. by rewrite compositeLoop_spec, capPKs_take.
  - intros Hle. apply take_ge. lia.
  - intros pk j Hj. unfold tupleBinds. rewrite list_lookup_fmap, lookup_seq_lt by done. done.
Qed.

(** C8. Both builders give the same result for a list of parent tuples and for
    its first 10,000 entries; a list of at most 10,000 is used whole; the
    bound values are the first elements of those tuples (one column) or
    their padded tuples (composite), and the next argument index counts
    exactly them. *)
Theorem value_set_cap fk pks nullable argIdx :
  let k := length (ChildColumns fk) in
  let used := take (Z.to_nat 10000) pks in
  buildSingleColumnIN fk pks nullable argIdx = buildSingleColumnIN fk used nullable argIdx
  ∧ buildCompositeIN fk pks nullable argIdx = buildCompositeIN fk used nullable argIdx
  ∧ Z.of_nat (length used) = Z.min 10000 (Z.of_nat (length pks))
  ∧ (Z.of_nat (length pks) ≤ 10000 → used = pks)
  ∧ (∀ cond args next,
       buildSingleColumnIN fk pks nullable argIdx = Some (cond, args, next) →
       map Some args = map head used ∧ next = argIdx + Z.of_nat (length used))
  ∧ (ChildColumns fk ≠ [] → Forall (fun pk => pk ≠ []) used →
       is_Some (buildSingleColumnIN fk pks nullable argIdx))
  ∧ (buildCompositeIN fk pks nullable argIdx).1.2 = concat (map (tupleBinds k) used)
  ∧ (buildCompositeIN fk pks nullable argIdx).2 = argIdx + Z.of_nat (k * length used).
Proof.
  intros k used.
  assert (Hidem : capPKs used = capPKs pks).
  { unfold used. rewrite !capPKs_take, take_take. f_equal; lia. }
  split; [unfold buildSingleColumnIN; by rewrite Hidem|].
  split; [unfold buildCompositeIN; by rewrite Hidem|].
  split; [unfold used; rewrite length_take; lia|].
  split; [intros Hle; apply take_ge; lia|].
  split; [|split; [|split]].
  - intros cond args next H.
    unfold buildSingleColumnIN in H. destruct (head (ChildColumns fk)); [|done].
    destruct (singleLoop (capPKs pks) argIdx) as [[[phs args'] next']|] eqn:Hl; [|done].
    injection H as _ <- <-. apply singleLoop_spec in Hl as (_ & Hargs & ->).
    by rewrite Hargs, capPKs_take.
  - intros Hcols Hne.
    unfold buildSingleColumnIN. destruct (ChildColumns fk) as [|col cols]; [done|].
    rewrite capPKs_take. fold used. cbn [head].
    destruct (singleLoop_total used argIdx Hne) as [[[phs args] next] ->]. by eexists.
  - unfold buildCompositeIN. rewrite compositeLoop_spec, capPKs_take.
    by destruct nullable.
  - unfold buildCompositeIN. rewrite compositeLoop_spec, capPKs_take.
    by destruct nullable.
Qed.

(** ** Virtual relations *)

Definition withVirtual (fk : ForeignKey) (kind : VirtualType) (path : string) : ForeignKey :=
  {| Name := Name fk; ChildSchema := ChildSchema fk; ChildTable := ChildTable fk;
     ChildColumns := ChildColumns fk; ParentSchema := ParentSchema fk;
     ParentTable := ParentTable fk; ParentColumns := ParentColumns fk;
     IsSelfRef := IsSelfRef fk; Virtual := kind; JSONPath := path |}.

Definition intColumn (name : string) (nullable : bool) (pos : Z) : Column :=
  {| col_Name := name; col_DataType := "int4"; col_Nullable := nullable; col_OrdPos := pos |}.

(** Scenario 6 of the specification: [events.meta->>'user_id'] refers to
    [users.id], declared as a virtual relation of kind json. *)
Definition events_users_fk : ForeignKey :=
  {| Name := "virtual_events_meta_users"; ChildSchema := "public"; ChildTable := "events";
     ChildColumns := ["meta"]; ParentSchema := "public"; ParentTable := "users";
     ParentColumns := ["id"]; IsSelfRef := false;
     Virtual := VirtualJSON; JSONPath := "user_id" |}.

Definition events_table : Table :=
  {| tbl_Schema := "public"; tbl_Name := "events";
     Columns := [intColumn "id" false 1;
                 {| col_Name := "meta"; col_DataType := "jsonb";
                    col_Nullable := false; col_OrdPos := 2 |}];
     PrimaryKey_of := Some {| pk_Columns := ["id"] |};
     ForeignKeys := [events_users_fk] |}.

Definition users_collected : gmap string (list (list value)) :=
  {[ "public.users" := [[VInt 1]; [VInt 2]; [VInt 5]] ]}.

(** C2. What the code does for a virtual relation of kind json: the query
    builder never reads [Virtual] or [JSONPath], so the condition is the
    plain [col IN ($1, ...)] and no [col->>'path'] is built. Scenario 6 of the
    specification evaluates to [meta IN ($1, $2, $3)]. *)
Theorem json_virtual_fk_uses_plain_IN :
  buildChildQuery events_table users_collected =
    Some ("SELECT * FROM public.events WHERE meta IN ($1, $2, $3)",
          [VInt 1; VInt 2; VInt 5])
  ∧ ∀ table parentPKs fk argIdx kind path,
      fkCondition table parentPKs (withVirtual fk kind path) argIdx
      = fkCondition table parentPKs fk argIdx.
Proof.
  split; [by vm_compute|].
  intros table parentPKs fk argIdx kind path. by destruct fk.
Qed.

(** Scenario 3 of the specification. *)
Definition order_lines_fk : ForeignKey :=
  {| Name := "order_lines_order_fk"; ChildSchema := "public"; ChildTable := "order_lines";
     ChildColumns := ["tenant_id"; "order_no"]; ParentSchema := "public";
     ParentTable := "orders"; ParentColumns := ["tenant_id"; "order_no"];
     IsSelfRef := false; Virtual := VirtualNone; JSONPath := "" |}.

Definition order_lines_table : Table :=
  {| tbl_Schema := "public"; tbl_Name := "order_lines";
     Columns := [intColumn "tenant_id" false 1; intColumn "order_no" false 2;
                 intColumn "line_no" false 3];
     PrimaryKey_of := None;
     ForeignKeys := [order_lines_fk] |}.

Definition orders_collected : gmap string (list (list value)) :=
  {[ "public.orders" := [[VInt 1; VInt 100]; [VInt 1; VInt 101]; [VInt 2; VInt 200]] ]}.

Example order_lines_query :
  buildChildQuery order_lines_table orders_collected =
    Some ("SELECT * FROM public.order_lines WHERE (tenant_id, order_no) IN (($1, $2), ($3, $4), ($5, $6))",
          [VInt 1; VInt 100; VInt 1; VInt 101; VInt 2; VInt 200]).
Proof. by vm_compute. Qed.

(** With 10,001 collected parent tuples the condition has 10,000 tuples. *)
Definition many_orders : list (list value) :=
  replicate (Z.to_nat 10001) [VInt 1; VInt 2].

Lemma tupleBinds_total_length k (l : list (list value)) :
  length (concat (map (tupleBinds k) l)) = (k * length l)%nat.
Proof.
  induction l as [|x l IH]; cbn [map concat length]; [lia|].
  rewrite length_app, IH. unfold tupleBinds. rewrite length_map, length_seq. lia.
Qed.

Lemma composite_one_tuple_per_pk_fails :
  ¬ (∀ fk pks argIdx,
       (buildCompositeIN fk pks false argIdx).1.2
       = concat (map (tupleBinds (length (ChildColumns fk))) pks)).
Proof.
  intros H. specialize (H order_lines_fk many_orders 1).
  unfold buildCompositeIN in H. rewrite compositeLoop_spec, capPKs_take in H.
  cbn [fst snd] in H. apply (f_equal length) in H.
  rewrite !tupleBinds_total_length, length_take in H.
  unfold many_orders in H. rewrite length_replicate in H.
  change (length (ChildColumns order_lines_fk)) with 2%nat in H. lia.
Qed.

(* ================================================================== *)
(** * The extractor                                                    *)
(* ================================================================== *)

(** ** A logic of steps for the state and error monad *)

(** The outcome of a call without its value. *)
Inductive kind :=
| KOk
| KErr (e : error)
| KPanic.

Definition kind_of {A} (r : res A) : kind :=
  match r with
  | Ok _ => KOk
  | Err e => KErr e
  | Panic => KPanic
  end.

(** [wraps outer inner]: [outer] is [inner] under zero or more
    [fmt.Errorf("...: %w", ...)]. *)
Inductive wraps : error → error → Prop :=
| wraps_refl e : wraps e e
| wraps_step prefix outer inner : wraps outer inner → wraps (Wrapped prefix outer) inner.

Section step_logic.
Context {S : Type}.
(** [R s k s']: a computation started in [s] may end in [s'] with an
    outcome of kind [k]. *)
Variable R : S → kind → S → Prop.
Hypothesis R_ok : ∀ s, R s KOk s.
Hypothesis R_seq : ∀ s s1 s2 k, R s KOk s1 → R s1 k s2 → R s k s2.

Definition sat {A} (m : M S A) : Prop :=
  ∀ s, R s (kind_of (m s).1) (m s).2.

Lemma sat_ret {A} (a : A) : sat (ret a).
Proof. intros s. apply R_ok. Qed.

Lemma sat_bind {A B} (m : M S A) (k : A → M S B) :
  sat m → (∀ a, sat (k a)) → sat (bind m k).
Proof.
  intros Hm Hk s. unfold bind. specialize (Hm s).
  destruct (m s) as [[a|e|] s1]; simpl in *; [|done..].
  eapply R_seq; [exact Hm | apply Hk].
Qed.

Lemma sat_bind_at {A B} (m : M S A) (k : A → M S B) s :
  R s (kind_of (m s).1) (m s).2 → (∀ a, sat (k a)) →
  R s (kind_of (bind m k s).1) (bind m k s).2.
Proof.
  intros Hm Hk. unfold bind.
  destruct (m s) as [[a|e|] s1]; simpl in *; [|done..].
  eapply R_seq; [exact Hm | apply Hk].
Qed.


Lemma sat_forEach {A} (l : list A) (body : A → M S unit) :
  (∀ x, x ∈ l → sat (body x)) → sat (forEach l body).
Proof.
  induction l as [|x l IH]; intros Hbody; cbn [forEach]; [apply sat_ret|].
  apply sat_bind; [apply Hbody, list_elem_of_here|].
  intros _. apply IH. intros y Hy. by apply Hbody, list_elem_of_further.
Qed.

Lemma sat_if {A} (b : bool) (m1 m2 : M S A) : sat m1 → sat m2 → sat (if b then m1 else m2).
Proof. by destruct b. Qed.

Hypothesis R_err : ∀ s e, R s (KErr e) s.

Lemma sat_fail {A} e : sat (@fail S A e).
Proof. intros s. apply R_err. Qed.

Hypothesis R_wrap : ∀ s s' prefix e, R s (KErr e) s' → R s (KErr (Wrapped prefix e)) s'.

Lemma sat_wrap {A} prefix (m : M S A) : sat m → sat (wrap prefix m).
Proof.
  intros Hm s. unfold wrap. specialize (Hm s).
  destruct (m s) as [[a|e|] s1]; simpl in *; [done| |done]. by apply R_wrap.
Qed.

Hypothesis R_panic : ∀ s, R s KPanic s.

Lemma sat_orPanic {A} (o : option A) : sat (orPanic o).
Proof. intros s. unfold orPanic. destruct o; [apply R_ok | apply R_panic]. Qed.

End step_logic.

Lemma sat_when {S} (R : S → kind → S → Prop) (b : bool) (m : M S unit) :
  (∀ s, R s KOk s) → sat R m → sat R (when b m).
Proof. intros Hok Hm. destruct b; [done|]. by apply sat_ret. Qed.

Lemma sat_gets (R : state → kind → state → Prop) {A} (f : state → A) :
  (∀ s, R s KOk s) → sat R (gets f).
Proof. intros Hok s. apply Hok. Qed.

(** ** What a step adds to the trace *)

(** A relation on worlds given by what may be appended to the trace. *)
Definition appends (P : kind → list event → Prop) (w : world) (k : kind) (w' : world) : Prop :=
  ∃ added, trace w' = trace w ++ added ∧ P k added.

Definition st_appends (P : kind → list event → Prop) (st : state) (k : kind) (st' : state) : Prop :=
  appends P (env st) k (env st').

Lemma appends_ok P w : P KOk [] → appends P w KOk w.
Proof. intros H. exists []. by rewrite app_nil_r. Qed.

Lemma appends_any P w k : P k [] → appends P w k w.
Proof. intros H. exists []. by rewrite app_nil_r. Qed.

Lemma appends_seq P w w1 w2 k :
  (∀ a1 a2, P KOk a1 → P k a2 → P k (a1 ++ a2)) →
  appends P w KOk w1 → appends P w1 k w2 → appends P w k w2.
Proof.
  intros Hcomp (a1 & E1 & H1) (a2 & E2 & H2). exists (a1 ++ a2).
  split; [by rewrite E2, E1, app_assoc | by apply Hcomp].
Qed.

Lemma sat_liftIO P {A} (m : M world A) :
  sat (appends P) m → sat (st_appends P) (liftIO m).
Proof.
  intros Hm st. unfold liftIO, st_appends. specialize (Hm (env st)).
  by destruct (m (env st)) as [r w].
Qed.

Lemma writes_app a b : writes (a ++ b) = writes a ++ writes b.
Proof. unfold writes. by rewrite omap_app. Qed.

Lemma queries_app a b : queries (a ++ b) = queries a ++ queries b.
Proof. unfold queries. by rewrite omap_app. Qed.

(** ** The primitives of the extractor *)

Definition with_env (st : state) (w : world) : state :=
  {| collected := collected st; collectedPKs := collectedPKs st; env := w |}.

Lemma Printf_run text st :
  Printf text st = (Ok tt, with_env st (emit (EvPrint text) (env st))).
Proof. reflexivity. Qed.

Lemma logPrintf_run text st :
  logPrintf text st = (Ok tt, with_env st (emit (EvLog text) (env st))).
Proof. reflexivity. Qed.

Lemma Query_run sql args st :
  Query sql args st =
  (Ok (exec (env st) sql args),
   with_env st (emit (EvQuery sql args (exec (env st) sql args)) (env st))).
Proof. reflexivity. Qed.

Lemma addRow_env table values st : env (addRow table values st).2 = env st.
Proof. reflexivity. Qed.

Lemma addRow_ok table values st : (addRow table values st).1 = Ok tt.
Proof. reflexivity. Qed.

Lemma bind_ok {S A B} (m : M S A) (k : A → M S B) s a s1 :
  m s = (Ok a, s1) → bind m k s = k a s1.
Proof. intros E. unfold bind. by rewrite E. Qed.

Lemma bind_bind_run {S A B C} (m1 : M S A) (m2 : A → M S B) (m3 : B → M S C) s :
  bind m1 (fun a => bind (m2 a) m3) s =
  match bind m1 m2 s with
  | (Ok b, s1) => m3 b s1
  | (Err err, s1) => (Err err, s1)
  | (Panic, s1) => (Panic, s1)
  end.
Proof.
  unfold bind. destruct (m1 s) as [[a|err|] s1]; [|done..].
  by destruct (m2 a s1) as [[b|err|] s2].
Qed.

Lemma forEach_addRow table rows : ∀ st,
  (forEach rows (addRow table) st).1 = Ok tt ∧
  env (forEach rows (addRow table) st).2 = env st.
Proof.
  induction rows as [|row rows IH]; intros st; [done|].
  cbn [forEach]. rewrite (bind_ok _ _ st tt (addRow table row st).2) by done.
  destruct (IH (addRow table row st).2) as [H1 H2]. split; [done|]. by rewrite H2.
Qed.

Lemma forEach_addRow_run table rows st :
  forEach rows (addRow table) st = (Ok tt, (forEach rows (addRow table) st).2).
Proof.
  destruct (forEach_addRow table rows st) as [H _].
  by destruct (forEach rows (addRow table) st) as [r st']; simpl in *; subst.
Qed.

(** ** The extraction phase writes nothing and stops at a failed query *)

(** The queries of [added] that ended with an error, and their errors. *)
Definition query_failed_with (added : list event) (e : error) : Prop :=
  ∃ sql args r, EvQuery sql args r ∈ added ∧ query_error r = Some e.

Definition ext_ok (k : kind) (added : list event) : Prop :=
  writes added = [] ∧
  ∀ e, query_failed_with added e → ∃ err, k = KErr err ∧ wraps err e.

Lemma ext_ok_nil k : ext_ok k [].
Proof. split; [done|]. intros e (sql & args & r & H & _). inversion H. Qed.

Lemma ext_ok_app k a1 a2 : ext_ok KOk a1 → ext_ok k a2 → ext_ok k (a1 ++ a2).
Proof.
  intros [W1 F1] [W2 F2]. split; [by rewrite writes_app, W1, W2|].
  intros e (sql & args & r & [H|H]%elem_of_app & He).
  - destruct (F1 e) as (err & Hk & _); [by exists sql, args, r|done].
  - apply F2. by exists sql, args, r.
Qed.

Lemma ext_ok_quiet k added : writes added = [] → queries added = [] → ext_ok k added.
Proof.
  intros Hw Hq. split; [done|]. intros e (sql & args & r & H & _). exfalso.
  assert ((sql, args, r) ∈ queries added) as Hin; [|rewrite Hq in Hin; inversion Hin].
  unfold queries. apply list_elem_of_omap. by exists (EvQuery sql args r).
Qed.

Definition R_ext : state → kind → state → Prop := st_appends ext_ok.

Lemma R_ext_any st k : R_ext st k st.
Proof. apply appends_any, ext_ok_nil. Qed.

Lemma R_ext_seq s s1 s2 k : R_ext s KOk s1 → R_ext s1 k s2 → R_ext s k s2.
Proof. apply appends_seq. intros a1 a2. apply ext_ok_app. Qed.

Lemma R_ext_env st k st' : env st' = env st → R_ext st k st'.
Proof. intros E. unfold R_ext, st_appends. rewrite E. apply appends_any, ext_ok_nil. Qed.

Lemma R_ext_wrap s s' prefix e :
  R_ext s (KErr e) s' → R_ext s (KErr (Wrapped prefix e)) s'.
Proof.
  intros (added & Htr & Hw & Hf). exists added. split; [done|]. split; [done|].
  intros e' He'. destruct (Hf e' He') as (err & [= <-] & Hwr).
  eexists. split; [done|]. by constructor.
Qed.

Lemma ext_Printf text : sat R_ext (Printf text).
Proof.
  intros st. rewrite Printf_run. exists [EvPrint text]. split; [done|].
  by apply ext_ok_quiet.
Qed.

Lemma ext_logPrintf text : sat R_ext (logPrintf text).
Proof.
  intros st. rewrite logPrintf_run. exists [EvLog text]. split; [done|].
  by apply ext_ok_quiet.
Qed.

Lemma ext_addRow table values : sat R_ext (addRow table values).
Proof. intros st. by apply R_ext_env. Qed.

Lemma ext_forEach {A} (l : list A) (body : A → M state unit) :
  (∀ x, sat R_ext (body x)) → sat R_ext (forEach l body).
Proof.
  intros H. apply sat_forEach; [intros ?; apply R_ext_any | apply R_ext_seq | auto].
Qed.

(** After a query the trace holds its event; what follows decides. *)
Lemma ext_after_query {A} sql args (k : QueryResult → M state A) :
  (∀ r, query_error r = None → sat R_ext (k r)) →
  (∀ r st e, query_error r = Some e →
     (∃ err, kind_of (k r st).1 = KErr err ∧ wraps err e) ∧
     ∃ added, trace (env (k r st).2) = trace (env st) ++ added
              ∧ writes added = [] ∧ queries added = []) →
  sat R_ext (bind (Query sql args) k).
Proof.
  intros Hgood Hbad st. unfold bind. rewrite Query_run.
  set (r := exec (env st) sql args). set (st1 := with_env st _).
  destruct (query_error r) as [e|] eqn:He.
  - destruct (Hbad r st1 e He) as ((err & Hk & Hwr) & added & Htr & Hw & Hq).
    exists (EvQuery sql args r :: added). split.
    + rewrite Htr. unfold st1. simpl. by rewrite <- app_assoc.
    + split; [exact Hw|]. intros e' (sql' & args' & r' & Hin & He').
      apply elem_of_cons in Hin as [[= -> -> ->]|Hin].
      * rewrite He in He'. injection He' as <-. eauto.
      * exfalso. assert ((sql', args', r') ∈ queries added) as Hin'.
        { unfold queries. apply list_elem_of_omap. by exists (EvQuery sql' args' r'). }
        rewrite Hq in Hin'. inversion Hin'.
  - eapply R_ext_seq; [|apply (Hgood r He)].
    exists [EvQuery sql args r]. split; [done|]. split; [done|].
    intros e' (sql' & args' & r' & Hin & He').
    apply list_elem_of_singleton in Hin as [= -> -> ->]. congruence.
Qed.

Ltac ext_steps :=
  repeat match goal with
    | |- sat R_ext (bind (Query _ _) _) => apply ext_after_query
    | |- sat R_ext (bind _ _) => apply (sat_bind R_ext R_ext_seq); [|intros ?]
    | |- sat R_ext (wrap _ _) => apply (sat_wrap R_ext R_ext_wrap)
    | |- sat R_ext (ret _) => apply (sat_ret R_ext (fun s => R_ext_any s KOk))
    | |- sat R_ext (fail _) => apply (sat_fail R_ext (fun s e => R_ext_any s (KErr e)))
    | |- sat R_ext (orPanic _) =>
        apply (sat_orPanic R_ext (fun s => R_ext_any s KOk) (fun s => R_ext_any s KPanic))
    | |- sat R_ext (gets _) => apply (sat_gets R_ext); intros ?; apply R_ext_any
    | |- sat R_ext (rowCount _) => apply (sat_gets R_ext); intros ?; apply R_ext_any
    | |- sat R_ext (when _ _) => apply (sat_when R_ext); [intros ?; apply R_ext_any|]
    | |- sat R_ext (Printf _) => apply ext_Printf
    | |- sat R_ext (logPrintf _) => apply ext_logPrintf
    | |- sat R_ext (addRow _ _) => apply ext_addRow
    | |- sat R_ext (forEach _ _) => apply ext_forEach; intros ?
    | |- sat R_ext (if ?b then _ else _) => destruct b
    | |- sat R_ext (let '(_, _) := ?p in _) => destruct p
    | |- sat R_ext (match ?x with [] => _ | _ :: _ => _ end) => destruct x
    end.

Lemma when_count_print_run b table (f : string → string) st :
  ∃ st2, when b (bind (rowCount table) (fun n => Printf (f n))) st = (Ok tt, st2) ∧
         ∃ added, trace (env st2) = trace (env st) ++ added
                  ∧ writes added = [] ∧ queries added = [].
Proof.
  destruct b; simpl.
  - eexists. split; [reflexivity|]. by eexists [_].
  - exists st. split; [done|]. exists []. by rewrite app_nil_r.
Qed.

Section extraction_phase.
Variable Sprint : list value → string.
Variable e : Extractor.

Lemma ext_collectRows table sql args : sat R_ext (collectRows e table sql args).
Proof.
  unfold collectRows. ext_steps.
  - intros [err|rows [|err|err]] Hf; simpl in Hf; try done. ext_steps.
  - intros [err|rows [|err|err]] st e0 Hf; simpl in Hf; try done; injection Hf as <-.
    + split; [eexists; split; [done|constructor]|]. exists []. by rewrite app_nil_r.
    + rewrite (bind_ok _ _ _ _ _ (forEach_addRow_run table rows st)).
      split; [eexists; split; [done|constructor]|]. exists []. cbn [fail snd].
      destruct (forEach_addRow table rows st) as [_ ->]. by rewrite app_nil_r.
    + rewrite (bind_ok _ _ _ _ _ (forEach_addRow_run table rows st)).
      destruct (when_count_print_run (verbose e) table
                  (fun n => "  -> " +:+ n +:+ " rows" +:+ NL)
                  (forEach rows (addRow table) st).2)
        as (st2 & Hrun & added & Htr & Hw & Hq).
      rewrite (bind_ok _ _ _ _ _ Hrun).
      split; [eexists; split; [done|constructor]|]. exists added. cbn [fail snd].
      destruct (forEach_addRow table rows st) as [_ He]. by rewrite Htr, He.
Qed.

Lemma ext_extractRoot table where_ : sat R_ext (extractRoot e table where_).
Proof. unfold extractRoot. ext_steps. apply ext_collectRows. Qed.

Lemma ext_extractChild table : sat R_ext (extractChild Sprint e table).
Proof. unfold extractChild. ext_steps. apply ext_collectRows. Qed.

Lemma ext_fetchSelfRefRows table fk seedPKs v :
  sat R_ext (fetchSelfRefRows Sprint table fk seedPKs v).
Proof.
  unfold fetchSelfRefRows. ext_steps.
  - intros [err|rows [|err|err]] Hf; simpl in Hf; try done. ext_steps.
  - intros [err|rows [|err|err]] st e0 Hf; simpl in Hf; try done; injection Hf as <-;
      (split; [eexists; split; [done|repeat constructor]|]; exists []; by rewrite app_nil_r).
Qed.

Lemma ext_addNewRows table extraRows : ∀ existing,
  sat R_ext (addNewRows Sprint table extraRows existing).
Proof.
  induction extraRows as [|row rows IH]; intros existing; cbn [addNewRows];
    ext_steps; apply IH.
Qed.

Lemma ext_extractSelfRef table selfRefs :
  sat R_ext (extractSelfRef Sprint e table selfRefs).
Proof.
  unfold extractSelfRef. ext_steps; [apply ext_fetchSelfRefRows | apply ext_addNewRows].
Qed.

Lemma ext_extractTable rootWhere tableName :
  sat R_ext (extractTable Sprint e rootWhere tableName).
Proof.
  unfold extractTable. destruct (Tables (g e) !! tableName) as [tbl|]; ext_steps.
  - destruct (rootWhere !! tbl_Name tbl); ext_steps.
    + apply ext_extractRoot.
    + apply ext_extractChild.
  - destruct (SelfRefs (g e) !! tableName) as [[|fk fks]|]; ext_steps.
    apply ext_extractSelfRef.
Qed.

End extraction_phase.

(** ** The output phase runs no query *)

Definition wr_ok (_ : kind) (added : list event) : Prop := queries added = [].

Lemma wr_ok_app k a1 a2 : wr_ok KOk a1 → wr_ok k a2 → wr_ok k (a1 ++ a2).
Proof. unfold wr_ok. intros H1 H2. by rewrite queries_app, H1, H2. Qed.

Definition R_wr : state → kind → state → Prop := st_appends wr_ok.
Definition R_wr_io : world → kind → world → Prop := appends wr_ok.

Lemma R_wr_io_any w k : R_wr_io w k w.
Proof. by apply appends_any. Qed.
Lemma R_wr_io_seq s s1 s2 k : R_wr_io s KOk s1 → R_wr_io s1 k s2 → R_wr_io s k s2.
Proof. apply appends_seq. intros a1 a2. apply wr_ok_app. Qed.
Lemma R_wr_any st k : R_wr st k st.
Proof. by apply appends_any. Qed.
Lemma R_wr_seq s s1 s2 k : R_wr s KOk s1 → R_wr s1 k s2 → R_wr s k s2.
Proof. apply appends_seq. intros a1 a2. apply wr_ok_app. Qed.

Lemma wr_Fprint data : sat R_wr_io (Fprint data).
Proof.
  intros w. unfold Fprint. destruct (io_fail w _); [apply R_wr_io_any|].
  by exists [EvWrite data].
Qed.

Ltac wr_io_steps :=
  repeat match goal with
    | |- sat R_wr_io (bind _ _) => apply (sat_bind R_wr_io R_wr_io_seq); [|intros ?]
    | |- sat R_wr_io (ret _) => apply (sat_ret R_wr_io (fun s => R_wr_io_any s KOk))
    | |- sat R_wr_io (Fprint _) => apply wr_Fprint
    | |- sat R_wr_io (Fprintln _) => apply wr_Fprint
    | |- sat R_wr_io (forEach _ _) =>
        apply sat_forEach; [intros ?; apply R_wr_io_any | apply R_wr_io_seq | intros ? _]
    end.

Lemma wr_WriteHeader : sat R_wr_io WriteHeader.
Proof. unfold WriteHeader. wr_io_steps. Qed.

Lemma wr_WriteFooter : sat R_wr_io WriteFooter.
Proof. unfold WriteFooter. wr_io_steps. Qed.

Lemma wr_WriteTableData table rows : sat R_wr_io (WriteTableData table rows).
Proof. unfold WriteTableData. destruct rows; wr_io_steps. Qed.

Lemma wr_writeTable e tableName : sat R_wr (writeTable e tableName).
Proof.
  unfold writeTable. destruct (Tables (g e) !! tableName) as [tbl|].
  - apply (sat_bind R_wr R_wr_seq); [apply sat_gets; intros ?; apply R_wr_any|].
    intros rows. apply sat_wrap; [by intros ????|]. apply sat_liftIO, wr_WriteTableData.
  - apply sat_ret. intros ?. apply R_wr_any.
Qed.

Lemma wr_output e order :
  sat R_wr (bind (liftIO WriteHeader) (fun _ =>
            bind (forEach order (writeTable e)) (fun _ => liftIO WriteFooter))).
Proof.
  apply (sat_bind R_wr R_wr_seq); [apply sat_liftIO, wr_WriteHeader|]. intros _.
  apply (sat_bind R_wr R_wr_seq); [|intros _; apply sat_liftIO, wr_WriteFooter].
  apply sat_forEach; [intros ?; apply R_wr_any | apply R_wr_seq |].
  intros t _. apply wr_writeTable.
Qed.

(** ** A dry run collects nothing, asks nothing and succeeds *)

Definition silent (_ : kind) (added : list event) : Prop :=
  writes added = [] ∧ queries added = [].

Definition R_dry (st : state) (k : kind) (st' : state) : Prop :=
  collectedPKs st = ∅ →
  collectedPKs st' = ∅ ∧ k = KOk ∧ st_appends silent st k st'.

Lemma R_dry_ok st : R_dry st KOk st.
Proof. intros H. split; [done|]. split; [done|]. by apply appends_any. Qed.

Lemma R_dry_seq s s1 s2 k : R_dry s KOk s1 → R_dry s1 k s2 → R_dry s k s2.
Proof.
  intros H1 H2 Hs. destruct (H1 Hs) as (Hs1 & _ & A1).
  destruct (H2 Hs1) as (Hs2 & Hk & A2). split; [done|]. split; [done|].
  eapply appends_seq; [|exact A1|exact A2].
  intros a1 a2 [W1 Q1] [W2 Q2]. split; [by rewrite writes_app, W1, W2|].
  by rewrite queries_app, Q1, Q2.
Qed.

Lemma R_dry_wrap s s' prefix e :
  R_dry s (KErr e) s' → R_dry s (KErr (Wrapped prefix e)) s'.
Proof. intros H Hs. by destruct (H Hs) as (_ & ? & _). Qed.

Lemma dry_Printf text : sat R_dry (Printf text).
Proof.
  intros st Hs. rewrite Printf_run. split; [done|]. split; [done|]. by exists [EvPrint text].
Qed.

Lemma dry_logPrintf text : sat R_dry (logPrintf text).
Proof.
  intros st Hs. rewrite logPrintf_run. split; [done|]. split; [done|]. by exists [EvLog text].
Qed.

Lemma childLoop_empty table fks : ∀ conditions args argIdx,
  childLoop table ∅ fks conditions args argIdx = Some (conditions, args).
Proof.
  induction fks as [|fk fks IH]; intros conditions args argIdx; [done|].
  cbn [childLoop]. unfold fkCondition. rewrite lookup_empty.
  destruct (IsSelfRef fk); apply IH.
Qed.

Lemma buildChildQuery_empty table : buildChildQuery table ∅ = Some ("", []).
Proof. unfold buildChildQuery. by rewrite childLoop_empty. Qed.

Section dry_run.
Variable Sprint : list value → string.
Variable e : Extractor.
Hypothesis Hdry : dryRun e = true.

Lemma dry_extractRoot table where_ : sat R_dry (extractRoot e table where_).
Proof.
  unfold extractRoot. rewrite Hdry.
  apply (sat_bind R_dry R_dry_seq); [|intros _; apply sat_ret, R_dry_ok].
  apply sat_when; [apply R_dry_ok | apply dry_Printf].
Qed.

Lemma dry_extractChild table : sat R_dry (extractChild Sprint e table).
Proof.
  intros st Hs. unfold extractChild, bind, gets. rewrite Hs, buildChildQuery_empty.
  cbn. by apply R_dry_ok.
Qed.

Lemma dry_extractSelfRef table selfRefs : sat R_dry (extractSelfRef Sprint e table selfRefs).
Proof.
  intros st Hs. unfold extractSelfRef, bind, gets. rewrite Hs.
  unfold getList. rewrite lookup_empty. cbn. by apply R_dry_ok.
Qed.

Lemma dry_extractTable rootWhere tableName :
  sat R_dry (extractTable Sprint e rootWhere tableName).
Proof.
  unfold extractTable. destruct (Tables (g e) !! tableName) as [tbl|];
    [|apply sat_ret, R_dry_ok].
  apply (sat_bind R_dry R_dry_seq).
  - destruct (rootWhere !! tbl_Name tbl).
    + apply (sat_wrap R_dry R_dry_wrap), dry_extractRoot.
    + destruct (_ <? _)%nat;
        [apply (sat_wrap R_dry R_dry_wrap), dry_extractChild | apply sat_ret, R_dry_ok].
  - intros _. destruct (SelfRefs (g e) !! tableName) as [[|fk fks]|];
      try apply sat_ret, R_dry_ok.
    apply (sat_wrap R_dry R_dry_wrap), dry_extractSelfRef.
Qed.

End dry_run.

(** ** [Extract]: traversal, then output *)

Section extract_phases.
Variable Sprint : list value → string.
Variable e : Extractor.
Variable all : list string.

Definition rootWhere_of : gmap string string :=
  foldl (fun m r => <[root_Table r := root_Where r]> m) ∅ (cfg_Roots e).

Definition order_of : list string :=
  let topoResult := TopoSortAll (g e) all in
  if HasCycle topoResult
  then Order topoResult ++ CycleTables topoResult
  else Order topoResult.

Definition warnings : M state unit :=
  let topoResult := TopoSortAll (g e) all in
  when (HasCycle topoResult)
    (bind (logPrintf ("WARNING: Circular dependencies detected: "
                      +:+ SprintNames (CycleTables topoResult)))
       (fun _ => logPrintf
          "Tables in cycles will be handled with session_replication_role = 'replica'")).

(** The part of [Extract] before [if e.dryRun]. *)
Definition traversal : M state unit :=
  bind warnings (fun _ => forEach order_of (extractTable Sprint e rootWhere_of)).

(** The part of [Extract] after it. *)
Definition emission : M state unit :=
  bind (liftIO WriteHeader) (fun _ =>
    bind (forEach order_of (writeTable e)) (fun _ => liftIO WriteFooter)).

Lemma Extract_phases st :
  Extract Sprint e all st =
  match traversal st with
  | (Ok _, st1) => if dryRun e then (Ok tt, st1) else emission st1
  | (Err err, st1) => (Err err, st1)
  | (Panic, st1) => (Panic, st1)
  end.
Proof.
  unfold Extract. cbv zeta. rewrite bind_bind_run.
  fold warnings. fold order_of. fold rootWhere_of. fold traversal.
  destruct (traversal st) as [[[]|err|] st1]; [|done..].
  by destruct (dryRun e).
Qed.

Lemma ext_traversal : sat R_ext traversal.
Proof.
  unfold traversal, warnings. ext_steps. apply ext_extractTable.
Qed.

Lemma dry_traversal : dryRun e = true → sat R_dry traversal.
Proof.
  intros Hdry. unfold traversal, warnings.
  apply (sat_bind R_dry R_dry_seq).
  - apply sat_when; [apply R_dry_ok|].
    apply (sat_bind R_dry R_dry_seq); [apply dry_logPrintf|intros _; apply dry_logPrintf].
  - intros _. apply sat_forEach; [apply R_dry_ok | apply R_dry_seq |].
    intros t _. by apply dry_extractTable.
Qed.

End extract_phases.

Lemma no_queries_no_failure added err :
  queries added = [] → ¬ query_failed_with added err.
Proof.
  intros Hq (sql & args & r & Hin & _).
  assert ((sql, args, r) ∈ queries added) as Hin'.
  { unfold queries. apply list_elem_of_omap. by exists (EvQuery sql args r). }
  rewrite Hq in Hin'. inversion Hin'.
Qed.

Lemma query_failed_with_app a1 a2 err :
  query_failed_with (a1 ++ a2) err →
  query_failed_with a1 err ∨ query_failed_with a2 err.
Proof.
  intros (sql & args & r & [H|H]%elem_of_app & He); [left|right]; by exists sql, args, r.
Qed.

Lemma no_writes_no_write added d : writes added = [] → EvWrite d ∉ added.
Proof.
  induction added as [|ev added IH]; intros Hw; [inversion 1|].
  intros [<-|H]%elem_of_cons; [done|].
  apply IH; [|done]. unfold writes in *. cbn [omap] in Hw. by destruct ev.
Qed.

Lemma split_after_prefix {A} (l1 l2 pre post : list A) x :
  l1 ++ l2 = pre ++ x :: post → x ∉ l1 →
  ∃ pre', pre = l1 ++ pre' ∧ l2 = pre' ++ x :: post.
Proof.
  revert pre. induction l1 as [|y l1 IH]; intros pre Heq Hx.
  - by exists pre.
  - destruct pre as [|p pre]; simpl in Heq.
    + injection Heq as -> _. exfalso. apply Hx, list_elem_of_here.
    + injection Heq as -> Heq. destruct (IH pre Heq) as (pre' & -> & ->).
      { intros ?. by apply Hx, list_elem_of_further. }
      by exists pre'.
Qed.

(** C3. In every run of [Extract]: a query that fails (at [Query], at
    [rows.Values] or at [rows.Err]) makes [Extract] return an error that
    wraps the error of that query, with nothing written; at the first write
    every query lies behind, none of them failed, and none follows; a dry
    run writes nothing, runs no query and returns nil. *)
Theorem Extract_no_partial_output Sprint e all w :
  let run := Extract Sprint e all (New w) in
  ∃ added,
    trace (env run.2) = trace w ++ added
    ∧ (∀ err, query_failed_with added err →
         writes added = [] ∧ ∃ ret, run.1 = Err ret ∧ wraps ret err)
    ∧ (∀ pre data post, added = pre ++ EvWrite data :: post →
         (∀ err, ¬ query_failed_with pre err) ∧ queries post = [])
    ∧ (dryRun e = true → writes added = [] ∧ queries added = [] ∧ run.1 = Ok tt).
Proof.
  intros run. unfold run. rewrite Extract_phases.
  pose proof (ext_traversal Sprint e all (New w)) as (a1 & Htr1 & Hw1 & Hf1).
  pose proof (dry_traversal Sprint e all) as Hdry.
  destruct (traversal Sprint e all (New w)) as [[[]|err|] st1] eqn:Htrav;
    cbn [fst snd kind_of] in *.
  - (* the traversal succeeded *)
    assert (Hnf1 : ∀ err, ¬ query_failed_with a1 err).
    { intros err H. by destruct (Hf1 err H) as (? & ? & _). }
    destruct (dryRun e) eqn:Hd.
    + exists a1. split; [done|]. split; [intros err H; by destruct (Hnf1 err)|]. split.
      * intros pre d post ->. exfalso. eapply no_writes_no_write; [exact Hw1|].
        apply elem_of_app. right. apply list_elem_of_here.
      * intros _. specialize (Hdry eq_refl (New w) eq_refl). rewrite Htrav in Hdry.
        destruct Hdry as (_ & _ & a1' & Htr1' & _ & Hq). cbn [fst snd] in Htr1'.
        rewrite Htr1 in Htr1'. apply app_inv_head in Htr1' as <-. done.
    + pose proof (wr_output e (order_of e all) st1) as (a2 & Htr2 & Hq2).
      fold (emission e all) in Htr2, Hq2. unfold wr_ok in Hq2.
      exists (a1 ++ a2). split; [by rewrite Htr2, Htr1, app_assoc|]. split; [|split].
      * intros err [H|H]%query_failed_with_app; [by destruct (Hnf1 err)|].
        by apply no_queries_no_failure in H.
      * intros pre d post Heq.
        apply split_after_prefix in Heq as (pre' & -> & ->);
          [|by apply no_writes_no_write].
        rewrite queries_app in Hq2. apply app_eq_nil in Hq2 as [Hq2 Hq3].
        change (queries (EvWrite d :: post)) with (queries post) in Hq3. split; [|done].
        intros err [H|H]%query_failed_with_app; [by destruct (Hnf1 err)|].
        by apply no_queries_no_failure in H.
      * done.
  - (* the traversal returned an error *)
    exists a1. split; [done|]. split.
    { intros err' H. split; [done|]. destruct (Hf1 err' H) as (ret & [= <-] & Hwr). eauto. }
    split.
    + intros pre d post ->. exfalso. eapply no_writes_no_write; [exact Hw1|].
      apply elem_of_app. right. apply list_elem_of_here.
    + intros Hd. specialize (Hdry Hd (New w) eq_refl). rewrite Htrav in Hdry.
      by destruct Hdry as (_ & ? & _).
  - (* the traversal panicked *)
    exists a1. split; [done|]. split.
    { intros err' H. by destruct (Hf1 err' H) as (? & ? & _). }
    split.
    + intros pre d post ->. exfalso. eapply no_writes_no_write; [exact Hw1|].
      apply elem_of_app. right. apply list_elem_of_here.
    + intros Hd. specialize (Hdry Hd (New w) eq_refl). rewrite Htrav in Hdry.
      by destruct Hdry as (_ & ? & _).
Qed.

(** ** Collected rows and collected keys *)

(** The key tuple of a row, as [addRow] stores it. *)
Definition pkOf (table : Table) (values : row) : list value :=
  default [] (extractPK table values).

Definition keyed_by_full_name (gr : Graph) : Prop :=
  ∀ name tbl, Tables gr !! name = Some tbl → FullName tbl = name.

(** For every table of the graph that has a primary key, the collected
    keys are the keys of the collected rows, row by row. *)
Definition pk_inv (gr : Graph) (st : state) : Prop :=
  ∀ name tbl, Tables gr !! name = Some tbl → is_Some (PrimaryKey_of tbl) →
    getList (collectedPKs st) name = map (pkOf tbl) (getList (collected st) name).

Lemma extractPK_is_Some table values :
  is_Some (PrimaryKey_of table) → extractPK table values = Some (pkOf table values).
Proof.
  intros [pk Hpk]. unfold pkOf, extractPK, pkColumnIndexes. by rewrite Hpk.
Qed.

Lemma extractPK_None table values :
  PrimaryKey_of table = None → extractPK table values = None.
Proof. intros Hpk. unfold extractPK, pkColumnIndexes. by rewrite Hpk. Qed.

Lemma addRow_collected table values st name :
  getList (collected (addRow table values st).2) name =
  if decide (FullName table = name)
  then getList (collected st) name ++ [values]
  else getList (collected st) name.
Proof.
  unfold addRow. cbn [snd collected]. rewrite getList_insert.
  by destruct (decide (FullName table = name)) as [<-|].
Qed.

Lemma addRow_collectedPKs table values st name :
  getList (collectedPKs (addRow table values st).2) name =
  if decide (FullName table = name)
  then match extractPK table values with
       | Some pk => getList (collectedPKs st) name ++ [pk]
       | None => getList (collectedPKs st) name
       end
  else getList (collectedPKs st) name.
Proof.
  unfold addRow. cbn [snd collectedPKs].
  destruct (extractPK table values) as [pk|].
  - rewrite getList_insert. by destruct (decide (FullName table = name)) as [<-|].
  - by destruct (decide _).
Qed.

Section pk_invariant.
Variable Sprint : list value → string.
Variable e : Extractor.
Hypothesis Hkeyed : keyed_by_full_name (g e).

Definition R_inv (st : state) (_ : kind) (st' : state) : Prop :=
  pk_inv (g e) st → pk_inv (g e) st'.

Lemma R_inv_any st k : R_inv st k st.
Proof. by intros H. Qed.

Lemma R_inv_seq s s1 s2 k : R_inv s KOk s1 → R_inv s1 k s2 → R_inv s k s2.
Proof. unfold R_inv. auto. Qed.

Lemma inv_liftIO {A} (m : M world A) : sat R_inv (liftIO m).
Proof. intros st. unfold liftIO. destruct (m (env st)). intros H. exact H. Qed.

Lemma inv_addRow name tbl values :
  Tables (g e) !! name = Some tbl → sat R_inv (addRow tbl values).
Proof.
  intros Htbl st Hinv name' tbl' Htbl' Hpk'.
  rewrite addRow_collected, addRow_collectedPKs, (Hkeyed _ _ Htbl).
  destruct (decide (name = name')) as [<-|]; [|by apply Hinv].
  rewrite Htbl in Htbl'. injection Htbl' as <-.
  rewrite extractPK_is_Some by done. rewrite map_app. cbn [map].
  by rewrite (Hinv name tbl).
Qed.

Ltac inv_steps :=
  repeat match goal with
    | |- sat R_inv (bind _ _) => apply (sat_bind R_inv R_inv_seq); [|intros ?]
    | |- sat R_inv (wrap _ _) => apply (sat_wrap R_inv (fun _ _ _ _ H => H))
    | |- sat R_inv (ret _) => apply (sat_ret R_inv (fun s => R_inv_any s KOk))
    | |- sat R_inv (fail _) => apply (sat_fail R_inv (fun s e => R_inv_any s (KErr e)))
    | |- sat R_inv (orPanic _) =>
        apply (sat_orPanic R_inv (fun s => R_inv_any s KOk) (fun s => R_inv_any s KPanic))
    | |- sat R_inv (gets _) => apply (sat_gets R_inv); intros ?; apply R_inv_any
    | |- sat R_inv (rowCount _) => apply (sat_gets R_inv); intros ?; apply R_inv_any
    | |- sat R_inv (when _ _) => apply (sat_when R_inv); [intros ?; apply R_inv_any|]
    | |- sat R_inv (Printf _) => apply inv_liftIO
    | |- sat R_inv (logPrintf _) => apply inv_liftIO
    | |- sat R_inv (Query _ _) => apply inv_liftIO
    | |- sat R_inv (liftIO _) => apply inv_liftIO
    | |- sat R_inv (addRow _ _) => eapply inv_addRow; eassumption
    | |- sat R_inv (forEach _ _) =>
        apply sat_forEach; [intros ?; apply R_inv_any | apply R_inv_seq | intros ? _]
    | |- sat R_inv (if ?b then _ else _) => destruct b
    | |- sat R_inv (let '(_, _) := ?p in _) => destruct p
    | |- sat R_inv (match ?x with [] => _ | _ :: _ => _ end) => destruct x
    | |- sat R_inv (match ?x with QFail _ => _ | QRows _ _ => _ end) => destruct x
    | |- sat R_inv (match ?x with EndOk => _ | ValuesErr _ => _ | RowsErr _ => _ end) =>
        destruct x
    end.

Lemma inv_addNewRows name tbl extraRows :
  Tables (g e) !! name = Some tbl →
  ∀ existing, sat R_inv (addNewRows Sprint tbl extraRows existing).
Proof.
  intros Htbl. induction extraRows as [|row rows IH]; intros existing;
    cbn [addNewRows]; inv_steps; apply IH.
Qed.

Lemma inv_extractTable rootWhere tableName :
  sat R_inv (extractTable Sprint e rootWhere tableName).
Proof.
  unfold extractTable. destruct (Tables (g e) !! tableName) as [tbl|] eqn:Htbl;
    [|inv_steps].
  apply (sat_bind R_inv R_inv_seq).
  - destruct (rootWhere !! tbl_Name tbl).
    + unfold extractRoot, collectRows. inv_steps.
    + unfold extractChild, collectRows. inv_steps.
  - intros _. destruct (SelfRefs (g e) !! tableName) as [[|fk fks]|]; inv_steps.
    unfold extractSelfRef, fetchSelfRefRows. inv_steps.
    eapply inv_addNewRows; eassumption.
Qed.

Lemma inv_Extract all : sat R_inv (Extract Sprint e all).
Proof.
  unfold Extract. cbv zeta. inv_steps.
  - apply inv_extractTable.
  - unfold writeTable. destruct (Tables (g e) !! _); inv_steps.
Qed.

End pk_invariant.

(** ** Self-reference expansion adds no key twice *)

Lemma bind_gets {A B} (f : state → A) (k : A → M state B) st :
  bind (gets f) k st = k (f st) st.
Proof. reflexivity. Qed.

Section selfref_dedup.
Variable Sprint : list value → string.
Variable table : Table.
Hypothesis Hpk : is_Some (PrimaryKey_of table).

Definition rows_of (st : state) : list row := getList (collected st) (FullName table).
Definition pks_of (st : state) : list (list value) :=
  getList (collectedPKs st) (FullName table).

(** The keys are those of the rows, and no key occurs twice. *)
Definition distinct_keys (st : state) : Prop :=
  pks_of st = map (pkOf table) (rows_of st) ∧ NoDup (pks_of st).

Definition R_dedup (st : state) (_ : kind) (st' : state) : Prop :=
  distinct_keys st → distinct_keys st' ∧ rows_of st `prefix_of` rows_of st'.

Lemma R_dedup_any st k : R_dedup st k st.
Proof. by intros H. Qed.

Lemma R_dedup_seq s s1 s2 k : R_dedup s KOk s1 → R_dedup s1 k s2 → R_dedup s k s2.
Proof.
  intros H1 H2 Hs. destruct (H1 Hs) as [Hs1 P1]. destruct (H2 Hs1) as [Hs2 P2].
  split; [done|]. by etrans.
Qed.

Lemma dedup_liftIO {A} (m : M world A) : sat R_dedup (liftIO m).
Proof. intros st. unfold liftIO. destruct (m (env st)). intros H. by split. Qed.

Lemma pkKey_pkOf row : pkKey Sprint table row = Sprint (pkOf table row).
Proof. reflexivity. Qed.

Lemma dedup_addNewRows extraRows : ∀ existing st,
  (∀ row, row ∈ rows_of st → pkKey Sprint table row ∈ existing) →
  R_dedup st (kind_of (addNewRows Sprint table extraRows existing st).1)
             (addNewRows Sprint table extraRows existing st).2.
Proof.
  induction extraRows as [|row rows IH]; intros existing st Hcover; cbn [addNewRows].
  - apply R_dedup_any.
  - destruct (bool_decide_reflect (pkKey Sprint table row ∈ existing)) as [Hin|Hnew].
    + by apply IH.
    + rewrite (bind_ok _ _ st tt (addRow table row st).2) by done.
      eapply R_dedup_seq; [|apply IH].
      * intros [Heq Hnd]. unfold distinct_keys, pks_of, rows_of.
        rewrite addRow_collected, addRow_collectedPKs.
        destruct (decide (FullName table = FullName table)); [|done].
        rewrite extractPK_is_Some by done. fold (pks_of st) (rows_of st).
        split; [split|by apply prefix_app_r].
        -- rewrite map_app. cbn [map]. by rewrite Heq.
        -- apply NoDup_app. split; [done|]. split; [|apply NoDup_singleton].
           intros pk Hpks ->%list_elem_of_singleton. rewrite Heq in Hpks.
           apply list_elem_of_fmap in Hpks as (row' & Hrow' & Hin').
           apply Hnew. rewrite pkKey_pkOf, Hrow', <- pkKey_pkOf. by apply Hcover.
      * intros row'. unfold rows_of. rewrite addRow_collected.
        destruct (decide (FullName table = FullName table)); [|done].
        intros [H | ->%list_elem_of_singleton]%elem_of_app.
        -- apply elem_of_union. right. by apply Hcover.
        -- apply elem_of_union. left. by apply elem_of_singleton.
Qed.

Lemma pkSet_covers st row : row ∈ rows_of st → pkKey Sprint table row ∈ pkSet Sprint table st.
Proof.
  intros Hrow. unfold pkSet. apply elem_of_list_to_set, list_elem_of_fmap. by exists row.
Qed.

Ltac dedup_steps :=
  repeat match goal with
    | |- sat R_dedup (bind _ _) => apply (sat_bind R_dedup R_dedup_seq); [|intros ?]
    | |- sat R_dedup (ret _) => apply (sat_ret R_dedup (fun s => R_dedup_any s KOk))
    | |- sat R_dedup (fail _) => apply (sat_fail R_dedup (fun s e => R_dedup_any s (KErr e)))
    | |- sat R_dedup (orPanic _) =>
        apply (sat_orPanic R_dedup (fun s => R_dedup_any s KOk)
                 (fun s => R_dedup_any s KPanic))
    | |- sat R_dedup (gets _) => apply (sat_gets R_dedup); intros ?; apply R_dedup_any
    | |- sat R_dedup (rowCount _) => apply (sat_gets R_dedup); intros ?; apply R_dedup_any
    | |- sat R_dedup (when _ _) => apply (sat_when R_dedup); [intros ?; apply R_dedup_any|]
    | |- sat R_dedup (Printf _) => apply dedup_liftIO
    | |- sat R_dedup (Query _ _) => apply dedup_liftIO
    | |- sat R_dedup (if ?b then _ else _) => destruct b
    | |- sat R_dedup (let '(_, _) := ?p in _) => destruct p
    | |- sat R_dedup (match ?x with QFail _ => _ | QRows _ _ => _ end) => destruct x
    | |- sat R_dedup (match ?x with EndOk => _ | ValuesErr _ => _ | RowsErr _ => _ end) =>
        destruct x
    end.

Lemma dedup_fetch fk seedPKs v : sat R_dedup (fetchSelfRefRows Sprint table fk seedPKs v).
Proof. unfold fetchSelfRefRows. dedup_steps. Qed.

Lemma dedup_extractSelfRef e selfRefs : sat R_dedup (extractSelfRef Sprint e table selfRefs).
Proof.
  unfold extractSelfRef. apply (sat_bind R_dedup R_dedup_seq); [dedup_steps|].
  intros seedPKs. destruct seedPKs as [|pk0 seedPKs]; [dedup_steps|].
  apply sat_forEach; [intros ?; apply R_dedup_any | apply R_dedup_seq |].
  intros fk _. apply (sat_bind R_dedup R_dedup_seq); [apply dedup_fetch|].
  intros extraRows st. rewrite bind_gets.
  apply (sat_bind_at R_dedup R_dedup_seq).
  - apply dedup_addNewRows, pkSet_covers.
  - intros _. dedup_steps.
Qed.

End selfref_dedup.

(** C7. In a graph keyed by full table names, for every table with a primary
    key: the collected keys are the keys of the collected rows, one per row,
    at the start, after every [addRow], after every table of the traversal
    and at the end of [Extract], whatever the outcome; and self-reference
    expansion keeps the key tuples pairwise distinct, adding rows at the end
    only. *)
Theorem collected_keys_match_rows Sprint e :
  keyed_by_full_name (g e) →
  (∀ w, pk_inv (g e) (New w))
  ∧ (∀ name tbl values st,
       Tables (g e) !! name = Some tbl →
       pk_inv (g e) st → pk_inv (g e) (addRow tbl values st).2)
  ∧ (∀ rootWhere tableName st,
       pk_inv (g e) st → pk_inv (g e) (extractTable Sprint e rootWhere tableName st).2)
  ∧ (∀ all w name tbl,
       Tables (g e) !! name = Some tbl → is_Some (PrimaryKey_of tbl) →
       let st := (Extract Sprint e all (New w)).2 in
       length (getList (collectedPKs st) name) = length (getList (collected st) name)
       ∧ getList (collectedPKs st) name = map (pkOf tbl) (getList (collected st) name))
  ∧ (∀ table selfRefs st,
       is_Some (PrimaryKey_of table) →
       distinct_keys table st →
       let st' := (extractSelfRef Sprint e table selfRefs st).2 in
       distinct_keys table st' ∧ rows_of table st `prefix_of` rows_of table st').
Proof.
  intros Hkeyed.
  assert (Hnew : ∀ w, pk_inv (g e) (New w)).
  { intros w name tbl _ _. unfold getList. cbn. by rewrite !lookup_empty. }
  split; [exact Hnew|]. split; [|split; [|split]].
  - intros name tbl values st Htbl. by apply (inv_addRow e Hkeyed name tbl values Htbl st).
  - intros rootWhere tableName st. apply (inv_extractTable Sprint e Hkeyed).
  - intros all w name tbl Htbl Hpk st.
    assert (pk_inv (g e) st) as Hinv by (apply (inv_Extract Sprint e Hkeyed all), Hnew).
    rewrite (Hinv name tbl Htbl Hpk). by rewrite length_map.
  - intros table selfRefs st Hpk Hd. by apply (dedup_extractSelfRef Sprint table Hpk e selfRefs st).
Qed.

(** * The scenarios of the specification *)

(** ** Scenario 1: tenants, users, orders *)

Definition fk_to (name child col parent : string) : ForeignKey :=
  {| Name := name; ChildSchema := "public"; ChildTable := child; ChildColumns := [col];
     ParentSchema := "public"; ParentTable := parent; ParentColumns := ["id"];
     IsSelfRef := false; Virtual := VirtualNone; JSONPath := "" |}.

Definition users_tenant_fk : ForeignKey := fk_to "users_tenant_fk" "users" "tenant_id" "tenants".
Definition orders_user_fk : ForeignKey := fk_to "orders_user_fk" "orders" "user_id" "users".

Definition tenants_table : Table :=
  {| tbl_Schema := "public"; tbl_Name := "tenants";
     Columns := [intColumn "id" false 1];
     PrimaryKey_of := Some {| pk_Columns := ["id"] |};
     ForeignKeys := [] |}.

Definition users_table : Table :=
  {| tbl_Schema := "public"; tbl_Name := "users";
     Columns := [intColumn "id" false 1; intColumn "tenant_id" false 2];
     PrimaryKey_of := Some {| pk_Columns := ["id"] |};
     ForeignKeys := [users_tenant_fk] |}.

Definition orders_table : Table :=
  {| tbl_Schema := "public"; tbl_Name := "orders";
     Columns := [intColumn "id" false 1; intColumn "user_id" false 2];
     PrimaryKey_of := Some {| pk_Columns := ["id"] |};
     ForeignKeys := [orders_user_fk] |}.

(** The graph that [Build] makes of the three tables. *)
Definition chain_graph : Graph :=
  {| Tables := {[ "public.tenants" := tenants_table;
                  "public.users" := users_table;
                  "public.orders" := orders_table ]};
     Edges := [ {| FK := users_tenant_fk; edge_ChildTable := "public.users";
                   edge_ParentTable := "public.tenants" |};
                {| FK := orders_user_fk; edge_ChildTable := "public.orders";
                   edge_ParentTable := "public.users" |} ];
     SelfRefs := ∅;
     Children := {[ "public.tenants" := ["public.users"];
                    "public.users" := ["public.orders"] ]};
     Parents := {[ "public.users" := ["public.tenants"];
                   "public.orders" := ["public.users"] ]};
     Adjacency := {[ "public.tenants" := {[ "public.users" ]};
                     "public.users" := {[ "public.tenants"; "public.orders" ]};
                     "public.orders" := {[ "public.users" ]} ]} |}.

Example chain_order :
  TopoSort chain_graph ["public.orders"; "public.users"; "public.tenants"] =
  {| Order := ["public.tenants"; "public.users"; "public.orders"];
     HasCycle := false; CycleTables := [] |}.
Proof. by vm_compute. Qed.

Lemma TopoSort_parent_before_child_witness :
  before "public.tenants" "public.users"
    (Order (TopoSort chain_graph ["public.orders"; "public.users"; "public.tenants"])).
Proof.
  apply TopoSort_parent_before_child.
  - apply (bool_decide_unpack _). by vm_compute.
  - apply (bool_decide_unpack _). by vm_compute.
  - discriminate.
  - apply (bool_decide_unpack _). by vm_compute.
  - apply (bool_decide_unpack _). by vm_compute.
  - vm_compute. inversion 1.
  - vm_compute. inversion 1.
Defined.

(** A list that names a table twice is no subset: [q] is a parent of [c],
    neither is reported in a cycle, and [c] comes first. *)
Definition diamond_graph : Graph :=
  {| Tables := ∅; Edges := []; SelfRefs := ∅; Children := ∅;
     Parents := {[ "c" := ["p"; "q"]; "q" := ["r"] ]};
     Adjacency := ∅ |}.

Example TopoSort_repeated_table :
  TopoSort diamond_graph ["p"; "p"; "r"; "q"; "c"] =
  {| Order := ["p"; "p"; "r"; "c"; "q"]; HasCycle := false; CycleTables := [] |}.
Proof. by vm_compute. Qed.

(** ** Scenario 5: a cycle *)

Definition cycle_graph : Graph :=
  {| Tables := ∅; Edges := []; SelfRefs := ∅; Children := ∅;
     Parents := {[ "public.a" := ["public.b"]; "public.b" := ["public.a"] ]};
     Adjacency := ∅ |}.

Example cycle_reported :
  TopoSort cycle_graph ["public.a"; "public.b"] =
  {| Order := []; HasCycle := true; CycleTables := ["public.a"; "public.b"] |}.
Proof. by vm_compute. Qed.

(** ** Two tables without foreign keys *)

Definition plain_table (name : string) : Table :=
  {| tbl_Schema := "public"; tbl_Name := name;
     Columns := [intColumn "id" false 1];
     PrimaryKey_of := Some {| pk_Columns := ["id"] |};
     ForeignKeys := [] |}.

Definition two_tables_graph : Graph :=
  {| Tables := {[ "public.a" := plain_table "a"; "public.b" := plain_table "b" ]};
     Edges := []; SelfRefs := ∅; Children := ∅; Parents := ∅;
     Adjacency := {[ "public.a" := ∅; "public.b" := ∅ ]} |}.

(** C9. What the code does: [TopoSortAll] sorts nothing, so its [Order] follows
    the order in which the keys of [g.Tables] are met. For two tables without
    foreign keys, both enumerations of the map give different orders. *)
Theorem TopoSortAll_order_follows_map_iteration :
  map_range (Tables two_tables_graph) ["public.a"; "public.b"]
  ∧ map_range (Tables two_tables_graph) ["public.b"; "public.a"]
  ∧ Order (TopoSortAll two_tables_graph ["public.a"; "public.b"]) = ["public.a"; "public.b"]
  ∧ Order (TopoSortAll two_tables_graph ["public.b"; "public.a"]) = ["public.b"; "public.a"].
Proof.
  split; [|split; [|split; by vm_compute]].
  - unfold map_range. vm_compute (map_to_list _).*1.
    first [ reflexivity | apply Permutation_swap ].
  - unfold map_range. vm_compute (map_to_list _).*1.
    first [ reflexivity | apply Permutation_swap ].
Qed.

(** ** Scenario 2: a nullable foreign key *)

Definition posts_author_fk : ForeignKey := fk_to "posts_author_fk" "posts" "author_id" "users".

Definition posts_table : Table :=
  {| tbl_Schema := "public"; tbl_Name := "posts";
     Columns := [intColumn "id" false 1; intColumn "author_id" true 2];
     PrimaryKey_of := Some {| pk_Columns := ["id"] |};
     ForeignKeys := [posts_author_fk] |}.

Definition two_users : gmap string (list (list value)) :=
  {[ "public.users" := [[VInt 1]; [VInt 2]] ]}.

Lemma nullable_fk_wrapping_witness :
  isFKNullable posts_table posts_author_fk = true
  ∧ fkCondition posts_table two_users posts_author_fk 1 =
      Some (Some ("(author_id IN ($1, $2) OR author_id IS NULL)", [VInt 1; VInt 2], 3)).
Proof.
  assert (Hnd : NoDup (ColumnNames posts_table))
    by (apply (bool_decide_unpack _); by vm_compute).
  destruct (nullable_fk_wrapping posts_table two_users posts_author_fk 1
              [VInt 1] [[VInt 2]] Hnd eq_refl eq_refl) as (Hn & Hs & _).
  split.
  - apply Hn. exists (intColumn "author_id" true 2).
    split; [apply list_elem_of_further, list_elem_of_here|].
    split; [apply list_elem_of_here | reflexivity].
  - rewrite (Hs "author_id" eq_refl). by vm_compute.
Defined.

(** ** Escaping *)

(** C10. For every value, no byte of what [EscapeCopyValue] returns is a tab,
    a newline or a carriage return. *)
Theorem EscapeCopyValue_no_raw_separator v :
  Forall (fun c => c ≠ TAB ∧ c ≠ LF ∧ c ≠ CR) (list_ascii_of_string (EscapeCopyValue v)).
Proof.
  apply Forall_forall. intros c Hc.
  pose proof (all_bytes_elem _ _ _ (EscapeCopyValue_clean v) Hc) as H.
  unfold not_separator, is_raw_separator in H.
  apply negb_true_iff in H. apply orb_false_iff in H as [H H3].
  apply orb_false_iff in H as [H1 H2].
  apply Ascii.eqb_neq in H1, H2, H3. done.
Qed.

(** X17. Un-escaping escapeString(s) gives s back for every string s that is
    valid UTF-8, and the valid UTF-8 strings are exactly the encodings of
    sequences of Unicode scalar values (every ASCII string among them); for
    any byte string the result is s with each byte outside a valid sequence
    replaced by U+FFFD. Backslash, newline, carriage return and tab are
    written as the two-character escapes, every other rune as its UTF-8
    encoding. *)
Theorem escapeString_round_trip :
  (∀ s, unescape (escapeString s) = Some (to_valid_utf8 s))
  ∧ (∀ s, valid_utf8 s → unescape (escapeString s) = Some s)
  ∧ (∀ s, valid_utf8 s → decodeField (EscapeCopyValue (VString s)) = Some (Some s))
  ∧ (∀ s, all_bytes is_ascii s = true → valid_utf8 s)
  ∧ (∀ s, valid_utf8 s ↔ ∃ rs, Forall is_scalar rs ∧ s = utf8_of rs)
  ∧ (∀ s, escapeString s = foldr (fun r t => escapeRune r +:+ t) "" (range s))
  ∧ escapeRune 92 = "\\" ∧ escapeRune 10 = "\n" ∧ escapeRune 13 = "\r" ∧ escapeRune 9 = "\t"
  ∧ (∀ r, r ≠ 92 → r ≠ 10 → r ≠ 13 → r ≠ 9 → escapeRune r = encoderune r)
  ∧ (∀ c, is_ascii c = true → encoderune (byte_val c) = String c EmptyString).
Proof.
  split; [apply unescape_escapeString|].
  split; [intros s Hs; by rewrite unescape_escapeString, Hs|].
  split; [intros s Hs; cbn [EscapeCopyValue]; by rewrite decodeField_escapeString, Hs|].
  split; [apply ascii_valid_utf8|].
  split; [apply valid_utf8_iff|].
  split; [apply escapeString_runes|].
  repeat (split; [done|]).
  split.
  - intros r H92 H10 H13 H9. unfold escapeRune.
    destruct (Z.eqb_spec r 92); [done|]. destruct (Z.eqb_spec r 10); [done|].
    destruct (Z.eqb_spec r 13); [done|]. by destruct (Z.eqb_spec r 9).
  - intros c Hc. unfold is_ascii in Hc. apply Z.ltb_lt in Hc.
    pose proof (byte_val_bound c). unfold encoderune. cbv zeta.
    rewrite Z.mod_small by lia. destruct (Z.leb_spec (byte_val c) 0x7F); [|lia].
    by rewrite to_byte_byte_val.
Qed.

(** U+00E9, U+4E2D and U+1F600: runes of two, three and four bytes. *)
Definition wide_runes : list rune := [0xE9; 0x4E2D; 0x1F600].

Example escapeString_round_trip_wide :
  unescape (escapeString (utf8_of wide_runes)) = Some (utf8_of wide_runes)
  ∧ decodeField (EscapeCopyValue (VString "tab	and\backslash")) = Some (Some "tab	and\backslash").
Proof. split; by vm_compute. Qed.

(** ** Where the round trip fails *)

(** A string of the single byte 0xFF, which is not valid UTF-8. *)
Definition byte_FF : string := String (to_byte 0xFF) EmptyString.

(** U+FFFD in UTF-8: the bytes EF BF BD. *)
Definition replacement : string := encoderune RuneError.

(** Noon of 2024-01-15 in a zone at +05:30. *)
Definition noon_0530 : Time :=
  {| Year := 2024; Month := 1; Day := 15; Hour := 12; Minute := 0; Second := 0;
     Nanosecond := 0; Offset := 19800 |}.

(** The layout writes the sign of [offset / 60] and the hours of the
    offset; two offsets that agree on both give the same text. *)
Lemma Format_zone_hours t o o' :
  (Z.quot o 60 <? 0) = (Z.quot o' 60 <? 0) → Z.quot o 3600 = Z.quot o' 3600 →
  Format (withOffset t o) = Format (withOffset t o').
Proof.
  intros Hsign Hhours. unfold Format. cbn [withOffset Year Month Day Hour Minute Second
    Nanosecond Offset]. cbv zeta. rewrite <- Hsign.
  assert (Hq : ∀ x, Z.quot (Z.quot x 60) 60 = Z.quot x 3600)
    by (intros x; by rewrite Z.quot_quot by lia).
  destruct (Z.quot o 60 <? 0).
  - by rewrite !Z.quot_opp_l, !Hq, Hhours by lia.
  - by rewrite !Hq, Hhours.
Qed.

Lemma Unix_withOffset t o o' : Unix (withOffset t o) - Unix (withOffset t o') = o' - o.
Proof. unfold Unix. cbn [withOffset Year Month Day Hour Minute Second Offset]. lia. Qed.

Lemma noon_0530_wellFormed : wellFormed noon_0530 ∧ wellFormed (withOffset noon_0530 18000).
Proof. unfold wellFormed. cbn. lia. Qed.

(** C6. Where the round trip of [EscapeCopyValue] fails. A string that is not
    valid UTF-8 does not come back: the field decodes to the string with
    every byte outside a valid sequence replaced by U+FFFD, and the byte FF
    and U+FFFD itself are written as the same field, so that no decoder
    returns both. A time does not come back either: the layout writes the
    sign and the hours of the zone offset and drops its minutes; noon at
    +05:30 and noon at +05:00 are written as the same field although they
    lie 1800 seconds apart, so that no decoder returns the instant of every
    time. *)
Theorem EscapeCopyValue_round_trip_fails :
  (∀ s, decodeField (EscapeCopyValue (VString s)) = Some (Some (to_valid_utf8 s)))
  ∧ (∀ s, ¬ valid_utf8 s → decodeField (EscapeCopyValue (VString s)) ≠ Some (Some s))
  ∧ ¬ valid_utf8 byte_FF
  ∧ byte_FF ≠ replacement
  ∧ EscapeCopyValue (VString byte_FF) = replacement
  ∧ EscapeCopyValue (VString replacement) = replacement
  ∧ (∀ dec : string → option string, ¬ ∀ s, dec (EscapeCopyValue (VString s)) = Some s)
  ∧ (∀ t o o', (Z.quot o 60 <? 0) = (Z.quot o' 60 <? 0) → Z.quot o 3600 = Z.quot o' 3600 →
       EscapeCopyValue (ofTime (withOffset t o)) = EscapeCopyValue (ofTime (withOffset t o')))
  ∧ (∀ t o o', Unix (withOffset t o) - Unix (withOffset t o') = o' - o)
  ∧ wellFormed noon_0530
  ∧ wellFormed (withOffset noon_0530 18000)
  ∧ EscapeCopyValue (ofTime noon_0530) = "2024-01-15 12:00:00+05"
  ∧ EscapeCopyValue (ofTime (withOffset noon_0530 18000)) = "2024-01-15 12:00:00+05"
  ∧ Unix (withOffset noon_0530 18000) - Unix noon_0530 = 1800
  ∧ (∀ dec : string → option Time,
       ¬ ∀ t, wellFormed t →
           ∃ t', dec (EscapeCopyValue (ofTime t)) = Some t' ∧ Unix t' = Unix t).
Proof.
  assert (Hff : ¬ valid_utf8 byte_FF) by (by vm_compute).
  assert (Hne : byte_FF ≠ replacement) by (by vm_compute).
  assert (Hesc : EscapeCopyValue (VString byte_FF) = replacement) by (by vm_compute).
  assert (Hrep : EscapeCopyValue (VString replacement) = replacement) by (by vm_compute).
  destruct noon_0530_wellFormed as [Hwf1 Hwf2].
  split; [intros s; apply decodeField_escapeString|].
  split.
  { intros s Hs. cbn [EscapeCopyValue]. rewrite decodeField_escapeString.
    intros [= H]. by apply Hs. }
  do 4 (split; [done|]).
  split.
  { intros dec H. pose proof (H byte_FF) as H1. pose proof (H replacement) as H2.
    rewrite Hesc in H1. rewrite Hrep in H2. congruence. }
  split.
  { intros t o o' Hsign Hhours. unfold ofTime. by rewrite (Format_zone_hours t o o'). }
  split; [apply Unix_withOffset|].
  do 2 (split; [done|]).
  do 2 (split; [by vm_compute|]).
  split; [by vm_compute|].
  intros dec H.
  destruct (H _ Hwf1) as (t1 & H1 & U1). destruct (H _ Hwf2) as (t2 & H2 & U2).
  assert (Hsame : EscapeCopyValue (ofTime (withOffset noon_0530 18000))
                  = EscapeCopyValue (ofTime noon_0530)) by (by vm_compute).
  rewrite Hsame, H1 in H2. injection H2 as <-.
  rewrite U1 in U2. vm_compute in U2. discriminate.
Qed.

(** ** A run of scenario 1 *)

(** A stand-in for [fmt.Sprintf("%v", x)]. *)
Definition demo_Sprint (vs : list value) : string :=
  "[" +:+ Join (map EscapeCopyValue vs) " " +:+ "]".

(** A database that answers the three queries of the scenario; the query
    on [orders] fails after its first row when [orders_fail] is set. *)
Definition demo_exec (orders_fail : bool) (sql : string) (args : list value) : QueryResult :=
  if String.eqb sql "SELECT * FROM public.tenants WHERE id IN (1, 2)" then
    QRows [[VInt 1]; [VInt 2]] EndOk
  else if String.eqb sql "SELECT * FROM public.users WHERE tenant_id IN ($1, $2)" then
    QRows [[VInt 10; VInt 1]; [VInt 11; VInt 2]] EndOk
  else if orders_fail then
    QRows [[VInt 100; VInt 10]] (RowsErr (ExecError "connection reset"))
  else QRows [[VInt 100; VInt 10]] EndOk.

Definition demo_world (orders_fail : bool) : world :=
  {| exec := demo_exec orders_fail; io_fail := fun _ => None; trace := [] |}.

Definition demo_extractor (dry : bool) : Extractor :=
  {| cfg_Roots := [ {| root_Table := "tenants"; root_Where := "id IN (1, 2)" |} ];
     g := chain_graph; verbose := false; dryRun := dry |}.

Definition demo_run (dry orders_fail : bool) : res unit * state :=
  Extract demo_Sprint (demo_extractor dry)
    ["public.orders"; "public.users"; "public.tenants"] (New (demo_world orders_fail)).

Example demo_run_collects :
  (demo_run false false).1 = Ok tt
  ∧ map_to_list (collectedPKs (demo_run false false).2) =
      [("public.orders", [[VInt 100]]);
       ("public.users", [[VInt 10]; [VInt 11]]);
       ("public.tenants", [[VInt 1]; [VInt 2]])]
  ∧ length (writes (trace (env (demo_run false false).2))) = 19%nat.
Proof. by vm_compute. Qed.

Example demo_run_query_error :
  (demo_run false true).1 =
    Err (Wrapped "extracting child public.orders" (ExecError "connection reset"))
  ∧ writes (trace (env (demo_run false true).2)) = []
  ∧ length (queries (trace (env (demo_run false true).2))) = 3%nat.
Proof. by vm_compute. Qed.

Example demo_run_dry :
  (demo_run true true).1 = Ok tt
  ∧ trace (env (demo_run true true).2) =
      [EvPrint ("[root] public.tenants: SELECT * FROM public.tenants WHERE id IN (1, 2)" +:+ NL)].
Proof. by vm_compute. Qed.

Lemma chain_graph_keyed : keyed_by_full_name chain_graph.
Proof.
  intros name tbl H. unfold chain_graph in H. cbn [Tables] in H.
  apply lookup_insert_Some in H as [[<- <-]|[_ H]]; [done|].
  apply lookup_insert_Some in H as [[<- <-]|[_ H]]; [done|].
  apply lookup_singleton_Some in H as [<- <-]. done.
Qed.

Lemma collected_keys_match_rows_witness :
  let st := (demo_run false true).2 in
  length (getList (collectedPKs st) "public.orders")
  = length (getList (collected st) "public.orders").
Proof.
  destruct (collected_keys_match_rows demo_Sprint (demo_extractor false) chain_graph_keyed)
    as (_ & _ & _ & H & _).
  apply (H ["public.orders"; "public.users"; "public.tenants"] (demo_world true)
           "public.orders" orders_table); [by vm_compute|by eexists].
Defined.

(** ** Scenario 3 and the cap of 10,000 *)

Lemma composite_fk_condition_witness :
  buildCompositeIN order_lines_fk
    [[VInt 1; VInt 100]; [VInt 1; VInt 101]; [VInt 2; VInt 200]] false 1 =
  ("(tenant_id, order_no) IN (($1, $2), ($3, $4), ($5, $6))",
   [VInt 1; VInt 100; VInt 1; VInt 101; VInt 2; VInt 200], 7).
Proof.
  destruct (composite_fk_condition order_lines_fk
              [[VInt 1; VInt 100]; [VInt 1; VInt 101]; [VInt 2; VInt 200]] 1) as [H _].
  rewrite H. by vm_compute.
Defined.

Lemma value_set_cap_witness :
  Z.of_nat (length (buildCompositeIN order_lines_fk many_orders false 1).1.2) = 20000
  ∧ (buildCompositeIN order_lines_fk many_orders false 1).2 = 20001.
Proof.
  destruct (value_set_cap order_lines_fk many_orders false 1)
    as (_ & _ & Hlen & _ & _ & _ & Hargs & Hnext).
  assert (Hmany : length many_orders = Z.to_nat 10001) by apply length_replicate.
  rewrite Hmany in Hlen.
  assert (Hused : length (take (Z.to_nat 10000) many_orders) = Z.to_nat 10000) by lia.
  split.
  - rewrite Hargs, tupleBinds_total_length, Hused.
    change (length (ChildColumns order_lines_fk)) with 2%nat. lia.
  - rewrite Hnext, Hused. change (length (ChildColumns order_lines_fk)) with 2%nat. lia.
Defined.

(* ================================================================== *)
(** * Further properties: the result of TopoSort                       *)
(* ================================================================== *)

(** ** What [TopoSort] returns: coverage and cycles *)

(** An edge child→parent of [g.Parents] between two tables of the list. *)
Definition local_parent (g : Graph) (tables : list string) (c p : string) : Prop :=
  c ∈ tables ∧ p ∈ tables ∧ p ∈ getList (Parents g) c.

(** The state in which the loop of [TopoSort] ends. *)
Record topo_end (g : Graph) (tables order : list string) (inDeg : gmap string Z) : Prop := {
  te_nodup : NoDup order;
  te_order : ∀ c, c ∈ order ↔ c ∈ tables ∧ getInt inDeg c = 0;
  te_deg : ∀ c, c ∈ tables → 0 < getInt inDeg c →
             ∃ p, local_parent g tables c p ∧ p ∉ order;
  te_nonneg : ∀ c, 0 ≤ getInt inDeg c;
  te_sorted : ∀ l1 c l2, order = l1 ++ c :: l2 →
                ∀ p, local_parent g tables c p → p ∈ l1
}.

Lemma pending_pos {A} `{EqDecision A} (seen l : list A) :
  (0 < pending seen l)%nat → ∃ y, y ∈ l ∧ y ∉ seen.
Proof.
  unfold pending. intros H.
  destruct (filter (fun y => y ∉ seen) l) as [|y k] eqn:E; [simpl in H; lia|].
  assert (y ∈ filter (fun y => y ∉ seen) l) as Hy by (rewrite E; apply list_elem_of_here).
  apply list_elem_of_filter in Hy as [? ?]. by exists y.
Qed.

Lemma topoState_end g tables :
  NoDup tables →
  topo_end g tables (topoState g tables).2.2 (topoState g tables).2.1.1
  ∧ (topoState g tables).2.1.2 = [].
Proof.
  intros Hnd. destruct (topoState_ok g tables Hnd) as [Hlok Hk].
  pose proof (buildLocals_ok g tables tables (initLocals tables)
                (fun _ H => H) (initLocals_ok g tables)) as Hok.
  assert ((topoState g tables).1
          = buildLocals g (list_to_set tables) tables (initLocals tables)) as Hloc
    by reflexivity.
  rewrite <- Hloc in Hok.
  pose proof (topoState_queue_empty g tables) as Hq.
  destruct (topoState g tables) as [loc [[inDeg queue] order]]. cbn [fst snd] in *.
  destruct Hk as [Hdeg Hndo Hzero Hsorted]. rewrite app_nil_r in *.
  split; [split|].
  - done.
  - done.
  - intros c Hc Hpos. rewrite Hdeg in Hpos.
    destruct (pending_pos order (getList (localParents loc) c)) as (p & Hp & Hpo); [lia|].
    exists p. split; [|done]. by apply (lo_sound _ _ _ Hok).
  - intros c. rewrite Hdeg. lia.
  - intros l1 c l2 Heq p (Hc & Hp & Hcp). apply (Hsorted l1 c l2 Heq). by apply Hlok.
  - exact Hq.
Qed.

(** The result of [TopoSort] in terms of the final state of its loop. *)
Lemma TopoSort_end g tables :
  NoDup tables →
  ∃ inDeg,
    topo_end g tables (Order (TopoSort g tables)) inDeg
    ∧ HasCycle (TopoSort g tables)
      = bool_decide (length (Order (TopoSort g tables)) < length tables)%nat
    ∧ CycleTables (TopoSort g tables)
      = if HasCycle (TopoSort g tables)
        then filter (fun t => 0 < getInt inDeg t) tables else [].
Proof.
  intros Hnd. destruct (topoState_end g tables Hnd) as [Hend _].
  unfold TopoSort. destruct (topoState g tables) as [loc [[inDeg queue] order]].
  cbn [fst snd] in *. exists inDeg.
  destruct (Nat.ltb_spec (length order) (length tables)); cbn [Order HasCycle CycleTables].
  - by rewrite bool_decide_true.
  - by rewrite bool_decide_false by lia.
Qed.

Lemma topo_end_order_sub g tables order inDeg :
  topo_end g tables order inDeg → order ⊆+ tables.
Proof.
  intros H. apply NoDup_submseteq; [apply (te_nodup _ _ _ _ H)|].
  intros x Hx. by apply (te_order _ _ _ _ H) in Hx as [? _].
Qed.

Lemma topo_end_cover g tables order inDeg :
  NoDup tables → topo_end g tables order inDeg →
  order ++ filter (fun t => 0 < getInt inDeg t) tables ≡ₚ tables.
Proof.
  intros Hnd H. apply NoDup_Permutation; [|done|].
  - apply NoDup_app. split; [apply (te_nodup _ _ _ _ H)|]. split; [|by apply NoDup_filter].
    intros x Hx Hf. apply (te_order _ _ _ _ H) in Hx as [_ Hx].
    apply list_elem_of_filter in Hf as [Hf _]. lia.
  - intros x. rewrite elem_of_app, list_elem_of_filter, (te_order _ _ _ _ H).
    pose proof (te_nonneg _ _ _ _ H x). split; [tauto|].
    intros Hx. destruct (decide (getInt inDeg x = 0)); [left|right]; split; try done; lia.
Qed.

(** X3. For a list of tables without repeated names, Order and CycleTables of
    TopoSort together hold every table of the list exactly once; HasCycle is
    set exactly when CycleTables is not empty, and when it is not set Order
    is a permutation of the list. *)
Theorem TopoSort_covers_tables g tables :
  NoDup tables →
  Order (TopoSort g tables) ++ CycleTables (TopoSort g tables) ≡ₚ tables
  ∧ (HasCycle (TopoSort g tables) = true ↔ CycleTables (TopoSort g tables) ≠ [])
  ∧ (HasCycle (TopoSort g tables) = false → Order (TopoSort g tables) ≡ₚ tables).
Proof.
  intros Hnd. destruct (TopoSort_end g tables Hnd) as (inDeg & Hend & Hhas & Hcyc).
  pose proof (topo_end_cover g tables _ inDeg Hnd Hend) as Hcover.
  pose proof (topo_end_order_sub _ _ _ _ Hend) as Hsub.
  rewrite Hcyc, Hhas. clear Hcyc Hhas.
  destruct (bool_decide_reflect (length (Order (TopoSort g tables)) < length tables)%nat)
    as [Hlt|Hge].
  - split; [done|]. split; [|done]. split; [|done]. intros _ Hnil.
    rewrite Hnil, app_nil_r in Hcover. apply Permutation_length in Hcover. lia.
  - assert (Order (TopoSort g tables) ≡ₚ tables) as Hperm.
    { apply submseteq_length_Permutation; [done|lia]. }
    split; [by rewrite app_nil_r|]. split; [|done]. split; [done|]. by intros [].
Qed.

(** ** Walks along a relation *)

Section walks.
Context {A : Type} `{EqDecision A} (R : relation A).

(** [x], then the entries of [w], each related to the next. *)
Fixpoint chain (x : A) (w : list A) : Prop :=
  match w with
  | [] => True
  | y :: w' => R x y ∧ chain y w'
  end.

Lemma chain_tc x w y : chain x w → y ∈ w → tc R x y.
Proof.
  revert x. induction w as [|z w IH]; intros x Hc Hy; [inversion Hy|].
  destruct Hc as [Hxz Hc]. apply elem_of_cons in Hy as [->|Hy].
  - by apply tc_once.
  - eapply tc_l; [exact Hxz|]. by apply IH.
Qed.

(** A walk that visits some entry twice runs into a cycle. *)
Lemma chain_repeats x w :
  chain x w → ¬ NoDup (x :: w) → ∃ u, rtc R x u ∧ tc R u u.
Proof.
  revert x. induction w as [|y w IH]; intros x Hc Hnd.
  - exfalso. apply Hnd. apply NoDup_singleton.
  - destruct (decide (x ∈ y :: w)) as [Hin|Hnin].
    + exists x. split; [done|]. by eapply chain_tc.
    + destruct Hc as [Hxy Hc]. destruct (IH y Hc) as (u & Hyu & Hu).
      * intros Hnd'. apply Hnd. by apply NoDup_cons.
      * exists u. split; [|done]. by eapply rtc_l.
Qed.

Variable l : list A.
Hypothesis Hsucc : ∀ x, x ∈ l → ∃ y, y ∈ l ∧ R x y.

Lemma walk_from n x :
  x ∈ l → ∃ w, length w = n ∧ chain x w ∧ ∀ y, y ∈ w → y ∈ l.
Proof.
  revert x. induction n as [|n IH]; intros x Hx.
  - exists []. split; [done|]. split; [done|]. inversion 1.
  - destruct (Hsucc x Hx) as (y & Hy & Hxy). destruct (IH y Hy) as (w & Hlen & Hc & Hin).
    exists (y :: w). split; [simpl; by rewrite Hlen|]. split; [done|].
    intros z [->|Hz]%elem_of_cons; auto.
Qed.

(** Where every entry has a successor in the list, every entry leads
    to a cycle. *)
Lemma leads_to_cycle x : x ∈ l → ∃ u, rtc R x u ∧ tc R u u.
Proof.
  intros Hx. destruct (walk_from (length l) x Hx) as (w & Hlen & Hc & Hin).
  apply (chain_repeats x w Hc). intros Hnd.
  assert (x :: w ⊆+ l) as Hsub.
  { apply NoDup_submseteq; [done|]. intros z [->|Hz]%elem_of_cons; auto. }
  apply submseteq_length in Hsub. simpl in Hsub. lia.
Qed.
End walks.

(** ** Cycles *)

Lemma split_unique {A} (x : A) l1 l2 m1 m2 :
  NoDup (l1 ++ x :: l2) → l1 ++ x :: l2 = m1 ++ x :: m2 → l1 = m1 ∧ l2 = m2.
Proof.
  revert m1. induction l1 as [|y l1 IH]; intros m1 Hnd Heq.
  - destruct m1 as [|z m1]; simpl in *.
    + by injection Heq as ->.
    + injection Heq as <- ->. apply NoDup_cons in Hnd as [Hx _].
      exfalso. apply Hx, elem_of_app. right. apply list_elem_of_here.
  - destruct m1 as [|z m1]; simpl in *.
    + injection Heq as -> _. apply NoDup_cons in Hnd as [Hx _].
      exfalso. apply Hx, elem_of_app. right. apply list_elem_of_here.
    + injection Heq as -> Heq. apply NoDup_cons in Hnd as [_ Hnd].
      destruct (IH m1 Hnd Heq) as [-> ->]. done.
Qed.

Lemma before_trans x y z l :
  NoDup l → before x y l → before y z l → before x z l.
Proof.
  intros Hnd (l1 & l2 & l3 & H1) (m1 & m2 & m3 & H2).
  assert (l = (l1 ++ x :: l2) ++ y :: l3) as H1' by (by rewrite <- app_assoc).
  rewrite H2 in H1'. rewrite H2 in Hnd.
  destruct (split_unique y _ _ _ _ Hnd H1') as [-> Hm].
  exists l1, (l2 ++ y :: m2), m3. rewrite H2. by rewrite <- !app_assoc.
Qed.

Lemma before_irrefl x l : NoDup l → ¬ before x x l.
Proof.
  intros Hnd (l1 & l2 & l3 & ->). apply NoDup_app in Hnd as (_ & _ & Hnd).
  apply NoDup_cons in Hnd as [Hx _]. apply Hx, elem_of_app. right. apply list_elem_of_here.
Qed.

Lemma before_elem x y l : before x y l → x ∈ l ∧ y ∈ l.
Proof.
  intros (l1 & l2 & l3 & ->). split.
  - apply elem_of_app. right. apply list_elem_of_here.
  - apply elem_of_app. right. apply list_elem_of_further, elem_of_app. right.
    apply list_elem_of_here.
Qed.

Section ordered.
Variables (g : Graph) (tables order : list string) (inDeg : gmap string Z).
Hypothesis Hend : topo_end g tables order inDeg.

(** Every table of [Order] stands behind all its parents. *)
Lemma ordered_edge c p : c ∈ order → local_parent g tables c p → before p c order.
Proof.
  intros Hc Hcp. apply list_elem_of_split in Hc as (l1 & l3 & Heq).
  pose proof (te_sorted _ _ _ _ Hend l1 c l3 Heq p Hcp) as Hp.
  apply list_elem_of_split in Hp as (l1a & l2 & ->).
  exists l1a, l2, l3. rewrite Heq. by rewrite <- app_assoc.
Qed.

Lemma ordered_tc c p : tc (local_parent g tables) c p → c ∈ order → before p c order.
Proof.
  induction 1 as [c p Hcp|c q p Hcq _ IH]; intros Hc; [by apply ordered_edge|].
  pose proof (ordered_edge c q Hc Hcq) as Hqc.
  eapply before_trans; [apply (te_nodup _ _ _ _ Hend)| |exact Hqc].
  apply IH. by apply before_elem in Hqc as [? _].
Qed.

Lemma ordered_rtc c p : rtc (local_parent g tables) c p → c ∈ order → p ∈ order.
Proof.
  induction 1 as [|c q p Hcq _ IH]; [done|]. intros Hc. apply IH.
  by destruct (before_elem _ _ _ (ordered_edge c q Hc Hcq)).
Qed.

(** No table of [Order] leads to a cycle. *)
Lemma ordered_acyclic t u :
  t ∈ order → rtc (local_parent g tables) t u → ¬ tc (local_parent g tables) u u.
Proof.
  intros Ht Htu Hu. apply (before_irrefl u order (te_nodup _ _ _ _ Hend)).
  apply ordered_tc; [done|]. by eapply ordered_rtc.
Qed.

(** A table left with a positive in-degree waits for a table in the
    same situation. *)
Lemma blocked_parent c :
  c ∈ filter (fun t => 0 < getInt inDeg t) tables →
  ∃ p, p ∈ filter (fun t => 0 < getInt inDeg t) tables ∧ local_parent g tables c p.
Proof.
  intros [Hpos Hc]%list_elem_of_filter.
  destruct (te_deg _ _ _ _ Hend c Hc Hpos) as (p & Hcp & Hp).
  exists p. split; [|done]. apply list_elem_of_filter.
  destruct Hcp as (_ & Hpt & _). split; [|done].
  pose proof (te_nonneg _ _ _ _ Hend p).
  destruct (decide (getInt inDeg p = 0)) as [H0|]; [|lia].
  exfalso. apply Hp, (te_order _ _ _ _ Hend). done.
Qed.
End ordered.

(** X4. For a list of tables without repeated names, TopoSort reports a table in
    CycleTables exactly when the table, following parent edges inside the
    list, reaches a table that lies on a cycle (tables that depend on a
    cycle are reported with it); HasCycle is set exactly when the list holds
    a cycle of parent edges, and every reported table has a reported parent. *)
Theorem TopoSort_cycle_tables g tables :
  NoDup tables →
  (∀ t, t ∈ CycleTables (TopoSort g tables) ↔
        t ∈ tables ∧ ∃ u, rtc (local_parent g tables) t u ∧ tc (local_parent g tables) u u)
  ∧ (HasCycle (TopoSort g tables) = true ↔ ∃ u, tc (local_parent g tables) u u)
  ∧ (∀ t, t ∈ CycleTables (TopoSort g tables) →
          ∃ p, p ∈ CycleTables (TopoSort g tables) ∧ p ∈ getList (Parents g) t).
Proof.
  intros Hnd. destruct (TopoSort_end g tables Hnd) as (inDeg & Hend & Hhas & Hcyc).
  pose proof (topo_end_cover g tables _ inDeg Hnd Hend) as Hcover.
  pose proof (topo_end_order_sub _ _ _ _ Hend) as Hsub.
  set (stuck := filter (fun t => 0 < getInt inDeg t) tables) in *.
  assert (Hstuck : ∀ t, t ∈ stuck ↔
            t ∈ tables ∧ ∃ u, rtc (local_parent g tables) t u
                              ∧ tc (local_parent g tables) u u).
  { intros t. split.
    - intros Ht. split; [by apply list_elem_of_filter in Ht as [_ ?]|].
      apply (leads_to_cycle (local_parent g tables) stuck); [|done].
      intros x Hx. by apply (blocked_parent g tables _ inDeg Hend).
    - intros (Ht & u & Htu & Hu).
      assert (t ∈ Order (TopoSort g tables) ++ stuck) as Hin by (by rewrite Hcover).
      apply elem_of_app in Hin as [Hin|Hin]; [|done].
      exfalso. by apply (ordered_acyclic g tables _ inDeg Hend t u). }
  assert (Hcycle : HasCycle (TopoSort g tables) = true ↔
            ∃ u, tc (local_parent g tables) u u).
  { rewrite Hhas. split.
    - intros Hlt%bool_decide_eq_true.
      destruct stuck as [|t stuck'] eqn:E.
      + rewrite app_nil_r in Hcover. apply Permutation_length in Hcover. lia.
      + destruct (proj1 (Hstuck t)) as (_ & u & _ & Hu); [apply list_elem_of_here|].
        by exists u.
    - intros (u & Hu). apply bool_decide_eq_true.
      assert (u ∈ tables) as Hut.
      { clear -Hu. inversion Hu as [? ? (H & _)|? ? ? (H & _)]; subst; done. }
      assert (u ∈ stuck) as Hus by (apply Hstuck; split; [done|by exists u]).
      apply Permutation_length in Hcover. rewrite length_app in Hcover.
      destruct stuck; [inversion Hus|]. simpl in Hcover. lia. }
  split; [|split; [done|]].
  - intros t. rewrite Hcyc. destruct (HasCycle (TopoSort g tables)) eqn:Hh; [done|].
    split; [inversion 1|]. intros (_ & u & _ & Hu). exfalso.
    assert (false = true) by (apply Hcycle; by exists u). done.
  - intros t. rewrite Hcyc. destruct (HasCycle (TopoSort g tables)); [|inversion 1].
    intros Ht. destruct (blocked_parent g tables _ inDeg Hend t Ht) as (p & Hp & _ & _ & Hcp).
    by exists p.
Qed.

(** Two tables in a cycle, a table that depends on one of them and a
    table on its own. *)
Definition stuck_graph : Graph :=
  {| Tables := ∅; Edges := []; SelfRefs := ∅; Children := ∅;
     Parents := {[ "public.a" := ["public.b"]; "public.b" := ["public.a"];
                   "public.c" := ["public.a"] ]};
     Adjacency := ∅ |}.

Definition stuck_tables : list string := ["public.c"; "public.d"; "public.a"; "public.b"].

Example stuck_reported :
  TopoSort stuck_graph stuck_tables =
  {| Order := ["public.d"]; HasCycle := true;
     CycleTables := ["public.c"; "public.a"; "public.b"] |}.
Proof. by vm_compute. Qed.

Lemma stuck_tables_NoDup : NoDup stuck_tables.
Proof. apply (bool_decide_unpack _). by vm_compute. Qed.

Lemma TopoSort_covers_tables_witness :
  Order (TopoSort stuck_graph stuck_tables) ++ CycleTables (TopoSort stuck_graph stuck_tables)
    ≡ₚ stuck_tables.
Proof. apply (TopoSort_covers_tables stuck_graph stuck_tables stuck_tables_NoDup). Defined.

Lemma TopoSort_cycle_tables_witness :
  ∃ u, tc (local_parent stuck_graph stuck_tables) u u.
Proof.
  apply (TopoSort_cycle_tables stuck_graph stuck_tables stuck_tables_NoDup). reflexivity.
Defined.

(** ** The bound on the iterations of the work-list loop *)

Lemma kahn_more_fuel fuel extra : ∀ lc inDeg queue order,
  (kahn fuel lc inDeg queue order).1.2 = [] →
  kahn (fuel + extra) lc inDeg queue order = kahn fuel lc inDeg queue order.
Proof.
  induction fuel as [|fuel IH]; intros lc inDeg queue order Hq.
  - destruct queue; [by destruct extra|]. simpl in Hq. done.
  - destruct queue as [|node queue]; [done|]. simpl in *.
    destruct (relax (getList lc node) inDeg queue) as [inDeg' queue']. by apply IH.
Qed.

Theorem TopoSort_loop_terminates g tables extra :
  let tableSet : gset string := list_to_set tables in
  let loc := buildLocals g tableSet tables (initLocals tables) in
  let queue := filter (fun t => getInt (inDegree loc) t = 0) tables in
  (kahn (length tables) (localChildren loc) (inDegree loc) queue []).1.2 = []
  ∧ kahn (length tables + extra) (localChildren loc) (inDegree loc) queue []
    = kahn (length tables) (localChildren loc) (inDegree loc) queue [].
Proof.
  intros tableSet loc queue.
  pose proof (topoState_queue_empty g tables) as Hq. unfold topoState in Hq. cbn [snd] in Hq.
  split; [exact Hq|]. by apply kahn_more_fuel.
Qed.

(* ================================================================== *)
(** * Further properties: the graph that Build returns                 *)
(* ================================================================== *)

(** ** [Build] *)

(** The key under which [Build] looks up the parent of a foreign key. *)
Definition parentKeyOf (fk : ForeignKey) : string :=
  ParentSchema fk +:+ "." +:+ ParentTable fk.

(** The tables that the first loop keeps. *)
Definition kept (tables : gmap string Table) (excludeSet : gset string)
    : gmap string Table :=
  filter (fun kv => tbl_Name kv.2 ∉ excludeSet) tables.

(** The neighbours of a table; a missing entry reads as the empty map. *)
Definition adjacent (g : Graph) (n : string) : gset string :=
  default ∅ (Adjacency g !! n).

Lemma foldlO_app {A B} (f : A → B → option A) a l1 l2 :
  foldlO f a (l1 ++ l2) =
  match foldlO f a l1 with Some a' => foldlO f a' l2 | None => None end.
Proof.
  revert a. induction l1 as [|x l1 IH]; intros a; simpl; [done|].
  destruct (f a x); [apply IH|done].
Qed.

Lemma foldlO_invariant {A B} (P : A → Prop) (f : A → B → option A) (l : list B) :
  (∀ a b, b ∈ l → P a → ∃ a', f a b = Some a' ∧ P a') →
  ∀ a, P a → ∃ a', foldlO f a l = Some a' ∧ P a'.
Proof.
  induction l as [|x l IH]; intros Hstep a Ha; simpl; [by exists a|].
  destruct (Hstep a x (list_elem_of_here _ _) Ha) as (a1 & -> & Ha1).
  apply IH; [|done]. intros a' b Hb. apply Hstep. by apply list_elem_of_further.
Qed.

(** *** The first loop *)

Lemma keepTable_loop tables excludeSet keys :
  let g0 := foldl (keepTable tables excludeSet) emptyGraph keys in
  (∀ k, Tables g0 !! k =
        if decide (k ∈ keys) then kept tables excludeSet !! k else None)
  ∧ (∀ k, is_Some (Adjacency g0 !! k) ↔ is_Some (Tables g0 !! k))
  ∧ (∀ k s, Adjacency g0 !! k = Some s → s = ∅)
  ∧ Edges g0 = [] ∧ SelfRefs g0 = ∅ ∧ Children g0 = ∅ ∧ Parents g0 = ∅.
Proof.
  induction keys as [|x keys IH] using rev_ind.
  - cbv zeta. cbn [foldl]. unfold emptyGraph. cbn [Tables Adjacency Edges SelfRefs Children Parents].
    split; [|split; [|split; [|done]]].
    + intros k. rewrite lookup_empty. destruct (decide (k ∈ [])) as [H|]; [inversion H|done].
    + intros k. rewrite !lookup_empty. split; by intros [? ?].
    + intros k s. by rewrite lookup_empty.
  - cbv zeta in *. rewrite foldl_app. cbn [foldl].
    set (g0 := foldl (keepTable tables excludeSet) emptyGraph keys) in *.
    destruct IH as (Ht & Hadj & Hemp & He & Hs & Hc & Hp).
    assert (Hx : ∀ k, (if decide (k ∈ keys ++ [x]) then kept tables excludeSet !! k else None)
                 = if decide (k = x) then kept tables excludeSet !! k
                   else if decide (k ∈ keys) then kept tables excludeSet !! k else None).
    { intros k. destruct (decide (k = x)) as [->|Hne].
      - rewrite decide_True; [done|]. apply elem_of_app. right. apply list_elem_of_here.
      - destruct (decide (k ∈ keys)) as [Hin|Hnin].
        + rewrite decide_True; [done|]. apply elem_of_app. by left.
        + rewrite decide_False; [done|]. intros [?|?%list_elem_of_singleton]%elem_of_app; done. }
    unfold keepTable. destruct (tables !! x) as [tbl|] eqn:Hlk.
    + destruct (bool_decide_reflect (tbl_Name tbl ∈ excludeSet)) as [Hex|Hex].
      * split; [|done]. intros k. rewrite Hx, Ht. destruct (decide (k = x)) as [->|]; [|done].
        unfold kept. rewrite map_lookup_filter, Hlk. simpl.
        rewrite option_guard_False by (intros H; by apply H).
        by case_decide.
      * cbn [Tables Adjacency Edges SelfRefs Children Parents].
        split; [|split; [|split; [|done]]].
        -- intros k. rewrite Hx, lookup_insert. destruct (decide (x = k)) as [->|Hne].
           ++ rewrite decide_True by done. unfold kept.
              rewrite map_lookup_filter, Hlk. simpl. by rewrite option_guard_True.
           ++ rewrite decide_False by done. apply Ht.
        -- intros k. rewrite !lookup_insert. destruct (decide (x = k)); [|apply Hadj].
           split; eauto.
        -- intros k s. rewrite lookup_insert. destruct (decide (x = k)); [|apply Hemp].
           by intros [= <-].
    + split; [|done]. intros k. rewrite Hx, Ht. destruct (decide (k = x)) as [->|]; [|done].
      unfold kept. rewrite map_lookup_filter, Hlk. simpl. by case_decide.
Qed.

(** *** The second loop *)

(** A foreign key that the second loop makes of a virtual relation. *)
Definition virtual_fk (vrs : list VirtualRelation) (child : Table) (fk : ForeignKey) : Prop :=
  ChildSchema fk = tbl_Schema child ∧ ChildTable fk = tbl_Name child ∧
  ∃ vr, vr ∈ vrs ∧ ChildColumns fk = [vr_ChildColumn vr]
        ∧ ParentColumns fk = [vr_ParentColumn vr]
        ∧ Virtual fk = vr_Type vr ∧ JSONPath fk = vr_JSONPath vr.

(** [tbl] is [tbl0] with virtual foreign keys appended. *)
Definition extends (vrs : list VirtualRelation) (tbl0 tbl : Table) : Prop :=
  ∃ added, tbl = withForeignKeys tbl0 (ForeignKeys tbl0 ++ added)
           ∧ Forall (virtual_fk vrs tbl0) added.

Definition tables_extend (vrs : list VirtualRelation) (T0 T : gmap string Table) : Prop :=
  ∀ k, option_Forall2 (extends vrs) (T0 !! k) (T !! k).

Lemma extends_refl vrs tbl : extends vrs tbl tbl.
Proof. exists []. split; [|constructor]. destruct tbl. unfold withForeignKeys. simpl. by rewrite app_nil_r. Qed.

Lemma extends_nil tbl0 tbl : extends [] tbl0 tbl → tbl = tbl0.
Proof.
  intros (added & -> & Hadded). destruct added as [|fk added].
  - destruct tbl0. unfold withForeignKeys. simpl. by rewrite app_nil_r.
  - apply Forall_cons in Hadded as [(_ & _ & vr & Hvr & _) _]. inversion Hvr.
Qed.

Lemma tables_extend_refl vrs T : tables_extend vrs T T.
Proof. intros k. destruct (T !! k); constructor. apply extends_refl. Qed.

Lemma findTableKey_present tbls name keys :
  findTableKey tbls name keys = "" ∨ is_Some (tbls !! findTableKey tbls name keys).
Proof.
  unfold findTableKey. destruct (tbls !! name) eqn:Hn; [right; by rewrite Hn|].
  destruct (find _ keys) as [key|] eqn:Hf; [|by left].
  apply find_some in Hf as [_ Hf]. right. destruct (tbls !! key); [eauto|done].
Qed.

Lemma injectVirtual_extends vrs ckeys pkeys T0 tbls vr :
  vr ∈ vrs → tables_extend vrs T0 tbls →
  ∃ tbls', injectVirtual ckeys pkeys tbls vr = Some tbls' ∧ tables_extend vrs T0 tbls'.
Proof.
  intros Hvr Hext. unfold injectVirtual. cbv zeta.
  set (childKey := findTableKey tbls (vr_ChildTable vr) ckeys).
  set (parentKey := findTableKey tbls (vr_ParentTable vr) pkeys).
  destruct (String.eqb_spec childKey "") as [Hc|Hc]; [by exists tbls|].
  destruct (String.eqb_spec parentKey "") as [Hp|Hp]; [by exists tbls|]. cbn [orb].
  destruct (findTableKey_present tbls (vr_ChildTable vr) ckeys) as [?|[child Hchild]]; [done|].
  destruct (findTableKey_present tbls (vr_ParentTable vr) pkeys) as [?|[parent Hparent]];
    [done|].
  fold childKey in Hchild. fold parentKey in Hparent. rewrite Hchild, Hparent.
  eexists. split; [done|]. intros k. rewrite lookup_insert.
  destruct (decide (childKey = k)) as [<-|]; [|apply Hext].
  specialize (Hext childKey). rewrite Hchild in Hext.
  inversion Hext as [tbl0 ? (added & -> & Hadded) H0 H1|]; subst. constructor.
  exists (added ++ [ {| Name := "virtual_" +:+ tbl_Name tbl0 +:+ "_" +:+ vr_ChildColumn vr
                              +:+ "_" +:+ tbl_Name parent;
                      ChildSchema := tbl_Schema tbl0; ChildTable := tbl_Name tbl0;
                      ChildColumns := [vr_ChildColumn vr];
                      ParentSchema := tbl_Schema parent; ParentTable := tbl_Name parent;
                      ParentColumns := [vr_ParentColumn vr];
                      IsSelfRef := String.eqb childKey parentKey;
                      Virtual := vr_Type vr; JSONPath := vr_JSONPath vr |} ]).
  split.
  - unfold withForeignKeys. cbn. by rewrite app_assoc.
  - apply Forall_app. split; [done|]. constructor; [|constructor].
    split; [done|]. split; [done|]. exists vr. done.
Qed.

Lemma injectAll_extends vrs lookupKeys T0 rest : ∀ i tbls,
  (∀ vr, vr ∈ rest → vr ∈ vrs) → tables_extend vrs T0 tbls →
  ∃ tbls', injectAll lookupKeys i tbls rest = Some tbls' ∧ tables_extend vrs T0 tbls'.
Proof.
  induction rest as [|vr rest IH]; intros i tbls Hsub Hext; [by exists tbls|].
  cbn [injectAll].
  destruct (injectVirtual_extends vrs (lookupKeys i false) (lookupKeys i true) T0 tbls vr)
    as (tbls1 & -> & Hext1); [apply Hsub, list_elem_of_here|done|].
  apply IH; [|done]. intros vr' Hvr'. by apply Hsub, list_elem_of_further.
Qed.

(** *** The third loop *)

(** Whether the third loop turns [fk] into an edge: its parent is a table
    of the graph and it is no self-reference. *)
Definition edgeFK (T : gmap string Table) (fk : ForeignKey) : bool :=
  bool_decide (is_Some (T !! parentKeyOf fk)) && negb (IsSelfRef fk).

Definition selfFK (T : gmap string Table) (fk : ForeignKey) : bool :=
  bool_decide (is_Some (T !! parentKeyOf fk)) && IsSelfRef fk.

Record edges_ok (T : gmap string Table) (g : Graph) : Prop := {
  eo_tables : Tables g = T;
  eo_adj_dom : ∀ k, is_Some (Adjacency g !! k) ↔ is_Some (T !! k);
  eo_edges : ∀ e, e ∈ Edges g →
    ∃ tbl, T !! edge_ChildTable e = Some tbl ∧ FK e ∈ ForeignKeys tbl
           ∧ edgeFK T (FK e) = true ∧ edge_ParentTable e = parentKeyOf (FK e);
  eo_parents : ∀ c p, p ∈ getList (Parents g) c ↔
    ∃ e, e ∈ Edges g ∧ edge_ChildTable e = c ∧ edge_ParentTable e = p;
  eo_children : ∀ c p, occ c (getList (Children g) p) = occ p (getList (Parents g) c);
  eo_adj : ∀ n q, q ∈ adjacent g n ↔
    q ∈ getList (Parents g) n ∨ n ∈ getList (Parents g) q;
  eo_self : ∀ name fk, fk ∈ getList (SelfRefs g) name →
    ∃ tbl, T !! name = Some tbl ∧ fk ∈ ForeignKeys tbl ∧ selfFK T fk = true
}.

Lemma adjacent_insert k s n (adj : gmap string (gset string)) :
  default ∅ (<[k := s]> adj !! n) = if decide (k = n) then s else default ∅ (adj !! n).
Proof. rewrite lookup_insert. by destruct (decide (k = n)). Qed.

Lemma addFK_ok T name tbl g fk :
  T !! name = Some tbl → fk ∈ ForeignKeys tbl → edges_ok T g →
  ∃ g', addFK name g fk = Some g' ∧ edges_ok T g'.
Proof.
  intros Hname Hfk [Ht Hdom He Hp Hc Ha Hs]. unfold addFK. cbv zeta.
  fold (parentKeyOf fk). rewrite Ht.
  destruct (T !! parentKeyOf fk) as [ptbl|] eqn:Hparent; [|by exists g].
  destruct (IsSelfRef fk) eqn:Hself.
  - eexists. split; [done|]. split; cbn [Tables Adjacency Edges SelfRefs Children Parents];
      try done.
    intros name' fk'. rewrite getList_insert.
    destruct (decide (name = name')) as [<-|]; [|apply Hs].
    intros [Hin|Hin%list_elem_of_singleton]%elem_of_app; [by apply Hs|]. subst fk'.
    exists tbl. split; [done|]. split; [done|]. unfold selfFK.
    rewrite Hparent, Hself. rewrite bool_decide_true by eauto. done.
  - destruct (proj2 (Hdom name)) as [adjChild HadjC]; [eauto|]. rewrite HadjC.
    rewrite lookup_insert.
    destruct (decide (name = parentKeyOf fk)) as [Heq|Hne].
    + (* the parent is the table itself *)
      eexists. split; [done|].
      split; cbn [Tables Adjacency Edges SelfRefs Children Parents]; try done.
      * intros k. rewrite !lookup_insert.
        destruct (decide (parentKeyOf fk = k)) as [<-|]; [split; eauto|].
        destruct (decide (name = k)) as [<-|]; [done|]. apply Hdom.
      * intros e [Hin|Hin%list_elem_of_singleton]%elem_of_app; [by apply He|]. subst e.
        cbn. exists tbl. split; [done|]. split; [done|]. split; [|done].
        unfold edgeFK. rewrite Hparent, Hself. by rewrite bool_decide_true by eauto.
      * intros c p. rewrite getList_insert.
        destruct (decide (name = c)) as [<-|Hnc].
        -- rewrite elem_of_app, list_elem_of_singleton, Hp. split.
           ++ intros [(e & Hin & ? & ?) | ->].
              ** exists e. split; [apply elem_of_app; by left|done].
              ** eexists. split; [apply elem_of_app; right; by apply list_elem_of_singleton|].
                 done.
           ++ intros (e & [Hin|Hin%list_elem_of_singleton]%elem_of_app & Hec & Hep).
              ** left. by exists e.
              ** right. subst e. symmetry. exact Hep.
        -- rewrite Hp. split.
           ++ intros (e & Hin & ? & ?). exists e. split; [apply elem_of_app; by left|done].
           ++ intros (e & [Hin|Hin%list_elem_of_singleton]%elem_of_app & Hec & Hep).
              ** by exists e.
              ** subst e. cbn in Hec. done.
      * intros c p. rewrite !getList_insert. rewrite <- Heq.
        destruct (decide (name = p)) as [<-|Hpn]; destruct (decide (name = c)) as [<-|Hcn];
          rewrite ?occ_app, ?occ_cons, ?occ_nil, ?Hc;
          repeat (destruct (decide _)); try congruence; lia.
      * intros n q. unfold adjacent. cbn [Adjacency]. rewrite !adjacent_insert.
        rewrite !getList_insert. rewrite <- Heq in *.
        pose proof (Ha n q) as Hnq. unfold adjacent in Hnq.
        clear Ht Hdom He Hp Hc Ha Hs Hname Hfk Hparent Hself.
        destruct (decide (name = n)) as [<-|Hn]; destruct (decide (name = q)) as [<-|Hq];
          rewrite ?elem_of_app, ?list_elem_of_singleton;
          rewrite ?HadjC in Hnq; cbn in Hnq;
          rewrite ?elem_of_union, ?elem_of_singleton; intuition congruence.
    + destruct (proj2 (Hdom (parentKeyOf fk))) as [adjParent HadjP]; [eauto|].
      rewrite HadjP.
      eexists. split; [done|].
      split; cbn [Tables Adjacency Edges SelfRefs Children Parents]; try done.
      * intros k. rewrite !lookup_insert.
        destruct (decide (parentKeyOf fk = k)) as [<-|]; [split; eauto|].
        destruct (decide (name = k)) as [<-|]; [split; eauto|]. apply Hdom.
      * intros e [Hin|Hin%list_elem_of_singleton]%elem_of_app; [by apply He|]. subst e.
        cbn. exists tbl. split; [done|]. split; [done|]. split; [|done].
        unfold edgeFK. rewrite Hparent, Hself. by rewrite bool_decide_true by eauto.
      * intros c p. rewrite getList_insert.
        destruct (decide (name = c)) as [<-|Hnc].
        -- rewrite elem_of_app, list_elem_of_singleton, Hp. split.
           ++ intros [(e & Hin & ? & ?) | ->].
              ** exists e. split; [apply elem_of_app; by left|done].
              ** eexists. split; [apply elem_of_app; right; by apply list_elem_of_singleton|].
                 done.
           ++ intros (e & [Hin|Hin%list_elem_of_singleton]%elem_of_app & Hec & Hep).
              ** left. by exists e.
              ** right. subst e. symmetry. exact Hep.
        -- rewrite Hp. split.
           ++ intros (e & Hin & ? & ?). exists e. split; [apply elem_of_app; by left|done].
           ++ intros (e & [Hin|Hin%list_elem_of_singleton]%elem_of_app & Hec & Hep).
              ** by exists e.
              ** subst e. cbn in Hec. done.
      * intros c p. rewrite !getList_insert.
        destruct (decide (parentKeyOf fk = p)) as [<-|Hpn];
          destruct (decide (name = c)) as [<-|Hcn];
          rewrite ?occ_app, ?occ_cons, ?occ_nil, ?Hc;
          repeat (destruct (decide _)); try congruence; lia.
      * intros n q. unfold adjacent. cbn [Adjacency]. rewrite !adjacent_insert.
        rewrite !getList_insert.
        pose proof (Ha n q) as Hnq. unfold adjacent in Hnq.
        clear Ht Hdom He Hp Hc Ha Hs Hname Hfk Hparent Hself.
        repeat case_decide; subst;
          rewrite ?elem_of_app, ?list_elem_of_singleton;
          rewrite ?HadjC, ?HadjP in Hnq; cbn in Hnq;
          rewrite ?elem_of_union, ?elem_of_singleton; intuition congruence.
Qed.

Lemma addTableEdges_ok T g name :
  edges_ok T g → ∃ g', addTableEdges g name = Some g' ∧ edges_ok T g'.
Proof.
  intros Hok. unfold addTableEdges. rewrite (eo_tables _ _ Hok).
  destruct (T !! name) as [tbl|] eqn:Hname; [|by exists g].
  apply (foldlO_invariant (edges_ok T)); [|done].
  intros g1 fk Hfk Hok1. by eapply addFK_ok.
Qed.

Lemma edge_loop_ok T g keys :
  edges_ok T g → ∃ g', foldlO addTableEdges g keys = Some g' ∧ edges_ok T g'.
Proof.
  intros Hok. apply (foldlO_invariant (edges_ok T)); [|done].
  intros g1 name _ Hok1. by apply addTableEdges_ok.
Qed.

(** The edges that the foreign keys [fks] of one table contribute. *)
Definition parentsOf (T : gmap string Table) (fks : list ForeignKey) : list string :=
  map parentKeyOf (List.filter (edgeFK T) fks).

Definition selfRefsOf (T : gmap string Table) (fks : list ForeignKey) : list ForeignKey :=
  List.filter (selfFK T) fks.

Lemma addFK_lists name g fk g' :
  addFK name g fk = Some g' →
  Tables g' = Tables g
  ∧ (∀ c, getList (Parents g') c =
          if decide (name = c) then getList (Parents g) c ++ parentsOf (Tables g) [fk]
          else getList (Parents g) c)
  ∧ (∀ c, getList (SelfRefs g') c =
          if decide (name = c) then getList (SelfRefs g) c ++ selfRefsOf (Tables g) [fk]
          else getList (SelfRefs g) c).
Proof.
  unfold addFK, parentsOf, selfRefsOf, edgeFK, selfFK. cbv zeta. fold (parentKeyOf fk).
  cbn [List.filter].
  destruct (Tables g !! parentKeyOf fk) as [ptbl|] eqn:Hparent.
  - rewrite bool_decide_true by eauto. cbn [andb].
    destruct (IsSelfRef fk) eqn:Hself; cbn [negb map].
    + intros [= <-]. cbn [Tables Parents SelfRefs]. split; [done|]. split.
      * intros c. rewrite app_nil_r. by destruct (decide _).
      * intros c. rewrite getList_insert. by destruct (decide (name = c)) as [<-|].
    + destruct (Adjacency g !! name); [|done].
      destruct (<[name:=_]> (Adjacency g) !! parentKeyOf fk); [|done].
      intros [= <-]. cbn [Tables Parents SelfRefs]. split; [done|]. split.
      * intros c. rewrite getList_insert. by destruct (decide (name = c)) as [<-|].
      * intros c. rewrite app_nil_r. by destruct (decide _).
  - rewrite bool_decide_false by (by intros [? ?]). cbn [andb map].
    intros [= <-]. split; [done|]. split; intros c; rewrite app_nil_r; by destruct (decide _).
Qed.

Lemma parentsOf_app T l1 l2 : parentsOf T (l1 ++ l2) = parentsOf T l1 ++ parentsOf T l2.
Proof. unfold parentsOf. by rewrite List.filter_app, map_app. Qed.

Lemma selfRefsOf_app T l1 l2 : selfRefsOf T (l1 ++ l2) = selfRefsOf T l1 ++ selfRefsOf T l2.
Proof. unfold selfRefsOf. by rewrite List.filter_app. Qed.

Lemma addFK_loop_lists name fks : ∀ g g',
  foldlO (addFK name) g fks = Some g' →
  Tables g' = Tables g
  ∧ (∀ c, getList (Parents g') c =
          if decide (name = c) then getList (Parents g) c ++ parentsOf (Tables g) fks
          else getList (Parents g) c)
  ∧ (∀ c, getList (SelfRefs g') c =
          if decide (name = c) then getList (SelfRefs g) c ++ selfRefsOf (Tables g) fks
          else getList (SelfRefs g) c).
Proof.
  induction fks as [|fk fks IH]; intros g g' Hrun.
  - injection Hrun as <-. split; [done|].
    split; intros c; destruct (decide _); by rewrite ?app_nil_r.
  - cbn [foldlO] in Hrun. destruct (addFK name g fk) as [g1|] eqn:H1; [|done].
    destruct (addFK_lists _ _ _ _ H1) as (Ht1 & Hp1 & Hs1).
    destruct (IH _ _ Hrun) as (Ht & Hp & Hs). rewrite Ht1 in *.
    split; [done|]. split; intros c.
    + rewrite Hp, Hp1. change (fk :: fks) with ([fk] ++ fks). rewrite parentsOf_app.
      destruct (decide (name = c)); [by rewrite app_assoc|done].
    + rewrite Hs, Hs1. change (fk :: fks) with ([fk] ++ fks). rewrite selfRefsOf_app.
      destruct (decide (name = c)); [by rewrite app_assoc|done].
Qed.

(** What the third loop has stored for a table after it has met the keys
    [keys], none of them twice. *)
Lemma edge_loop_lists keys : ∀ g g',
  NoDup keys →
  foldlO addTableEdges g keys = Some g' →
  Tables g' = Tables g
  ∧ (∀ c, getList (Parents g') c =
          getList (Parents g) c ++
          match Tables g !! c with
          | Some tbl => if decide (c ∈ keys) then parentsOf (Tables g) (ForeignKeys tbl) else []
          | None => []
          end)
  ∧ (∀ c, getList (SelfRefs g') c =
          getList (SelfRefs g) c ++
          match Tables g !! c with
          | Some tbl => if decide (c ∈ keys) then selfRefsOf (Tables g) (ForeignKeys tbl) else []
          | None => []
          end).
Proof.
  induction keys as [|name keys IH]; intros g g' Hnd Hrun.
  - injection Hrun as <-. split; [done|].
    split; intros c; destruct (Tables g !! c); by rewrite ?app_nil_r.
  - apply NoDup_cons in Hnd as [Hname Hnd]. cbn [foldlO] in Hrun.
    destruct (addTableEdges g name) as [g1|] eqn:H1; [|done].
    destruct (IH _ _ Hnd Hrun) as (Ht & Hp & Hs).
    unfold addTableEdges in H1.
    assert (Tables g1 = Tables g
            ∧ (∀ c, getList (Parents g1) c =
                 if decide (name = c)
                 then getList (Parents g) c ++
                      match Tables g !! c with
                      | Some tbl => parentsOf (Tables g) (ForeignKeys tbl) | None => [] end
                 else getList (Parents g) c)
            ∧ (∀ c, getList (SelfRefs g1) c =
                 if decide (name = c)
                 then getList (SelfRefs g) c ++
                      match Tables g !! c with
                      | Some tbl => selfRefsOf (Tables g) (ForeignKeys tbl) | None => [] end
                 else getList (SelfRefs g) c)) as (Ht1 & Hp1 & Hs1).
    { destruct (Tables g !! name) as [tbl|] eqn:Hlk.
      - destruct (addFK_loop_lists _ _ _ _ H1) as (? & Hp1 & Hs1). split; [done|].
        split; intros c; rewrite ?Hp1, ?Hs1; destruct (decide (name = c)) as [<-|]; try done;
          by rewrite Hlk.
      - injection H1 as <-. split; [done|].
        split; intros c; destruct (decide (name = c)) as [<-|]; try done;
          by rewrite Hlk, app_nil_r. }
    rewrite Ht1 in *. split; [done|]. split; intros c.
    + rewrite Hp, Hp1. destruct (Tables g !! c) as [tbl|] eqn:Hc.
      * destruct (decide (name = c)) as [<-|Hne].
        -- rewrite decide_False by done. rewrite decide_True by apply list_elem_of_here.
           by rewrite app_nil_r.
        -- destruct (decide (c ∈ keys)) as [Hin|Hnin].
           ++ rewrite decide_True by (by apply list_elem_of_further). done.
           ++ rewrite decide_False; [done|]. intros [?|?]%elem_of_cons; done.
      * destruct (decide (name = c)); by rewrite ?app_nil_r.
    + rewrite Hs, Hs1. destruct (Tables g !! c) as [tbl|] eqn:Hc.
      * destruct (decide (name = c)) as [<-|Hne].
        -- rewrite decide_False by done. rewrite decide_True by apply list_elem_of_here.
           by rewrite app_nil_r.
        -- destruct (decide (c ∈ keys)) as [Hin|Hnin].
           ++ rewrite decide_True by (by apply list_elem_of_further). done.
           ++ rewrite decide_False; [done|]. intros [?|?]%elem_of_cons; done.
      * destruct (decide (name = c)); by rewrite ?app_nil_r.
Qed.

(** *** The whole of [Build] *)

Lemma map_range_elem {V} (m : gmap string V) keys :
  map_range m keys → NoDup keys ∧ ∀ k, k ∈ keys ↔ is_Some (m !! k).
Proof.
  unfold map_range. intros Hp. split.
  - rewrite Hp. apply NoDup_fst_map_to_list.
  - intros k. rewrite Hp. rewrite list_elem_of_fmap. split.
    + intros ([k' v] & -> & Hkv). apply elem_of_map_to_list in Hkv. eauto.
    + intros [v Hv]. exists (k, v). split; [done|]. by apply elem_of_map_to_list.
Qed.

Lemma Build_run tables excludeSet vrs keys1 lookupKeys keys3 :
  let g0 := foldl (keepTable tables excludeSet) emptyGraph keys1 in
  ∃ g, Build tables excludeSet vrs keys1 lookupKeys keys3 = Some g
       ∧ tables_extend vrs (Tables g0) (Tables g)
       ∧ edges_ok (Tables g) g
       ∧ (NoDup keys3 →
          (∀ c, getList (Parents g) c =
                match Tables g !! c with
                | Some tbl => if decide (c ∈ keys3)
                              then parentsOf (Tables g) (ForeignKeys tbl) else []
                | None => []
                end)
          ∧ (∀ c, getList (SelfRefs g) c =
                match Tables g !! c with
                | Some tbl => if decide (c ∈ keys3)
                              then selfRefsOf (Tables g) (ForeignKeys tbl) else []
                | None => []
                end)).
Proof.
  intros g0. unfold Build. fold g0.
  destruct (keepTable_loop tables excludeSet keys1) as (Ht & Hadj & _ & He & Hs & Hc & Hp).
  fold g0 in Ht, Hadj, He, Hs, Hc, Hp.
  destruct (injectAll_extends vrs lookupKeys (Tables g0) vrs 0 (Tables g0))
    as (tbls & -> & Hext); [done|apply tables_extend_refl|].
  set (g1 := {| Tables := tbls; Edges := Edges g0; SelfRefs := SelfRefs g0;
                Children := Children g0; Parents := Parents g0;
                Adjacency := Adjacency g0 |}).
  assert (edges_ok tbls g1) as Hok1.
  { split; unfold g1, adjacent; cbn [Tables Adjacency Edges SelfRefs Children Parents].
    - done.
    - intros k. rewrite Hadj. specialize (Hext k).
      destruct Hext; split; intros [? ?]; eauto; done.
    - rewrite He. inversion 1.
    - intros c p. rewrite Hp, He. unfold getList. rewrite lookup_empty. split; [inversion 1|].
      intros (e & H & _). inversion H.
    - intros c p. rewrite Hp, Hc. unfold getList. by rewrite !lookup_empty.
    - intros n q. rewrite Hp. unfold getList. rewrite !lookup_empty.
      destruct (Adjacency g0 !! n) as [s|] eqn:Hn; cbn.
      + destruct (keepTable_loop tables excludeSet keys1) as (_ & _ & Hemp & _).
        fold g0 in Hemp. rewrite (Hemp n s Hn). split; [set_solver|]. intros [H|H]; inversion H.
      + split; [set_solver|]. intros [H|H]; inversion H.
    - intros name fk. rewrite Hs. unfold getList. rewrite lookup_empty. inversion 1. }
  destruct (edge_loop_ok tbls g1 keys3 Hok1) as (g & Hrun & Hok).
  exists g. split; [done|].
  assert (Tables g = tbls) as Htg by apply (eo_tables _ _ Hok).
  rewrite Htg. split; [done|]. split; [done|]. intros Hnd.
  destruct (edge_loop_lists keys3 g1 g Hnd Hrun) as (_ & Hpl & Hsl).
  unfold g1 in Hpl, Hsl. cbn [Tables Parents SelfRefs] in Hpl, Hsl.
  split; intros c; rewrite ?Hpl, ?Hsl, ?Hp, ?Hs; unfold getList at 1;
    by rewrite lookup_empty.
Qed.

(** X5. Build returns a graph for every input, without a nil-map write or nil
    dereference, and in it every edge comes from a foreign key of its child
    table that is no self-reference and whose parent table is in the graph,
    and every entry of SelfRefs is a self-referencing foreign key of its
    table whose parent is in the graph; a foreign key to an excluded or
    unknown table leaves no edge. *)
Theorem Build_edges_in_scope tables excludeSet vrs keys1 lookupKeys keys3 :
  ∃ g, Build tables excludeSet vrs keys1 lookupKeys keys3 = Some g
    ∧ (∀ e, e ∈ Edges g →
         ∃ tbl, Tables g !! edge_ChildTable e = Some tbl
                ∧ FK e ∈ ForeignKeys tbl
                ∧ IsSelfRef (FK e) = false
                ∧ edge_ParentTable e = ParentSchema (FK e) +:+ "." +:+ ParentTable (FK e)
                ∧ is_Some (Tables g !! edge_ParentTable e))
    ∧ (∀ name fk, fk ∈ getList (SelfRefs g) name →
         IsSelfRef fk = true
         ∧ ∃ tbl, Tables g !! name = Some tbl ∧ fk ∈ ForeignKeys tbl
                  ∧ is_Some (Tables g !! (ParentSchema fk +:+ "." +:+ ParentTable fk))).
Proof.
  destruct (Build_run tables excludeSet vrs keys1 lookupKeys keys3) as (g & Hrun & _ & Hok & _).
  exists g. split; [done|]. split.
  - intros e He. destruct (eo_edges _ _ Hok e He) as (tbl & Hc & Hfk & Hedge & Hp).
    exists tbl. unfold edgeFK in Hedge. apply andb_true_iff in Hedge as [Hs Hn].
    apply bool_decide_eq_true in Hs. apply negb_true_iff in Hn.
    repeat (split; [done|]). by rewrite Hp.
  - intros name fk Hfk. destruct (eo_self _ _ Hok name fk Hfk) as (tbl & Hn & Hin & Hself).
    unfold selfFK in Hself. apply andb_true_iff in Hself as [Hs Hr].
    apply bool_decide_eq_true in Hs. split; [done|]. by exists tbl.
Qed.

(** X6. In the graph that Build returns the link structures agree: Parents lists
    exactly the parent ends of the edges, Children is the converse of
    Parents, Adjacency is the symmetric closure of Parents and has an entry
    for exactly the tables of the graph, and both ends of every link are
    tables of the graph. *)
Theorem Build_links_consistent tables excludeSet vrs keys1 lookupKeys keys3 g :
  Build tables excludeSet vrs keys1 lookupKeys keys3 = Some g →
  (∀ c p, p ∈ getList (Parents g) c ↔
          ∃ e, e ∈ Edges g ∧ edge_ChildTable e = c ∧ edge_ParentTable e = p)
  ∧ (∀ c p, c ∈ getList (Children g) p ↔ p ∈ getList (Parents g) c)
  ∧ (∀ n q, q ∈ adjacent g n ↔ q ∈ getList (Parents g) n ∨ n ∈ getList (Parents g) q)
  ∧ (∀ n q, q ∈ adjacent g n ↔ n ∈ adjacent g q)
  ∧ (∀ k, is_Some (Adjacency g !! k) ↔ is_Some (Tables g !! k))
  ∧ (∀ c p, p ∈ getList (Parents g) c →
            is_Some (Tables g !! c) ∧ is_Some (Tables g !! p)).
Proof.
  intros Hb.
  destruct (Build_run tables excludeSet vrs keys1 lookupKeys keys3) as (g' & Hrun & _ & Hok & _).
  rewrite Hb in Hrun. injection Hrun as <-.
  split; [apply (eo_parents _ _ Hok)|].
  split; [intros c p; by rewrite <- !occ_pos, (eo_children _ _ Hok)|].
  split; [apply (eo_adj _ _ Hok)|].
  split; [intros n q; rewrite !(eo_adj _ _ Hok); tauto|].
  split; [apply (eo_adj_dom _ _ Hok)|].
  intros c p Hp. apply (eo_parents _ _ Hok) in Hp as (e & He & <- & <-).
  destruct (eo_edges _ _ Hok e He) as (tbl & Hc & _ & Hedge & Hpk).
  split; [eauto|]. unfold edgeFK in Hedge. apply andb_true_iff in Hedge as [Hs _].
  apply bool_decide_eq_true in Hs. by rewrite Hpk.
Qed.

(** X7. The tables of the graph are exactly the given tables whose unqualified
    name is not in the exclude set; each keeps its schema, name, columns and
    primary key, and its foreign keys are the given ones followed only by
    foreign keys made from the virtual relations (child schema and table of
    that table, one child and one parent column, kind and JSON path of the
    relation). Without virtual relations the tables are unchanged. *)
Theorem Build_filters_tables tables excludeSet vrs keys1 lookupKeys keys3 g :
  map_range tables keys1 →
  Build tables excludeSet vrs keys1 lookupKeys keys3 = Some g →
  (∀ name, is_Some (Tables g !! name) ↔
           ∃ tbl0, tables !! name = Some tbl0 ∧ tbl_Name tbl0 ∉ excludeSet)
  ∧ (∀ name tbl tbl0, Tables g !! name = Some tbl → tables !! name = Some tbl0 →
       tbl_Schema tbl = tbl_Schema tbl0 ∧ tbl_Name tbl = tbl_Name tbl0
       ∧ Columns tbl = Columns tbl0 ∧ PrimaryKey_of tbl = PrimaryKey_of tbl0
       ∧ ∃ added, ForeignKeys tbl = ForeignKeys tbl0 ++ added
                  ∧ Forall (virtual_fk vrs tbl0) added)
  ∧ (vrs = [] → Tables g = kept tables excludeSet).
Proof.
  intros Hkeys Hb. apply map_range_elem in Hkeys as [_ Hkeys].
  destruct (Build_run tables excludeSet vrs keys1 lookupKeys keys3) as (g' & Hrun & Hext & _).
  rewrite Hb in Hrun. injection Hrun as <-.
  destruct (keepTable_loop tables excludeSet keys1) as (Ht & _).
  assert (Hkept : ∀ k, Tables (foldl (keepTable tables excludeSet) emptyGraph keys1) !! k
                       = kept tables excludeSet !! k).
  { intros k. rewrite Ht. destruct (decide (k ∈ keys1)) as [|Hn]; [done|].
    unfold kept. rewrite map_lookup_filter.
    destruct (tables !! k) eqn:Hk; [|done]. exfalso. apply Hn, Hkeys. eauto. }
  split; [|split].
  - intros name. specialize (Hext name). rewrite Hkept in Hext.
    unfold kept in Hext. rewrite map_lookup_filter in Hext.
    destruct (tables !! name) as [tbl0|] eqn:Hn; simpl in Hext.
    + destruct (decide (tbl_Name tbl0 ∉ excludeSet)) as [Hex|Hex].
      * rewrite option_guard_True in Hext by done. inversion Hext. split; eauto.
      * rewrite option_guard_False in Hext by done. inversion Hext.
        split; [by intros [? ?]|]. intros (? & [= <-] & ?). done.
    + inversion Hext. split; [by intros [? ?]|]. by intros (? & ? & ?).
  - intros name tbl tbl0 Hg Hn. specialize (Hext name). rewrite Hkept, Hg in Hext.
    unfold kept in Hext. rewrite map_lookup_filter, Hn in Hext. simpl in Hext.
    destruct (decide (tbl_Name tbl0 ∉ excludeSet)) as [Hex|Hex].
    + rewrite option_guard_True in Hext by done.
      inversion Hext as [? ? (added & -> & Hadded)|]; subst.
      repeat (split; [done|]). by exists added.
    + rewrite option_guard_False in Hext by done. inversion Hext.
  - intros ->. apply map_eq. intros k. specialize (Hext k). rewrite Hkept in Hext.
    destruct Hext as [tbl0 tbl Hx|]; [|done]. f_equal. by apply extends_nil.
Qed.

(** X8. For every table of the graph that Build returns, Parents[table] lists,
    in the order of the table's foreign keys, the parent of each foreign key
    that is no self-reference and whose parent is in the graph (once per
    foreign key, so a parent can repeat), and SelfRefs[table] lists the
    self-referencing foreign keys whose parent is in the graph, in the same
    order. *)
Theorem Build_parents_follow_foreign_keys tables excludeSet vrs keys1 lookupKeys keys3 g :
  Build tables excludeSet vrs keys1 lookupKeys keys3 = Some g →
  map_range (Tables g) keys3 →
  ∀ name,
    getList (Parents g) name =
      match Tables g !! name with
      | Some tbl => parentsOf (Tables g) (ForeignKeys tbl)
      | None => []
      end
    ∧ getList (SelfRefs g) name =
      match Tables g !! name with
      | Some tbl => selfRefsOf (Tables g) (ForeignKeys tbl)
      | None => []
      end.
Proof.
  intros Hb [Hnd Hkeys]%map_range_elem name.
  destruct (Build_run tables excludeSet vrs keys1 lookupKeys keys3) as (g' & Hrun & _ & _ & Hl).
  rewrite Hb in Hrun. injection Hrun as <-. destruct (Hl Hnd) as [Hp Hs].
  rewrite Hp, Hs. destruct (Tables g !! name) as [tbl|] eqn:Hn; [|by split].
  assert (name ∈ keys3) by (apply Hkeys; eauto). by rewrite !decide_True.
Qed.

(** X9. When the map given to Build is keyed by the full names of its tables (as
    Introspect builds it), the tables of the graph are keyed by their full
    names too, and ChildTable and ParentTable of every edge are the full
    names of tables of the graph. *)
Theorem Build_keeps_full_name_keys tables excludeSet vrs keys1 lookupKeys keys3 g :
  (∀ name tbl, tables !! name = Some tbl → FullName tbl = name) →
  Build tables excludeSet vrs keys1 lookupKeys keys3 = Some g →
  keyed_by_full_name g
  ∧ ∀ e, e ∈ Edges g →
      ∃ child parent, Tables g !! edge_ChildTable e = Some child
                      ∧ Tables g !! edge_ParentTable e = Some parent
                      ∧ FullName child = edge_ChildTable e
                      ∧ FullName parent = edge_ParentTable e.
Proof.
  intros Hkeyed Hb.
  destruct (Build_run tables excludeSet vrs keys1 lookupKeys keys3) as (g' & Hrun & Hext & Hok & _).
  rewrite Hb in Hrun. injection Hrun as <-.
  destruct (keepTable_loop tables excludeSet keys1) as (Ht & _).
  assert (Hk : keyed_by_full_name g).
  { intros name tbl Hn. specialize (Hext name). rewrite Ht, Hn in Hext.
    destruct (decide (name ∈ keys1)); [|inversion Hext].
    unfold kept in Hext. rewrite map_lookup_filter in Hext.
    destruct (tables !! name) as [tbl0|] eqn:H0; simpl in Hext; [|inversion Hext].
    destruct (decide (tbl_Name tbl0 ∉ excludeSet)).
    - rewrite option_guard_True in Hext by done.
      inversion Hext as [? ? (added & -> & _)|]; subst.
      rewrite <- (Hkeyed name tbl0 H0). reflexivity.
    - rewrite option_guard_False in Hext by done. inversion Hext. }
  split; [done|]. intros e He.
  destruct (eo_edges _ _ Hok e He) as (child & Hc & _ & Hedge & Hpk).
  unfold edgeFK in Hedge. apply andb_true_iff in Hedge as [Hs _].
  apply bool_decide_eq_true in Hs. rewrite <- Hpk in Hs. destruct Hs as [parent Hp].
  exists child, parent. repeat split; try done; by apply Hk.
Qed.

(** [Build] and then [TopoSortAll]: every edge of the graph whose child
    is not reported in a cycle has its parent earlier in [Order]. *)
(** X10. Build followed by TopoSortAll: for every edge of the graph whose child
    table is not reported in CycleTables, the parent table stands before the
    child table in Order, in whatever order the map of tables is enumerated. *)
Theorem Build_then_TopoSortAll tables excludeSet vrs keys1 lookupKeys keys3 g all :
  Build tables excludeSet vrs keys1 lookupKeys keys3 = Some g →
  map_range (Tables g) all →
  ∀ e, e ∈ Edges g →
    edge_ChildTable e ∉ CycleTables (TopoSortAll g all) →
    before (edge_ParentTable e) (edge_ChildTable e) (Order (TopoSortAll g all)).
Proof.
  intros Hb [Hnd Hall]%map_range_elem e He Hc.
  destruct (Build_run tables excludeSet vrs keys1 lookupKeys keys3) as (g' & Hrun & _ & Hok & _).
  rewrite Hb in Hrun. injection Hrun as <-.
  destruct (eo_edges _ _ Hok e He) as (child & Hchild & _ & Hedge & Hpk).
  unfold edgeFK in Hedge. apply andb_true_iff in Hedge as [Hs _].
  apply bool_decide_eq_true in Hs. rewrite <- Hpk in Hs.
  assert (local_parent g all (edge_ChildTable e) (edge_ParentTable e)) as Hlp.
  { split; [apply Hall; eauto|]. split; [by apply Hall|].
    apply (eo_parents _ _ Hok). by exists e. }
  unfold TopoSortAll in *.
  destruct (TopoSort_end g all Hnd) as (inDeg & Hend & Hhas & Hcyc).
  pose proof (topo_end_cover g all _ inDeg Hnd Hend) as Hcover.
  apply (ordered_edge g all _ inDeg Hend); [|done].
  destruct Hlp as (Hin & _). rewrite <- Hcover in Hin.
  apply elem_of_app in Hin as [Hin|Hin]; [done|]. exfalso. apply Hc. rewrite Hcyc, Hhas.
  destruct (bool_decide_reflect (length (Order (TopoSort g all)) < length all)%nat)
    as [Hlt|Hge]; [done|].
  apply Permutation_length in Hcover. rewrite length_app in Hcover.
  destruct (filter _ all); [inversion Hin|]. simpl in Hcover. lia.
Qed.

(** A table without parents is never held back. *)
(** X11. A table that Roots returns (a table without parents) is never held back
    by a cycle: when it is among the tables sorted, it is in the Order of
    TopoSortAll and not in CycleTables. *)
Theorem Roots_are_ordered g keys all :
  NoDup all →
  ∀ r, r ∈ Roots g keys → r ∈ all →
    r ∈ Order (TopoSortAll g all) ∧ r ∉ CycleTables (TopoSortAll g all).
Proof.
  intros Hnd r [Hlen _]%list_elem_of_filter Hr. unfold TopoSortAll.
  destruct (TopoSort_end g all Hnd) as (inDeg & Hend & Hhas & Hcyc).
  pose proof (topo_end_cover g all _ inDeg Hnd Hend) as Hcover.
  assert (Hns : r ∉ filter (fun t => 0 < getInt inDeg t) all).
  { intros Hs. destruct (blocked_parent g all _ inDeg Hend r Hs) as (p & _ & _ & _ & Hp).
    destruct (getList (Parents g) r); [inversion Hp|done]. }
  split.
  - rewrite <- Hcover in Hr. apply elem_of_app in Hr as [?|?]; done.
  - rewrite Hcyc. destruct (HasCycle _); [done|inversion 1].
Qed.

(** *** Scenarios *)

Definition chain_tables : gmap string Table :=
  {[ "public.tenants" := tenants_table; "public.users" := users_table;
     "public.orders" := orders_table ]}.

Definition chain_keys : list string := ["public.tenants"; "public.users"; "public.orders"].

Lemma chain_keys_range : map_range chain_tables chain_keys.
Proof.
  unfold map_range. apply NoDup_Permutation.
  - apply (bool_decide_unpack _). by vm_compute.
  - apply NoDup_fst_map_to_list.
  - intros k. rewrite list_elem_of_fmap. split.
    + intros Hk. assert (is_Some (chain_tables !! k)) as [tbl Hs].
      { unfold chain_keys in Hk. rewrite !elem_of_cons in Hk.
        destruct Hk as [-> | [-> | [-> | Hk]]]; [by vm_compute; eauto..|inversion Hk]. }
      exists (k, tbl). split; [done|]. by apply elem_of_map_to_list.
    + intros ([k' tbl] & -> & Hkv%elem_of_map_to_list). cbn.
      unfold chain_tables in Hkv. rewrite !lookup_insert_Some, lookup_singleton_Some in Hkv.
      unfold chain_keys. rewrite !elem_of_cons. intuition.
Qed.

(** The graph of scenario 1 is what [Build] makes of its three tables. *)
Example Build_chain :
  Build chain_tables ∅ [] chain_keys (fun _ _ => chain_keys) chain_keys = Some chain_graph.
Proof. by vm_compute. Qed.

Lemma Build_links_consistent_witness :
  "public.users" ∈ getList (Children chain_graph) "public.tenants"
  ↔ "public.tenants" ∈ getList (Parents chain_graph) "public.users".
Proof.
  apply (Build_links_consistent chain_tables ∅ [] chain_keys (fun _ _ => chain_keys)
           chain_keys chain_graph Build_chain).
Defined.

(** The same tables with [orders] excluded. *)
Definition chain_without_orders : Graph :=
  {| Tables := {[ "public.tenants" := tenants_table; "public.users" := users_table ]};
     Edges := [ {| FK := users_tenant_fk; edge_ChildTable := "public.users";
                   edge_ParentTable := "public.tenants" |} ];
     SelfRefs := ∅;
     Children := {[ "public.tenants" := ["public.users"] ]};
     Parents := {[ "public.users" := ["public.tenants"] ]};
     Adjacency := {[ "public.tenants" := {[ "public.users" ]};
                     "public.users" := {[ "public.tenants" ]} ]} |}.

Example Build_excluding_orders :
  Build chain_tables {[ "orders" ]} [] chain_keys (fun _ _ => chain_keys) chain_keys
  = Some chain_without_orders.
Proof. by vm_compute. Qed.

Lemma Build_filters_tables_witness :
  is_Some (Tables chain_without_orders !! "public.orders")
  ↔ ∃ tbl0, chain_tables !! "public.orders" = Some tbl0
            ∧ tbl_Name tbl0 ∉ ({[ "orders" ]} : gset string).
Proof.
  apply (Build_filters_tables chain_tables {[ "orders" ]} [] chain_keys
           (fun _ _ => chain_keys) chain_keys chain_without_orders
           chain_keys_range Build_excluding_orders).
Defined.

Lemma Build_parents_follow_foreign_keys_witness :
  getList (Parents chain_graph) "public.orders"
  = match Tables chain_graph !! "public.orders" with
    | Some tbl => parentsOf (Tables chain_graph) (ForeignKeys tbl)
    | None => []
    end.
Proof.
  apply (Build_parents_follow_foreign_keys chain_tables ∅ [] chain_keys
           (fun _ _ => chain_keys) chain_keys chain_graph Build_chain chain_keys_range).
Defined.

Lemma chain_tables_keyed name tbl : chain_tables !! name = Some tbl → FullName tbl = name.
Proof. apply chain_graph_keyed. Qed.

Lemma Build_keeps_full_name_keys_witness : keyed_by_full_name chain_graph.
Proof.
  apply (Build_keeps_full_name_keys chain_tables ∅ [] chain_keys (fun _ _ => chain_keys)
           chain_keys chain_graph chain_tables_keyed Build_chain).
Defined.

Lemma Build_then_TopoSortAll_witness :
  before "public.users" "public.orders"
    (Order (TopoSortAll chain_graph ["public.orders"; "public.tenants"; "public.users"])).
Proof.
  apply (Build_then_TopoSortAll chain_tables ∅ [] chain_keys (fun _ _ => chain_keys)
           chain_keys chain_graph ["public.orders"; "public.tenants"; "public.users"]
           Build_chain
           ltac:(unfold map_range; rewrite <- chain_keys_range;
                 apply (bool_decide_unpack _); by vm_compute)
           {| FK := orders_user_fk; edge_ChildTable := "public.orders";
              edge_ParentTable := "public.users" |}).
  - apply list_elem_of_further, list_elem_of_here.
  - vm_compute. inversion 1.
Defined.

Lemma Roots_are_ordered_witness :
  "public.tenants" ∈ Order (TopoSortAll chain_graph chain_keys).
Proof.
  apply (Roots_are_ordered chain_graph chain_keys chain_keys).
  - apply (bool_decide_unpack _). by vm_compute.
  - apply (bool_decide_unpack _). by vm_compute.
  - apply list_elem_of_here.
Defined.

(** Scenario 6: the relation [events.meta->>'user_id' → users.id]. *)
Definition events_plain : Table := withForeignKeys events_table [].

Definition events_relation : VirtualRelation :=
  {| vr_ChildTable := "events"; vr_ChildColumn := "meta";
     vr_ParentTable := "users"; vr_ParentColumn := "id";
     vr_Type := "json"; vr_JSONPath := "user_id" |}.

Example Build_virtual_relation :
  let keys := ["public.events"; "public.users"] in
  (g ← Build {[ "public.users" := withForeignKeys users_table [];
                "public.events" := events_plain ]} ∅ [events_relation]
         keys (fun _ _ => keys) keys;
   Some (ForeignKeys <$> Tables g !! "public.events", getList (Parents g) "public.events"))
  = Some (Some [events_users_fk], ["public.users"]).
Proof. by vm_compute. Qed.

(* ================================================================== *)
(** * Further properties: connected components                         *)
(* ================================================================== *)

Local Set Warnings "-clear-no-such-hyp".

(** ** Connected components *)

Lemma visit_loop nbrs : ∀ (v : gset string) (q : list string),
  ∃ added,
    foldl visit (v, q) nbrs = (v ∪ list_to_set added, q ++ added)
    ∧ NoDup added
    ∧ ∀ x, x ∈ added ↔ x ∈ nbrs ∧ x ∉ v.
Proof.
  induction nbrs as [|n nbrs IH]; intros v q.
  - exists []. cbn. rewrite app_nil_r, union_empty_r_L. split; [done|].
    split; [constructor|]. intros x. split; [inversion 1|]. intros [H _]. inversion H.
  - cbn [foldl]. unfold visit at 2. cbn [fst snd].
    destruct (bool_decide_reflect (n ∈ v)) as [Hin|Hnin].
    + destruct (IH v q) as (added & -> & Hnd & Hadded). exists added.
      split; [done|]. split; [done|]. intros x. rewrite Hadded, elem_of_cons.
      split; [tauto|]. intros [[->|?] ?]; done.
    + destruct (IH ({[n]} ∪ v) (q ++ [n])) as (added & -> & Hnd & Hadded).
      exists (n :: added). split; [|split].
      * rewrite <- app_assoc. cbn [app list_to_set]. f_equal. set_solver.
      * apply NoDup_cons. split; [|done]. rewrite Hadded. set_solver.
      * intros x. rewrite !elem_of_cons, Hadded. destruct (decide (x = n)); set_solver.
Qed.

Lemma neighbourhood_elem g n x : x ∈ getSet (Adjacency g) n → x ∈ neighbourhood g.
Proof.
  unfold getSet, neighbourhood. destruct (Adjacency g !! n) as [s|] eqn:Hn; cbn; [|set_solver].
  intros Hx. apply elem_of_union_list. exists s. split; [|done].
  apply list_elem_of_fmap. exists (n, s). split; [done|]. by apply elem_of_map_to_list.
Qed.

Lemma size_minus_added (U v : gset string) (added : list string) :
  NoDup added → (∀ x, x ∈ added → x ∈ U ∧ x ∉ v) →
  (size (U ∖ (v ∪ list_to_set added)) + length added = size (U ∖ v))%nat.
Proof.
  intros Hnd Hadded.
  assert (U ∖ v = (U ∖ (v ∪ list_to_set added)) ∪ list_to_set added) as ->.
  { apply set_eq. intros x. rewrite elem_of_union, !elem_of_difference, elem_of_union,
      elem_of_list_to_set.
    destruct (decide (x ∈ added)) as [Hx|Hx]; [|tauto].
    destruct (Hadded x Hx). tauto. }
  rewrite (size_union (U ∖ (v ∪ list_to_set added)) (list_to_set added)) by set_solver.
  by rewrite size_list_to_set.
Qed.

Section bfs.
Variables (g : Graph) (rangeSet : string → gset string → list string).
Hypothesis Hrange : ∀ n s x, x ∈ rangeSet n s ↔ x ∈ s.

(** [x] is a neighbour of [n]. *)
Definition adj (n x : string) : Prop := x ∈ getSet (Adjacency g) n.

(** The state of the loop of [bfs] that was started at [start] with the
    tables [v0] marked. *)
Record bfs_ok (v0 : gset string) (start : string)
    (visited : gset string) (queue result : list string) : Prop := {
  b_visited : visited = v0 ∪ list_to_set (result ++ queue);
  b_nodup : NoDup (result ++ queue);
  b_fresh : ∀ x, x ∈ result ++ queue → x ∉ v0;
  b_done : ∀ n x, n ∈ result → adj n x → x ∈ visited;
  b_reach : ∀ x, x ∈ result ++ queue → rtc adj start x;
  b_start : start ∈ result ++ queue
}.

Lemma bfs_step v0 start visited node queue result :
  bfs_ok v0 start visited (node :: queue) result →
  ∃ added,
    foldl visit (visited, queue) (rangeSet node (getSet (Adjacency g) node))
    = (visited ∪ list_to_set added, queue ++ added)
    ∧ NoDup added
    ∧ (∀ x, x ∈ added → x ∈ neighbourhood g ∧ x ∉ visited)
    ∧ bfs_ok v0 start (visited ∪ list_to_set added) (queue ++ added) (result ++ [node]).
Proof.
  intros [Hv Hnd Hfresh Hdone Hreach Hstart].
  destruct (visit_loop (rangeSet node (getSet (Adjacency g) node)) visited queue)
    as (added & Hrun & Hnda & Hadded).
  exists added. split; [done|]. split; [done|].
  assert (Hadd : ∀ x, x ∈ added ↔ adj node x ∧ x ∉ visited).
  { intros x. by rewrite Hadded, Hrange. }
  split.
  { intros x Hx. apply Hadd in Hx as [Hx ?]. split; [|done]. by eapply neighbourhood_elem. }
  assert (Hlist : (result ++ [node]) ++ queue ++ added = (result ++ node :: queue) ++ added).
  { by rewrite <- !app_assoc. }
  split.
  - rewrite Hlist, Hv. rewrite (list_to_set_app_L (result ++ node :: queue)). set_solver.
  - rewrite Hlist. apply NoDup_app. split; [done|]. split; [|done].
    intros x Hx Hxa. apply Hadd in Hxa as [_ Hxv]. apply Hxv. rewrite Hv.
    apply elem_of_union. right. by apply elem_of_list_to_set.
  - intros x. rewrite Hlist. intros [Hx|Hx]%elem_of_app; [by apply Hfresh|].
    apply Hadd in Hx as [_ Hxv]. intros Hx0. apply Hxv. rewrite Hv. set_solver.
  - intros n x [Hn|Hn%list_elem_of_singleton]%elem_of_app Hnx.
    + apply elem_of_union. left. by eapply Hdone.
    + subst n. destruct (decide (x ∈ visited)) as [Hxv|Hxv]; [set_solver|].
      apply elem_of_union. right. apply elem_of_list_to_set, Hadd. done.
  - intros x. rewrite Hlist. intros [Hx|Hx]%elem_of_app; [by apply Hreach|].
    apply Hadd in Hx as [Hx _]. eapply rtc_r; [|exact Hx].
    apply Hreach, elem_of_app. right. apply list_elem_of_here.
  - rewrite Hlist. apply elem_of_app. by left.
Qed.

Lemma bfsLoop_ok fuel : ∀ v0 start visited queue result,
  bfs_ok v0 start visited queue result →
  (length queue + size (neighbourhood g ∖ visited) ≤ fuel)%nat →
  ∃ comp visited',
    bfsLoop fuel g rangeSet visited queue result = (comp, visited', [])
    ∧ bfs_ok v0 start visited' [] comp.
Proof.
  induction fuel as [|fuel IH]; intros v0 start visited queue result Hok Hfuel.
  - destruct queue; [|simpl in Hfuel; lia]. by exists result, visited.
  - destruct queue as [|node queue]; [by exists result, visited|].
    cbn [bfsLoop].
    destruct (bfs_step _ _ _ _ _ _ Hok) as (added & -> & Hnd & Hadded & Hok').
    apply (IH v0 start); [done|].
    pose proof (size_minus_added (neighbourhood g) visited added Hnd Hadded).
    rewrite length_app. simpl in Hfuel. lia.
Qed.

(** What one call of [bfs] returns. *)
Lemma bfs_ok_result start v0 :
  start ∉ v0 →
  ∃ comp, bfs g rangeSet start v0 = (comp, v0 ∪ list_to_set comp, [])
          ∧ bfs_ok v0 start (v0 ∪ list_to_set comp) [] comp.
Proof.
  intros Hstart. unfold bfs.
  destruct (bfsLoop_ok (S (size (neighbourhood g))) v0 start ({[start]} ∪ v0) [start] [])
    as (comp & visited' & Hrun & Hok).
  - split; cbn [app].
    + set_solver.
    + apply NoDup_singleton.
    + intros x ->%list_elem_of_singleton. done.
    + intros n x Hn. inversion Hn.
    + intros x ->%list_elem_of_singleton. done.
    + apply list_elem_of_here.
  - cbn [length]. assert (size (neighbourhood g ∖ ({[start]} ∪ v0)) ≤ size (neighbourhood g))%nat.
    { apply subseteq_size. set_solver. }
    lia.
  - exists comp. pose proof (b_visited _ _ _ _ _ Hok) as Hv. rewrite app_nil_r in Hv.
    rewrite Hrun, Hv. split; [done|]. by rewrite <- Hv.
Qed.
End bfs.

(** The tables of all components, in order. *)
Definition members (cs : list Component) : list string := concat (map comp_Tables cs).

Lemma members_snoc cs comp :
  members (cs ++ [{| comp_Tables := comp |}]) = members cs ++ comp.
Proof. unfold members. rewrite map_app, concat_app. cbn. by rewrite app_nil_r. Qed.

Section components.
Variables (g : Graph) (rangeSet : string → gset string → list string) (keys : list string).
Hypothesis Hrange : ∀ n s x, x ∈ rangeSet n s ↔ x ∈ s.

Definition findStep (st : gset string * list Component) (name : string)
    : gset string * list Component :=
  if bool_decide (name ∈ st.1) then st
  else
    let '(comp, visited', _) := bfs g rangeSet name st.1 in
    (visited', st.2 ++ [{| comp_Tables := comp |}]).

Lemma FindComponents_fold :
  FindComponents g keys rangeSet = (foldl findStep (∅, []) keys).2.
Proof. reflexivity. Qed.

(** The state of the loop of [FindComponents] after the keys [done]. *)
Record find_ok (done : list string) (st : gset string * list Component) : Prop := {
  f_visited : st.1 = list_to_set (members st.2);
  f_nodup : NoDup (members st.2);
  f_closed : ∀ n x, n ∈ members st.2 → adj g n x → x ∈ st.1;
  f_reach : ∀ c, c ∈ st.2 →
    ∃ start, start ∈ comp_Tables c ∧ start ∈ done
             ∧ ∀ x, x ∈ comp_Tables c → rtc (adj g) start x;
  f_done : ∀ k, k ∈ done → k ∈ st.1;
  f_sym : (∀ n x, adj g n x → adj g x n) →
    ∀ c n x, c ∈ st.2 → n ∈ comp_Tables c → adj g n x → x ∈ comp_Tables c
}.

Lemma find_ok_step done st name :
  find_ok done st → find_ok (done ++ [name]) (findStep st name).
Proof.
  intros [Hv Hnd Hcl Hre Hdone Hsym]. unfold findStep.
  destruct (bool_decide_reflect (name ∈ st.1)) as [Hin|Hnin].
  - split; try done.
    + intros c Hc. destruct (Hre c Hc) as (s & ? & ? & ?). exists s.
      split; [done|]. split; [|done]. apply elem_of_app. by left.
    + intros k [? | ->%list_elem_of_singleton]%elem_of_app; auto.
  - destruct (bfs_ok_result g rangeSet Hrange name st.1 Hnin) as (comp & -> & Hok).
    destruct Hok as [_ Hbnd Hfresh Hbdone Hreach Hstart]. rewrite app_nil_r in *.
    cbn [fst snd]. split; cbn [fst snd]; rewrite ?members_snoc.
    + rewrite list_to_set_app_L. by rewrite <- Hv.
    + apply NoDup_app. split; [done|]. split; [|done].
      intros x Hx Hxc. apply (Hfresh x Hxc). rewrite Hv. by apply elem_of_list_to_set.
    + intros n x [Hn|Hn]%elem_of_app Hnx.
      * apply elem_of_union. left. by eapply Hcl.
      * by eapply Hbdone.
    + intros c [Hc | ->%list_elem_of_singleton]%elem_of_app.
      * destruct (Hre c Hc) as (s & ? & ? & ?). exists s.
        split; [done|]. split; [|done]. apply elem_of_app. by left.
      * exists name. cbn. split; [done|]. split; [|done].
        apply elem_of_app. right. apply list_elem_of_here.
    + intros k [Hk | ->%list_elem_of_singleton]%elem_of_app.
      * apply elem_of_union. left. auto.
      * apply elem_of_union. right. by apply elem_of_list_to_set.
    + intros Hs c n x [Hc | ->%list_elem_of_singleton]%elem_of_app Hn Hnx.
      * by eapply Hsym.
      * cbn in *. pose proof (Hbdone n x Hn Hnx) as [Hx|Hx]%elem_of_union;
          [|by apply elem_of_list_to_set in Hx].
        exfalso. apply (Hfresh n Hn). rewrite Hv in Hx. apply elem_of_list_to_set in Hx.
        eapply Hcl; [exact Hx|]. by apply Hs.
Qed.

Lemma find_ok_loop l : ∀ done st,
  find_ok done st → find_ok (done ++ l) (foldl findStep st l).
Proof.
  induction l as [|name l IH]; intros done st Hok; cbn [foldl].
  - by rewrite app_nil_r.
  - replace (done ++ name :: l) with ((done ++ [name]) ++ l) by (by rewrite <- app_assoc).
    apply IH. by apply find_ok_step.
Qed.

Lemma find_ok_end : find_ok keys (foldl findStep (∅, []) keys).
Proof.
  apply (find_ok_loop keys [] (∅, [])). split; cbn; try done.
  - constructor.
  - intros n x Hn. inversion Hn.
  - intros c Hc. inversion Hc.
  - intros k Hk. inversion Hk.
  - intros _ c n x Hc. inversion Hc.
Qed.
End components.

(** X12. In a graph whose neighbours are all tables of the graph (as Build
    returns it), FindComponents puts every table into exactly one component
    and returns no empty component, whatever the order in which the maps are
    enumerated; in particular the search of bfs always empties its queue. *)
Theorem FindComponents_partition g keys rangeSet :
  (∀ n s x, x ∈ rangeSet n s ↔ x ∈ s) →
  map_range (Tables g) keys →
  (∀ n x, x ∈ getSet (Adjacency g) n → is_Some (Tables g !! x)) →
  concat (map comp_Tables (FindComponents g keys rangeSet)) ≡ₚ keys
  ∧ Forall (fun c => comp_Tables c ≠ []) (FindComponents g keys rangeSet).
Proof.
  intros Hrange [Hnd Hkeys]%map_range_elem Hadj.
  pose proof (find_ok_end g rangeSet keys Hrange) as [Hv Hndm Hcl Hre Hdone _].
  rewrite FindComponents_fold.
  destruct (foldl (findStep g rangeSet) (∅, []) keys) as [visited cs]. cbn [fst snd] in *.
  split.
  - apply NoDup_Permutation; [done|done|]. intros x. split.
    + intros Hx. apply list_elem_of_In, in_concat in Hx as (l & Hl & Hx).
      apply in_map_iff in Hl as (c & <- & Hc).
      apply list_elem_of_In in Hc, Hx.
      destruct (Hre c Hc) as (s & _ & Hs & Hreach).
      specialize (Hreach x Hx). clear -Hreach Hs Hadj Hkeys.
      induction Hreach as [|a b c Hab _ IH]; [done|]. apply IH, Hkeys. by eapply Hadj.
    + intros Hx. apply Hdone in Hx. rewrite Hv in Hx. by apply elem_of_list_to_set in Hx.
  - apply Forall_forall. intros c Hc Hnil.
    destruct (Hre c Hc) as (s & Hs & _). rewrite Hnil in Hs. inversion Hs.
Qed.

(** X13. In a graph with a symmetric Adjacency (as Build returns it), every
    component that FindComponents returns is closed under adjacency and all
    its tables are reachable along adjacency from one of its tables, so each
    component is a connected component of the graph. *)
Theorem FindComponents_connected g keys rangeSet :
  (∀ n s x, x ∈ rangeSet n s ↔ x ∈ s) →
  (∀ n x, x ∈ getSet (Adjacency g) n → n ∈ getSet (Adjacency g) x) →
  ∀ c, c ∈ FindComponents g keys rangeSet →
    (∀ n x, n ∈ comp_Tables c → x ∈ getSet (Adjacency g) n → x ∈ comp_Tables c)
    ∧ ∃ start, start ∈ comp_Tables c ∧ start ∈ keys
               ∧ ∀ x, x ∈ comp_Tables c → rtc (adj g) start x.
Proof.
  intros Hrange Hsym c Hc.
  pose proof (find_ok_end g rangeSet keys Hrange) as [_ _ _ Hre _ Hs].
  rewrite FindComponents_fold in Hc. split.
  - intros n x Hn Hx. by apply (Hs Hsym c n x).
  - by apply Hre.
Qed.

(** The adjacency that [Build] stores is symmetric and stays among the
    tables of the graph. *)
Lemma Build_adjacency tables excludeSet vrs keys1 lookupKeys keys3 g :
  Build tables excludeSet vrs keys1 lookupKeys keys3 = Some g →
  (∀ n x, x ∈ getSet (Adjacency g) n → n ∈ getSet (Adjacency g) x)
  ∧ (∀ n x, x ∈ getSet (Adjacency g) n → is_Some (Tables g !! x)).
Proof.
  intros Hb.
  destruct (Build_run tables excludeSet vrs keys1 lookupKeys keys3) as (g' & Hrun & _ & Hok & _).
  rewrite Hb in Hrun. injection Hrun as <-.
  assert (Hends : ∀ c p, p ∈ getList (Parents g) c →
            is_Some (Tables g !! c) ∧ is_Some (Tables g !! p)).
  { intros c p Hp. apply (eo_parents _ _ Hok) in Hp as (e & He & <- & <-).
    destruct (eo_edges _ _ Hok e He) as (tbl & Hc & _ & Hedge & Hpk).
    split; [eauto|]. unfold edgeFK in Hedge. apply andb_true_iff in Hedge as [Hs _].
    apply bool_decide_eq_true in Hs. by rewrite Hpk. }
  split; intros n x Hx; apply (eo_adj _ _ Hok) in Hx.
  - apply (eo_adj _ _ Hok). tauto.
  - destruct Hx as [Hx|Hx]; by apply Hends in Hx as [? ?].
Qed.

Definition rangeElements (_ : string) (s : gset string) : list string := elements s.

Lemma rangeElements_faithful n s x : x ∈ rangeElements n s ↔ x ∈ s.
Proof. apply elem_of_elements. Qed.

Lemma FindComponents_partition_witness :
  concat (map comp_Tables (FindComponents chain_without_orders
                             ["public.tenants"; "public.users"] rangeElements))
  ≡ₚ ["public.tenants"; "public.users"].
Proof.
  apply (FindComponents_partition chain_without_orders
           ["public.tenants"; "public.users"] rangeElements rangeElements_faithful).
  - unfold map_range. vm_compute (map_to_list _).*1.
    first [ reflexivity | apply Permutation_swap ].
  - apply (Build_adjacency _ _ _ _ _ _ _ Build_excluding_orders).
Defined.

Example components_of_chain :
  FindComponents chain_graph chain_keys rangeElements
  = [ {| comp_Tables := ["public.tenants"; "public.users"; "public.orders"] |} ].
Proof. by vm_compute. Qed.

Lemma FindComponents_connected_witness :
  ∃ start, start ∈ ["public.tenants"; "public.users"; "public.orders"]
           ∧ start ∈ chain_keys
           ∧ ∀ x, x ∈ ["public.tenants"; "public.users"; "public.orders"] →
                  rtc (adj chain_graph) start x.
Proof.
  apply (FindComponents_connected chain_graph chain_keys rangeElements
           rangeElements_faithful
           (proj1 (Build_adjacency _ _ _ _ _ _ _ Build_chain))
           {| comp_Tables := ["public.tenants"; "public.users"; "public.orders"] |}).
  rewrite components_of_chain. apply list_elem_of_here.
Defined.

(** Two tables that are linked and one that stands alone. *)
Example components_of_three :
  FindComponents
    {| Tables := ∅; Edges := []; SelfRefs := ∅; Children := ∅; Parents := ∅;
       Adjacency := {[ "a" := {[ "c" ]}; "b" := ∅; "c" := {[ "a" ]} ]} |}
    ["a"; "b"; "c"] rangeElements
  = [ {| comp_Tables := ["a"; "c"] |}; {| comp_Tables := ["b"] |} ].
Proof. by vm_compute. Qed.

(* ================================================================== *)
(** * Further properties: data lines                                   *)
(* ================================================================== *)

(** ** Reading a data line back *)

(** [strings.Split(line, sep)] for a separator of one byte: the reader
    of a COPY data line cuts it at every tab. *)
Fixpoint splitOn (sep : ascii) (s : string) : list string :=
  match s with
  | EmptyString => [EmptyString]
  | String c rest =>
    if Ascii.eqb c sep then EmptyString :: splitOn sep rest
    else match splitOn sep rest with
         | field :: fields => String c field :: fields
         | [] => [String c EmptyString]
         end
  end.

Definition no_byte (sep : ascii) (c : ascii) : bool := negb (Ascii.eqb c sep).

Lemma splitOn_field sep field rest :
  all_bytes (no_byte sep) field = true →
  splitOn sep (field +:+ String sep rest) = field :: splitOn sep rest.
Proof.
  induction field as [|c field IH]; intros Hc.
  - rewrite append_nil_l. cbn [splitOn]. by rewrite Ascii.eqb_refl.
  - cbn [all_bytes] in Hc. apply andb_true_iff in Hc as [Hc Hf].
    rewrite append_cons. cbn [splitOn]. unfold no_byte in Hc.
    apply negb_true_iff in Hc. rewrite Hc, IH by done. done.
Qed.

Lemma splitOn_last sep field :
  all_bytes (no_byte sep) field = true → splitOn sep field = [field].
Proof.
  induction field as [|c field IH]; intros Hc; [done|].
  cbn [all_bytes] in Hc. apply andb_true_iff in Hc as [Hc Hf].
  cbn [splitOn]. unfold no_byte in Hc. apply negb_true_iff in Hc.
  rewrite Hc, IH by done. done.
Qed.

Lemma Join_cons_cons x y l sep :
  Join (x :: y :: l) sep = x +:+ sep +:+ Join (y :: l) sep.
Proof. reflexivity. Qed.

Lemma splitOn_Join sep fields :
  fields ≠ [] → Forall (fun f => all_bytes (no_byte sep) f = true) fields →
  splitOn sep (Join fields (String sep EmptyString)) = fields.
Proof.
  induction fields as [|x fields IH]; intros Hne Hall; [done|].
  apply Forall_cons in Hall as [Hx Hall]. destruct fields as [|y fields].
  - cbn. by apply splitOn_last.
  - rewrite Join_cons_cons, append_cons, append_nil_l, splitOn_field by done.
    f_equal. by apply IH.
Qed.

Lemma not_separator_no_tab c : not_separator c = true → no_byte TAB c = true.
Proof.
  unfold not_separator, is_raw_separator, no_byte. intros H.
  apply negb_true_iff in H. apply orb_false_iff in H as [H _].
  apply orb_false_iff in H as [H _]. by rewrite H.
Qed.

Lemma all_bytes_Join P fields sep :
  Forall (fun f => all_bytes P f = true) fields → all_bytes P sep = true →
  all_bytes P (Join fields sep) = true.
Proof.
  intros Hall Hsep. induction Hall as [|x fields Hx Hall IH]; [done|].
  destruct fields as [|y fields]; [done|].
  rewrite Join_cons_cons, !all_bytes_app, Hx, Hsep, IH. done.
Qed.

(** The line that [WriteTableData] prints for a row, without its newline. *)
Definition dataLine (r : row) : string :=
  Join (map EscapeCopyValue r) (String TAB EmptyString).

Lemma EscapeCopyValue_not_end_marker v : EscapeCopyValue v ≠ "\.".
Proof.
  assert (Hs : ∀ s, escapeString s ≠ "\.").
  { intros s Heq. pose proof (unescape_escapeString s) as H. rewrite Heq in H. discriminate. }
  destruct v as [|[]|bs|t|s|t|n|t]; cbn [EscapeCopyValue]; try apply Hs; try discriminate.
Qed.

Lemma escapeString_not_null s : escapeString s ≠ "\N".
Proof.
  intros Heq. pose proof (unescape_escapeString s) as H. rewrite Heq in H. discriminate.
Qed.

Lemma EscapeCopyValue_null v : EscapeCopyValue v = "\N" → v = VNil.
Proof.
  destruct v as [|[]|bs|t|s|t|n|t]; cbn [EscapeCopyValue]; try done;
    intros H; exfalso; try (by eapply escapeString_not_null); discriminate.
Qed.

Lemma decodeField_null v : decodeField (EscapeCopyValue v) = Some None → v = VNil.
Proof.
  destruct v as [|[]|bs|t|s|t|n|t]; cbn [EscapeCopyValue]; try done;
    rewrite ?decodeField_escapeString; try discriminate.
  unfold decodeField. rewrite !append_cons, append_nil_l.
  change (String.eqb _ _) with false. cbv iota.
  destruct (unescape _); discriminate.
Qed.

(** X14. For a row of at least one value, cutting the data line that
    WriteTableData prints at its tabs gives back exactly the fields that
    EscapeCopyValue made, one per value and in order; a field decodes to
    NULL exactly when its value is nil and a valid UTF-8 string decodes to
    itself; the line holds no newline or carriage return and is never the
    end marker \. of the block. *)
Theorem data_line_fields (r : row) :
  r ≠ [] →
  splitOn TAB (dataLine r) = map EscapeCopyValue r
  ∧ (∀ i s, r !! i = Some (VString s) → valid_utf8 s →
       (decodeField <$> splitOn TAB (dataLine r)) !! i = Some (Some (Some s)))
  ∧ (∀ i v, r !! i = Some v →
       ((decodeField <$> splitOn TAB (dataLine r)) !! i = Some (Some None) ↔ v = VNil))
  ∧ Forall (fun c => c ≠ LF ∧ c ≠ CR) (list_ascii_of_string (dataLine r))
  ∧ dataLine r ≠ "\.".
Proof.
  intros Hne.
  assert (Hclean : Forall (fun f => all_bytes not_separator f = true) (map EscapeCopyValue r)).
  { apply Forall_forall. intros f (v & -> & _)%list_elem_of_fmap. apply EscapeCopyValue_clean. }
  assert (Hsplit : splitOn TAB (dataLine r) = map EscapeCopyValue r).
  { apply splitOn_Join; [by destruct r|].
    eapply Forall_impl; [exact Hclean|]. intros f Hf. simpl in Hf.
    eapply all_bytes_impl; [apply not_separator_no_tab|done]. }
  assert (Hfield : ∀ i v, r !! i = Some v →
            (decodeField <$> splitOn TAB (dataLine r)) !! i
            = Some (decodeField (EscapeCopyValue v))).
  { intros i v Hi. rewrite Hsplit, list_lookup_fmap.
    assert (map EscapeCopyValue r !! i = Some (EscapeCopyValue v)) as ->; [|done].
    clear -Hi. revert i Hi. induction r as [|x r IH]; intros [|i] Hi; try done.
    - by injection Hi as ->.
    - by apply IH. }
  split; [done|]. split; [|split; [|split]].
  - intros i s Hi Hs. rewrite (Hfield i _ Hi). cbn [EscapeCopyValue].
    by rewrite decodeField_escapeString, Hs.
  - intros i v Hi. rewrite (Hfield i _ Hi). split.
    + intros [= H]. by apply decodeField_null.
    + by intros ->.
  - apply Forall_forall. intros c Hc.
    assert (all_bytes (fun c => negb (Ascii.eqb c LF) && negb (Ascii.eqb c CR)) (dataLine r)
            = true) as Hall.
    { apply all_bytes_Join; [|done].
      eapply Forall_impl; [exact Hclean|]. intros f Hf. simpl in Hf.
      eapply all_bytes_impl; [|exact Hf]. intros c'. unfold not_separator, is_raw_separator.
      intros H. apply negb_true_iff in H. apply orb_false_iff in H as [H H3].
      apply orb_false_iff in H as [_ H2]. by rewrite H2, H3. }
    pose proof (all_bytes_elem _ _ _ Hall Hc) as H. apply andb_true_iff in H as [H1 H2].
    apply negb_true_iff in H1, H2. apply Ascii.eqb_neq in H1, H2. done.
  - destruct r as [|v [|v' r]]; [done| |].
    + cbn. apply EscapeCopyValue_not_end_marker.
    + intros Heq. assert (length (splitOn TAB (dataLine (v :: v' :: r))) = 1%nat) as Hlen
        by (by rewrite Heq).
      rewrite Hsplit in Hlen. simpl in Hlen. lia.
Qed.

Lemma data_line_fields_witness :
  splitOn TAB (dataLine [VInt 7; VNil; VString "a	b"; VBool true])
  = ["7"; "\N"; "a\tb"; "t"].
Proof.
  destruct (data_line_fields [VInt 7; VNil; VString "a	b"; VBool true]
              ltac:(discriminate)) as (H & _).
  rewrite H. reflexivity.
Defined.

(** ** NULL and the other values *)

(** X15. EscapeCopyValue returns \N for nil only: no other value, whatever its
    kind and text (the string \N included, which is written \\N), is written
    as the NULL marker or decodes to NULL. *)
Theorem null_marker_unambiguous v :
  (EscapeCopyValue v = "\N" ↔ v = VNil)
  ∧ (decodeField (EscapeCopyValue v) = Some None ↔ v = VNil).
Proof.
  split; (split; [|by intros ->]).
  - apply EscapeCopyValue_null.
  - apply decodeField_null.
Qed.

(** ** Byte sequences *)

(** The value of a hexadecimal digit, as [hex.DecodeString] reads it. *)
Definition unhex (c : ascii) : option N :=
  let n := N_of_ascii c in
  if (48 <=? n)%N && (n <=? 57)%N then Some (n - 48)%N
  else if (97 <=? n)%N && (n <=? 102)%N then Some (n - 87)%N
  else if (65 <=? n)%N && (n <=? 70)%N then Some (n - 55)%N
  else None.

(** [hex.DecodeString]. *)
Fixpoint DecodeString (s : string) : option (list Byte.byte) :=
  match s with
  | EmptyString => Some []
  | String _ EmptyString => None
  | String hi (String lo rest) =>
    match unhex hi, unhex lo, DecodeString rest with
    | Some h, Some l, Some bs =>
      match Byte.of_N (16 * h + l) with
      | Some b => Some (b :: bs)
      | None => None
      end
    | _, _, _ => None
    end
  end.

Lemma DecodeString_byte b rest :
  DecodeString (EncodeToString [b] +:+ rest) = option_map (cons b) (DecodeString rest).
Proof.
  destruct b; cbn [EncodeToString]; rewrite !append_cons, append_nil_l;
    cbn [DecodeString]; vm_compute (unhex _); vm_compute (unhex _);
    cbv iota; destruct (DecodeString rest); reflexivity.
Qed.

Lemma DecodeString_EncodeToString bs : DecodeString (EncodeToString bs) = Some bs.
Proof.
  induction bs as [|b bs IH]; [done|].
  change (EncodeToString (b :: bs)) with (EncodeToString [b] +:+ EncodeToString bs).
  by rewrite DecodeString_byte, IH.
Qed.

(** A byte sequence is written as [\\x] and two hexadecimal digits per
    byte; un-escaped, the field is the [\x...] form that the bytea input
    reads, and its digits decode to the bytes. *)
(** X16. A byte slice is written as \\x followed by two lower-case hexadecimal
    digits per byte; un-escaped, the field is the \x form that the bytea
    input reads, and decoding its digits gives the bytes back. *)
Theorem bytea_round_trip bs :
  EscapeCopyValue (VBytes bs) = "\\x" +:+ EncodeToString bs
  ∧ decodeField (EscapeCopyValue (VBytes bs)) = Some (Some ("\x" +:+ EncodeToString bs))
  ∧ DecodeString (EncodeToString bs) = Some bs
  ∧ String.length (EncodeToString bs) = (2 * length bs)%nat.
Proof.
  split; [done|]. split; [|split].
  - apply decodeField_bytes.
  - apply DecodeString_EncodeToString.
  - induction bs as [|b bs IH]; [done|]. cbn [EncodeToString String.length length]. lia.
Qed.

(* ================================================================== *)
(** * Further properties: the query builders                           *)
(* ================================================================== *)

(** ** Single-column conditions *)

Lemma singleLoop_heads pks : ∀ argIdx,
  Forall (fun pk => pk ≠ []) pks →
  singleLoop pks argIdx =
  Some (placeholders (length pks) argIdx, map (fun pk => default VNil (head pk)) pks,
        argIdx + Z.of_nat (length pks)).
Proof.
  intros argIdx Hne. destruct (singleLoop_total pks argIdx Hne) as [[[phs args] next] Hrun].
  rewrite Hrun. destruct (singleLoop_spec _ _ _ _ _ Hrun) as (-> & Hargs & ->).
  do 3 f_equal. clear Hrun. revert args Hargs.
  induction Hne as [|pk pks Hpk _ IH]; intros [|a args] Hargs; try done.
  cbn [map] in *. injection Hargs as Ha Hargs. rewrite <- Ha. cbn. f_equal. by apply IH.
Qed.

Lemma singleLoop_panics pks : ∀ argIdx,
  Exists (fun pk => pk = []) pks → singleLoop pks argIdx = None.
Proof.
  induction pks as [|pk pks IH]; intros argIdx Hex; [inversion Hex|].
  cbn [singleLoop]. apply Exists_cons in Hex as [->|Hex]; [done|].
  rewrite (IH _ Hex). by destruct (head pk).
Qed.

(** X18. For a foreign key of one child column, buildSingleColumnIN gives col IN
    ($i, $i+1, ...) with one placeholder for each of the first 10,000 parent
    key tuples, numbered from argIdx, wrapped as (... OR col IS NULL) when
    nullable, binds the first value of each tuple and returns argIdx plus
    their number; it panics (index out of range) when one of those tuples is
    empty. *)
Theorem single_fk_condition fk col pks nullable argIdx :
  ChildColumns fk = [col] →
  let used := take (Z.to_nat 10000) pks in
  (Forall (fun pk => pk ≠ []) used →
   buildSingleColumnIN fk pks nullable argIdx =
     Some (let cond := col +:+ " IN (" +:+ Join (placeholders (length used) argIdx) ", "
                       +:+ ")" in
           if nullable then "(" +:+ cond +:+ " OR " +:+ col +:+ " IS NULL)" else cond,
           map (fun pk => default VNil (head pk)) used,
           argIdx + Z.of_nat (length used)))
  ∧ (Exists (fun pk => pk = []) used → buildSingleColumnIN fk pks nullable argIdx = None).
Proof.
  intros Hcol used. unfold buildSingleColumnIN. rewrite Hcol, capPKs_take. fold used.
  cbn [head]. split.
  - intros Hne. by rewrite singleLoop_heads.
  - intros Hex. by rewrite singleLoop_panics.
Qed.

Lemma single_fk_condition_witness :
  buildSingleColumnIN users_tenant_fk [[VInt 1]; [VInt 2]] false 4
  = Some ("tenant_id IN ($4, $5)", [VInt 1; VInt 2], 6).
Proof.
  destruct (single_fk_condition users_tenant_fk "tenant_id" [[VInt 1]; [VInt 2]] false 4
              eq_refl) as [H _].
  rewrite H; [reflexivity|]. repeat constructor; discriminate.
Defined.

(** ** Argument numbers across the foreign keys of a table *)

Lemma fkCondition_next table parentPKs fk argIdx cond newArgs next :
  fkCondition table parentPKs fk argIdx = Some (Some (cond, newArgs, next)) →
  next = argIdx + Z.of_nat (length newArgs).
Proof.
  unfold fkCondition. destruct (IsSelfRef fk); [done|].
  destruct (parentPKs !! _) as [[|pk pks]|]; [done| |done].
  destruct (length (ChildColumns fk) =? 1)%nat.
  - unfold buildSingleColumnIN. destruct (head (ChildColumns fk)); [|done].
    destruct (singleLoop _ _) as [[[phs args] nx]|] eqn:Hl; [|done]. cbn.
    intros [= _ <- <-]. apply singleLoop_spec in Hl as (_ & Hargs & ->).
    apply (f_equal length) in Hargs. rewrite !length_map in Hargs. by rewrite Hargs.
  - unfold buildCompositeIN. rewrite compositeLoop_spec. intros [= _ <- <-].
    rewrite capPKs_take.
    assert (∀ k (l : list (list value)),
              length (concat (map (tupleBinds k) l)) = (k * length l)%nat) as ->; [|done].
    intros k l. induction l as [|x l IH]; cbn [map concat length]; [lia|].
    rewrite length_app, IH. unfold tupleBinds. rewrite length_map, length_seq. lia.
Qed.

(** The loop of [buildChildQuery] over a list of foreign keys is the loop
    over its first part followed by the loop over the rest, which numbers
    its arguments from the count of the arguments bound so far. *)
(** X19. The loop of buildChildQuery numbers its placeholders consecutively
    across foreign keys: processing a list of foreign keys is processing its
    first part and then the rest with the argument index at one plus the
    number of arguments bound so far, so placeholder $n always refers to the
    n-th bound argument. *)
Theorem childLoop_numbers_arguments table parentPKs fks1 fks2 :
  childLoop table parentPKs (fks1 ++ fks2) [] [] 1 =
  match childLoop table parentPKs fks1 [] [] 1 with
  | Some (conds, args) =>
    childLoop table parentPKs fks2 conds args (1 + Z.of_nat (length args))
  | None => None
  end.
Proof.
  assert (H : ∀ fks1 conds args,
    childLoop table parentPKs (fks1 ++ fks2) conds args (1 + Z.of_nat (length args)) =
    match childLoop table parentPKs fks1 conds args (1 + Z.of_nat (length args)) with
    | Some (conds', args') =>
      childLoop table parentPKs fks2 conds' args' (1 + Z.of_nat (length args'))
    | None => None
    end).
  { clear fks1. induction fks1 as [|fk fks1 IH]; intros conds args; [done|].
    cbn [app childLoop].
    destruct (fkCondition table parentPKs fk (1 + Z.of_nat (length args)))
      as [[[[cond newArgs] next]|]|] eqn:Hfk; [| |done].
    - apply fkCondition_next in Hfk. subst next.
      replace (1 + Z.of_nat (length args) + Z.of_nat (length newArgs))
        with (1 + Z.of_nat (length (args ++ newArgs))) by (rewrite length_app; lia).
      apply IH.
    - apply IH. }
  apply (H fks1 [] []).
Qed.

Lemma childLoop_numbers_arguments_example :
  childLoop posts_table two_users [posts_author_fk; posts_author_fk] [] [] 1
  = Some (["(author_id IN ($1, $2) OR author_id IS NULL)";
           "(author_id IN ($3, $4) OR author_id IS NULL)"],
          [VInt 1; VInt 2; VInt 1; VInt 2]).
Proof. by vm_compute. Qed.

(** ** The query of a self-reference *)

Lemma seedTuple_spec pkCols : ∀ j pk argIdx,
  (j + length pkCols ≤ length pk)%nat →
  seedTuple pkCols j pk argIdx =
  Some (placeholders (length pkCols) argIdx, take (length pkCols) (drop j pk),
        argIdx + Z.of_nat (length pkCols)).
Proof.
  unfold placeholders.
  induction pkCols as [|c pkCols IH]; intros j pk argIdx Hlen.
  - cbn. do 2 f_equal. lia.
  - cbn [seedTuple length] in *.
    destruct (lookup_lt_is_Some_2 pk j ltac:(lia)) as [v Hv]. rewrite Hv.
    rewrite IH by lia. rewrite seq_S_shift. cbn [map]. rewrite map_map.
    rewrite (drop_S _ _ _ Hv). cbn [take]. do 2 f_equal; [f_equal|lia].
    f_equal; [f_equal; lia|]. apply map_ext. intros i. f_equal. lia.
Qed.

Lemma seedLoop_spec pkCols seeds : ∀ argIdx,
  Forall (fun s => (length pkCols ≤ length s)%nat) seeds →
  seedLoop pkCols seeds argIdx =
  Some (map (tupleText (length pkCols) argIdx) (seq 0 (length seeds)),
        concat (map (take (length pkCols)) seeds),
        argIdx + Z.of_nat (length pkCols * length seeds)).
Proof.
  induction seeds as [|s seeds IH]; intros argIdx Hlen.
  - cbn. do 2 f_equal. lia.
  - apply Forall_cons in Hlen as [Hs Hlen]. cbn [seedLoop].
    rewrite seedTuple_spec by (simpl; lia). rewrite IH by done. cbn [length drop].
    rewrite seq_S_shift. cbn [map concat]. rewrite map_map.
    do 2 f_equal; [f_equal|rewrite Nat.mul_succ_r; lia].
    f_equal.
    + unfold tupleText. do 4 f_equal. simpl. lia.
    + apply map_ext. intros i. unfold tupleText. do 4 f_equal.
      change (S i * length pkCols)%nat with (length pkCols + i * length pkCols)%nat. lia.
Qed.

Lemma joinConds_total childCols parentCols : ∀ i,
  (i + length childCols ≤ length parentCols)%nat →
  is_Some (joinConds childCols parentCols i).
Proof.
  induction childCols as [|c childCols IH]; intros i Hlen; [by eexists|].
  cbn [joinConds length] in *.
  destruct (lookup_lt_is_Some_2 parentCols i ltac:(lia)) as [p ->].
  destruct (IH (S i) ltac:(lia)) as [conds ->]. by eexists.
Qed.

Lemma take_one_head (s : list value) : s ≠ [] → take 1 s = [default VNil (head s)].
Proof. by destruct s. Qed.

(** X20. For a table with a primary key, seed tuples at least as long as the
    primary key and a foreign key with no more child than parent columns,
    buildSelfRefQuery returns a non-empty query and binds, for every seed in
    order, its first len(pk) values: len(pk) arguments per seed. *)
Theorem self_ref_query_binds_every_seed table fk pk seed seeds :
  PrimaryKey_of table = Some pk →
  Forall (fun s => (length (pk_Columns pk) ≤ length s)%nat) (seed :: seeds) →
  (length (ChildColumns fk) ≤ length (ParentColumns fk))%nat →
  ∃ query,
    buildSelfRefQuery table fk (seed :: seeds)
    = Some (query, concat (map (take (length (pk_Columns pk))) (seed :: seeds)))
    ∧ query ≠ ""
    ∧ length (concat (map (take (length (pk_Columns pk))) (seed :: seeds)))
      = (length (pk_Columns pk) * length (seed :: seeds))%nat.
Proof.
  intros Hpk Hseeds Hcols. unfold buildSelfRefQuery. rewrite Hpk.
  destruct (joinConds_total (ChildColumns fk) (ParentColumns fk) 0 ltac:(lia)) as [conds ->].
  assert (Hlen : length (concat (map (take (length (pk_Columns pk))) (seed :: seeds)))
                 = (length (pk_Columns pk) * length (seed :: seeds))%nat).
  { clear -Hseeds. induction Hseeds as [|s l Hs _ IH]; [simpl; lia|].
    cbn [map concat length]. rewrite length_app, IH, length_take. cbn [length]. lia. }
  destruct (Nat.eqb_spec (length (pk_Columns pk)) 1) as [H1|H1].
  - destruct (pk_Columns pk) as [|col [|col' cols]] eqn:Hc; try done. cbn [head].
    rewrite singleLoop_heads.
    + assert (map (fun s => default VNil (head s)) (seed :: seeds)
              = concat (map (take (length [col])) (seed :: seeds))) as ->.
      { clear -Hseeds. induction Hseeds as [|s l Hs _ IH]; [done|].
        cbn [map concat]. rewrite IH. cbn [length]. rewrite take_one_head; [done|].
        destruct s; [simpl in Hs; lia|done]. }
      eexists. split; [done|]. split; [discriminate|done].
    + eapply Forall_impl; [exact Hseeds|]. intros s Hs. destruct s; [simpl in Hs; lia|done].
  - rewrite seedLoop_spec by done.
    eexists. split; [done|]. split; [discriminate|done].
Qed.

Definition categories_table : Table :=
  {| tbl_Schema := "public"; tbl_Name := "categories";
     Columns := [intColumn "id" false 1; intColumn "parent_id" true 2];
     PrimaryKey_of := Some {| pk_Columns := ["id"] |};
     ForeignKeys := [] |}.

Definition categories_parent_fk : ForeignKey :=
  {| Name := "categories_parent_fk"; ChildSchema := "public"; ChildTable := "categories";
     ChildColumns := ["parent_id"]; ParentSchema := "public"; ParentTable := "categories";
     ParentColumns := ["id"]; IsSelfRef := true; Virtual := VirtualNone; JSONPath := "" |}.

Lemma self_ref_query_binds_every_seed_witness :
  ∃ query, buildSelfRefQuery categories_table categories_parent_fk [[VInt 3]; [VInt 4]]
           = Some (query, [VInt 3; VInt 4]).
Proof.
  destruct (self_ref_query_binds_every_seed categories_table categories_parent_fk
              {| pk_Columns := ["id"] |} [VInt 3] [[VInt 4]] eq_refl)
    as (query & H & _).
  - repeat constructor.
  - simpl. lia.
  - by exists query.
Defined.

(** ** The key of a row *)

Lemma idxMap_lookup (l : list (nat * Column)) : ∀ (m0 : gmap string nat) name i,
  NoDup (map (fun ic => col_Name ic.2) l) →
  foldl (fun m (ic : nat * Column) => <[col_Name ic.2 := ic.1]> m) m0 l !! name = Some i ↔
  (∃ c, (i, c) ∈ l ∧ col_Name c = name)
  ∨ (m0 !! name = Some i ∧ name ∉ map (fun ic => col_Name ic.2) l).
Proof.
  induction l as [|[k x] l IH]; intros m0 name i Hnd.
  - simpl. split; [intros ?; right; split; [done|inversion 1]|].
    intros [(c & H & _)|[? _]]; [inversion H|done].
  - cbn [foldl map fst snd] in *. apply NoDup_cons in Hnd as [Hx Hnd].
    rewrite IH by done. rewrite lookup_insert, not_elem_of_cons.
    destruct (decide (col_Name x = name)) as [<-|Hne].
    + split.
      * intros [(c & Hc & Hn)|[[= <-] _]].
        -- exfalso. apply Hx. rewrite <- Hn. apply list_elem_of_fmap. by exists (i, c).
        -- left. exists x. split; [apply list_elem_of_here|done].
      * intros [(c & [[= -> ->]|Hc]%elem_of_cons & Hn)|[_ [? _]]]; [| |done].
        -- right. done.
        -- exfalso. apply Hx. rewrite <- Hn. apply list_elem_of_fmap. by exists (i, c).
    + split.
      * intros [(c & Hc & Hn)|[Hm Hn]].
        -- left. exists c. split; [by apply list_elem_of_further|done].
        -- by right.
      * intros [(c & [[= -> ->]|Hc]%elem_of_cons & Hn)|[Hm [_ Hn]]]; [done| |].
        -- left. by exists c.
        -- by right.
Qed.

Lemma imap_pair_names (cols : list Column) :
  map (fun ic : nat * Column => col_Name ic.2) (imap (fun i c => (i, c)) cols)
  = map col_Name cols.
Proof.
  change (map (fun ic : nat * Column => col_Name ic.2)) with (fmap (M:=list) (fun ic : nat * Column => col_Name ic.2)).
  rewrite fmap_imap. apply (imap_const col_Name).
Qed.

(** X21. For a table with a primary key and distinct column names, extractPK
    returns one value per primary-key column: the value at the position of
    the column of that name in the table (nil when the row is too short),
    and the value at position 0 when the table has no column of that name. *)
Theorem extractPK_by_column_name table pk values :
  PrimaryKey_of table = Some pk → NoDup (ColumnNames table) →
  ∃ key, extractPK table values = Some key
    ∧ length key = length (pk_Columns pk)
    ∧ ∀ j col, pk_Columns pk !! j = Some col →
        (∀ i c, Columns table !! i = Some c → col_Name c = col →
                key !! j = Some (default VNil (values !! i)))
        ∧ (col ∉ ColumnNames table → key !! j = Some (default VNil (values !! 0%nat))).
Proof.
  intros Hpk Hnd. unfold extractPK, pkColumnIndexes. rewrite Hpk.
  eexists. split; [done|]. split; [by rewrite !length_map|].
  intros j col Hj. rewrite !list_lookup_fmap, Hj. cbn [fmap option_fmap option_map].
  assert (Hnd' : NoDup (map (fun ic : nat * Column => col_Name ic.2)
                          (imap (fun i c => (i, c)) (Columns table))))
    by (by rewrite imap_pair_names).
  split.
  - intros i c Hi Hc.
    assert (foldl (fun m (ic : nat * Column) => <[col_Name ic.2 := ic.1]> m)
              (∅ : gmap string nat) (imap (fun i c => (i, c)) (Columns table)) !! col
            = Some i) as ->; [|done].
    apply idxMap_lookup; [done|]. left. exists c. split; [|done].
    apply elem_of_lookup_imap. by exists i, c.
  - intros Hcol.
    destruct (foldl _ _ _ !! col) as [i|] eqn:Hl; [|done].
    apply idxMap_lookup in Hl as [(c & Hin & Hc)|[He _]]; [| |done].
    + exfalso. apply Hcol. apply elem_of_lookup_imap in Hin as (i' & c' & [= <- <-] & Hi).
      rewrite <- Hc. apply list_elem_of_fmap. exists c. split; [done|].
      by eapply list_elem_of_lookup_2.
    + by rewrite lookup_empty in He.
Qed.

Definition order_lines_keyed : Table :=
  {| tbl_Schema := "public"; tbl_Name := "order_lines";
     Columns := [intColumn "line_no" false 1; intColumn "tenant_id" false 2;
                 intColumn "order_no" false 3];
     PrimaryKey_of := Some {| pk_Columns := ["tenant_id"; "order_no"] |};
     ForeignKeys := [] |}.

Lemma extractPK_by_column_name_witness :
  ∃ key, extractPK order_lines_keyed [VInt 9; VInt 1; VInt 100] = Some key
         ∧ key !! 0%nat = Some (VInt 1).
Proof.
  destruct (extractPK_by_column_name order_lines_keyed
              {| pk_Columns := ["tenant_id"; "order_no"] |} [VInt 9; VInt 1; VInt 100]
              eq_refl) as (key & Hkey & _ & Hcols).
  - apply (bool_decide_unpack _). by vm_compute.
  - exists key. split; [done|].
    apply (Hcols 0%nat "tenant_id" eq_refl) with (i := 1%nat) (c := intColumn "tenant_id" false 2);
      reflexivity.
Defined.

(** ** A child table without collected parents *)

Lemma childLoop_skips table parentPKs fks : ∀ conds args argIdx,
  (∀ fk, fk ∈ fks → IsSelfRef fk = false →
         getList parentPKs (ParentSchema fk +:+ "." +:+ ParentTable fk) = []) →
  childLoop table parentPKs fks conds args argIdx = Some (conds, args).
Proof.
  induction fks as [|fk fks IH]; intros conds args argIdx Hfks; [done|].
  cbn [childLoop]. unfold fkCondition.
  destruct (IsSelfRef fk) eqn:Hself.
  - apply IH. intros fk' Hfk'. apply Hfks. by apply list_elem_of_further.
  - pose proof (Hfks fk (list_elem_of_here _ _) Hself) as Hp. unfold getList in Hp.
    destruct (parentPKs !! _) as [[|pk pks]|]; [| done |];
      apply IH; intros fk' Hfk'; apply Hfks; by apply list_elem_of_further.
Qed.

Lemma childLoop_grows table parentPKs fks : ∀ conds args argIdx conds' args',
  childLoop table parentPKs fks conds args argIdx = Some (conds', args') →
  ∃ more, conds' = conds ++ more
    ∧ (more = [] →
       ∀ fk, fk ∈ fks → IsSelfRef fk = false →
             getList parentPKs (ParentSchema fk +:+ "." +:+ ParentTable fk) = []).
Proof.
  induction fks as [|fk fks IH]; intros conds args argIdx conds' args' Hrun.
  - injection Hrun as <- <-. exists []. rewrite app_nil_r. split; [done|].
    intros _ fk Hfk. inversion Hfk.
  - cbn [childLoop] in Hrun.
    destruct (fkCondition table parentPKs fk argIdx) as [[[[cond newArgs] nextIdx]|]|] eqn:Hfk;
      [| |done].
    + destruct (IH _ _ _ _ _ Hrun) as (more & -> & _). exists (cond :: more).
      split; [by rewrite <- app_assoc|]. done.
    + destruct (IH _ _ _ _ _ Hrun) as (more & -> & Hmore). exists more.
      split; [done|]. intros Hnil fk' Hfk' Hself.
      apply elem_of_cons in Hfk' as [->|Hfk']; [|by apply Hmore].
      unfold fkCondition in Hfk. rewrite Hself in Hfk. unfold getList.
      destruct (parentPKs !! _) as [[|pk pks]|]; [done| |done].
      destruct (length (ChildColumns fk) =? 1)%nat; [|done].
      by destruct (buildSingleColumnIN _ _ _ _).
Qed.

(** X2. [buildChildQuery] returns the empty query and no arguments exactly when
    no foreign key of the table, self-references apart, has a parent with
    collected keys, whatever else the map holds. *)
Theorem buildChildQuery_skips_table table parentPKs :
  buildChildQuery table parentPKs = Some ("", [])
  ↔ ∀ fk, fk ∈ ForeignKeys table → IsSelfRef fk = false →
          getList parentPKs (ParentSchema fk +:+ "." +:+ ParentTable fk) = [].
Proof.
  unfold buildChildQuery. split.
  - destruct (childLoop _ _ _ _ _ _) as [[conds args]|] eqn:Hrun; [|done].
    destruct (childLoop_grows _ _ _ _ _ _ _ _ Hrun) as (more & Hconds & Hmore).
    destruct conds as [|c conds]; [|done]. intros _. apply Hmore.
    by destruct more.
  - intros Hfks. by rewrite childLoop_skips.
Qed.

(** The keys of another table do not make [users] a child to query, and
    the keys of its parent do. *)
Example buildChildQuery_skips_users :
  buildChildQuery users_table {[ "public.orders" := [[VInt 100]] ]} = Some ("", [])
  ∧ buildChildQuery users_table {[ "public.tenants" := [[VInt 1]] ]}
    = Some ("SELECT * FROM public.users WHERE tenant_id IN ($1)", [VInt 1]).
Proof. split; by vm_compute. Qed.

(* ================================================================== *)
(** * Further properties: what a run prints, writes and reports        *)
(* ================================================================== *)

(** ** Tables with nothing to follow *)

(** X22. A table that is no root, none of whose parents has collected keys and
    which has no collected keys of its own is left alone by the traversal:
    no query is run, nothing is printed or logged, and the state is
    unchanged. *)
Theorem extractTable_nothing_to_follow Sprint e rootWhere tableName tbl st :
  Tables (g e) !! tableName = Some tbl →
  rootWhere !! tbl_Name tbl = None →
  (∀ fk, fk ∈ ForeignKeys tbl → IsSelfRef fk = false →
         getList (collectedPKs st) (ParentSchema fk +:+ "." +:+ ParentTable fk) = []) →
  getList (collectedPKs st) (FullName tbl) = [] →
  extractTable Sprint e rootWhere tableName st = (Ok tt, st).
Proof.
  intros Htbl Hroot Hparents Hseed. unfold extractTable. rewrite Htbl, Hroot.
  assert (Hchild : extractChild Sprint e tbl st = (Ok tt, st)).
  { unfold extractChild, bind, gets, orPanic, buildChildQuery.
    by rewrite childLoop_skips. }
  assert (Hself : ∀ fks, extractSelfRef Sprint e tbl fks st = (Ok tt, st)).
  { intros fks. unfold extractSelfRef, bind, gets. by rewrite Hseed. }
  unfold bind, wrap.
  destruct (0 <? length (getList (Parents (g e)) tableName))%nat; rewrite ?Hchild;
    cbn [ret]; destruct (SelfRefs (g e) !! tableName) as [[|fk fks]|]; rewrite ?Hself; done.
Qed.

Lemma extractTable_nothing_to_follow_witness :
  extractTable demo_Sprint (demo_extractor false) ∅ "public.users" (New (demo_world false))
  = (Ok tt, New (demo_world false)).
Proof.
  apply (extractTable_nothing_to_follow demo_Sprint (demo_extractor false) ∅
           "public.users" users_table (New (demo_world false))); reflexivity.
Defined.

(** ** What a dry run prints *)

Definition prints (tr : list event) : list string :=
  omap (fun ev => match ev with EvPrint text => Some text | _ => None end) tr.

Lemma prints_app a b : prints (a ++ b) = prints a ++ prints b.
Proof. unfold prints. by rewrite omap_app. Qed.

Lemma prints_EvPrint lines : prints (map EvPrint lines) = lines.
Proof.
  induction lines as [|l ls IH]; [done|]. cbn [map].
  change (prints (EvPrint l :: map EvPrint ls)) with (l :: prints (map EvPrint ls)).
  by rewrite IH.
Qed.

(** The line that [extractRoot] prints for a root table. *)
Definition rootLine (tbl : Table) (where_ : string) : string :=
  "[root] " +:+ FullName tbl +:+ ": " +:+ buildRootQuery tbl where_ +:+ NL.

(** The lines of the root tables among [order]. *)
Definition rootLines (gr : Graph) (rootWhere : gmap string string) (order : list string)
    : list string :=
  omap (fun name =>
          match Tables gr !! name with
          | Some tbl => option_map (rootLine tbl) (rootWhere !! tbl_Name tbl)
          | None => None
          end) order.

Section dry_prints.
Variable Sprint : list value → string.
Variable e : Extractor.
Hypothesis Hdry : dryRun e = true.

(** A state of a dry run: nothing collected. *)
Definition dry_step (rootWhere : gmap string string) (names : list string)
    (st st' : state) : Prop :=
  collected st' = collected st ∧ collectedPKs st' = ∅
  ∧ ∃ added, trace (env st') = trace (env st) ++ added
             ∧ added = map EvPrint (rootLines (g e) rootWhere names).

Lemma dry_extractTable_run rootWhere name st :
  collectedPKs st = ∅ →
  ∃ st', extractTable Sprint e rootWhere name st = (Ok tt, st')
         ∧ dry_step rootWhere [name] st st'.
Proof.
  intros Hs. unfold extractTable, dry_step, rootLines. cbn [omap list_omap].
  destruct (Tables (g e) !! name) as [tbl|] eqn:Htbl.
  - assert (Hchild : extractChild Sprint e tbl st = (Ok tt, st)).
    { unfold extractChild, bind, gets. by rewrite Hs, buildChildQuery_empty. }
    assert (Hself : ∀ fks st1, collectedPKs st1 = ∅ →
              extractSelfRef Sprint e tbl fks st1 = (Ok tt, st1)).
    { intros fks st1 H1. unfold extractSelfRef, bind, gets. rewrite H1.
      unfold getList. by rewrite lookup_empty. }
    destruct (rootWhere !! tbl_Name tbl) as [where_|] eqn:Hroot; cbn [option_map].
    + unfold bind at 1. unfold wrap at 1. unfold extractRoot. rewrite Hdry, orb_true_r.
      cbn [when]. unfold bind at 1. rewrite Printf_run. cbn [ret].
      set (st1 := with_env st _).
      assert (collectedPKs st1 = ∅) as H1 by done.
      exists st1. split.
      * destruct (SelfRefs (g e) !! name) as [[|fk fks]|]; try done.
        unfold wrap. by rewrite Hself.
      * split; [done|]. split; [done|]. exists [EvPrint (rootLine tbl where_)].
        split; reflexivity.
    + exists st. split.
      * unfold bind, wrap.
        destruct (0 <? length (getList (Parents (g e)) name))%nat; rewrite ?Hchild;
          cbn [ret]; destruct (SelfRefs (g e) !! name) as [[|fk fks]|];
          rewrite ?Hself; done.
      * split; [done|]. split; [done|]. exists []. by rewrite app_nil_r.
  - exists st. split; [done|]. split; [done|]. split; [done|]. exists [].
    by rewrite app_nil_r.
Qed.

Lemma dry_forEach_run rootWhere names : ∀ st,
  collectedPKs st = ∅ →
  ∃ st', forEach names (extractTable Sprint e rootWhere) st = (Ok tt, st')
         ∧ dry_step rootWhere names st st'.
Proof.
  induction names as [|name names IH]; intros st Hs.
  - exists st. split; [done|]. split; [done|]. split; [done|]. exists [].
    by rewrite app_nil_r.
  - cbn [forEach].
    destruct (dry_extractTable_run rootWhere name st Hs)
      as (st1 & Hrun1 & Hc1 & Hp1 & a1 & Ht1 & Ha1).
    rewrite (bind_ok _ _ _ _ _ Hrun1).
    destruct (IH st1 Hp1) as (st2 & Hrun2 & Hc2 & Hp2 & a2 & Ht2 & Ha2).
    exists st2. split; [done|]. split; [congruence|]. split; [done|].
    exists (a1 ++ a2). split; [by rewrite Ht2, Ht1, app_assoc|].
    rewrite Ha1, Ha2, <- map_app. f_equal. unfold rootLines.
    change (name :: names) with ([name] ++ names). by rewrite omap_app.
Qed.
End dry_prints.

(** X23. A dry run returns nil, collects nothing and prints exactly one line per
    root table of the graph, in topological order: [root] <full name>: <the
    root query>. *)
Theorem dry_run_prints_root_queries Sprint e all w :
  dryRun e = true →
  let run := Extract Sprint e all (New w) in
  run.1 = Ok tt
  ∧ collected run.2 = ∅
  ∧ ∃ added, trace (env run.2) = trace w ++ added
             ∧ prints added = rootLines (g e) (rootWhere_of e) (order_of e all).
Proof.
  intros Hdry run. unfold run. rewrite Extract_phases, Hdry. unfold traversal.
  assert (∃ st0 logs, warnings e all (New w) = (Ok tt, st0)
                      ∧ collected st0 = ∅ ∧ collectedPKs st0 = ∅
                      ∧ trace (env st0) = trace w ++ logs ∧ prints logs = [])
    as (st0 & logs & Hw & Hc0 & Hp0 & Ht0 & Hl0).
  { unfold warnings. destruct (HasCycle (TopoSortAll (g e) all)); cbn [when].
    - eexists _, [EvLog _; EvLog _]. split; [reflexivity|]. split; [reflexivity|].
      split; [reflexivity|]. split; [|reflexivity]. cbn. by rewrite <- app_assoc.
    - exists (New w), []. split; [done|]. split; [done|]. split; [done|].
      by rewrite app_nil_r. }
  rewrite (bind_ok _ _ _ _ _ Hw).
  destruct (dry_forEach_run Sprint e Hdry (rootWhere_of e) (order_of e all) st0 Hp0)
    as (st1 & -> & Hc1 & Hp1 & a1 & Ht1 & Ha1).
  cbn [fst snd]. split; [done|]. split; [congruence|].
  exists (logs ++ a1). split; [by rewrite Ht1, Ht0, app_assoc|].
  rewrite prints_app, Hl0, Ha1. apply prints_EvPrint.
Qed.

Lemma dry_run_prints_root_queries_witness :
  ∃ added, trace (env (demo_run true false).2) = [] ++ added
           ∧ prints added = ["[root] public.tenants: SELECT * FROM public.tenants WHERE id IN (1, 2)
"].
Proof.
  destruct (dry_run_prints_root_queries demo_Sprint (demo_extractor true)
              ["public.orders"; "public.users"; "public.tenants"] (demo_world false) eq_refl)
    as (_ & _ & added & Htr & Hp).
  exists added. split; [exact Htr|]. rewrite Hp. by vm_compute.
Defined.

(** ** The script that [Extract] writes *)

(** The text of the writes of a trace, one after the other. *)
Definition text_of (tr : list event) : string :=
  foldr (fun data t => data +:+ t) "" (writes tr).

Lemma text_of_app a b : text_of (a ++ b) = text_of a +:+ text_of b.
Proof.
  unfold text_of. rewrite writes_app. induction (writes a) as [|d l IH]; [done|].
  cbn [app foldr]. by rewrite IH, append_assoc.
Qed.

Definition headerText : string :=
  "BEGIN;" +:+ NL +:+ "SET session_replication_role = 'replica';" +:+ NL +:+ NL.

Definition footerText : string :=
  "SET session_replication_role = 'origin';" +:+ NL +:+ "COMMIT;" +:+ NL.

(** The COPY block of a table: nothing for a table without rows. *)
Definition copyBlock (table : Table) (rows : list row) : string :=
  match rows with
  | [] => ""
  | _ =>
    "COPY " +:+ FullName table +:+ " (" +:+ Join (ColumnNames table) ", "
      +:+ ") FROM stdin;" +:+ NL
      +:+ foldr (fun r t => dataLine r +:+ NL +:+ t) "" rows
      +:+ "\." +:+ NL +:+ NL
  end.

Definition blocks (gr : Graph) (order : list string) (rows : gmap string (list row))
    : string :=
  foldr (fun name t =>
           match Tables gr !! name with
           | Some tbl => copyBlock tbl (getList rows name)
           | None => ""
           end +:+ t) "" order.

Definition script (gr : Graph) (order : list string) (rows : gmap string (list row))
    : string :=
  headerText +:+ blocks gr order rows +:+ footerText.

(** A computation on the writer that, when it succeeds, has written [text]. *)
Definition wrote (m : M world unit) (text : string) : Prop :=
  ∀ w w', m w = (Ok tt, w') →
    ∃ added, trace w' = trace w ++ added ∧ text_of added = text.

Lemma wrote_ret : wrote (ret tt) "".
Proof. intros w w' [= <-]. exists []. by rewrite app_nil_r. Qed.

Lemma wrote_Fprint data : wrote (Fprint data) data.
Proof.
  intros w w'. unfold Fprint. destruct (io_fail w _); [done|]. intros [= <-].
  exists [EvWrite data]. split; [done|]. cbn. apply append_nil_r.
Qed.

Lemma wrote_bind (m1 m2 : M world unit) t1 t2 :
  wrote m1 t1 → wrote m2 t2 → wrote (bind m1 (fun _ => m2)) (t1 +:+ t2).
Proof.
  intros H1 H2 w w'. unfold bind. destruct (m1 w) as [[[]|err|] w1] eqn:E1; [|done..].
  intros E2. destruct (H1 _ _ E1) as (a1 & Ht1 & <-). destruct (H2 _ _ E2) as (a2 & Ht2 & <-).
  exists (a1 ++ a2). split; [by rewrite Ht2, Ht1, app_assoc|]. apply text_of_app.
Qed.

Lemma wrote_forEach {A} (l : list A) (body : A → M world unit) (f : A → string) :
  (∀ x, wrote (body x) (f x)) →
  wrote (forEach l body) (foldr (fun x t => f x +:+ t) "" l).
Proof.
  intros Hbody. induction l as [|x l IH]; cbn [forEach foldr]; [apply wrote_ret|].
  by apply wrote_bind.
Qed.

Lemma wrote_WriteHeader : wrote WriteHeader headerText.
Proof.
  unfold WriteHeader, Fprintln, headerText.
  replace ("BEGIN;" +:+ NL +:+ "SET session_replication_role = 'replica';" +:+ NL +:+ NL)
    with (("BEGIN;" +:+ NL) +:+ ("SET session_replication_role = 'replica';" +:+ NL)
          +:+ ("" +:+ NL)) by reflexivity.
  repeat apply wrote_bind; apply wrote_Fprint.
Qed.

Lemma wrote_WriteFooter : wrote WriteFooter footerText.
Proof.
  unfold WriteFooter, Fprintln, footerText.
  replace ("SET session_replication_role = 'origin';" +:+ NL +:+ "COMMIT;" +:+ NL)
    with (("SET session_replication_role = 'origin';" +:+ NL) +:+ ("COMMIT;" +:+ NL))
    by reflexivity.
  apply wrote_bind; apply wrote_Fprint.
Qed.

Lemma wrote_WriteTableData table rows :
  wrote (WriteTableData table rows) (copyBlock table rows).
Proof.
  unfold WriteTableData, copyBlock. destruct rows as [|r rows]; [apply wrote_ret|].
  set (rs := r :: rows). clearbody rs.
  set (head := "COPY " +:+ FullName table +:+ " (" +:+ Join (ColumnNames table) ", "
               +:+ ") FROM stdin;" +:+ NL).
  replace ("COPY " +:+ FullName table +:+ " (" +:+ Join (ColumnNames table) ", "
           +:+ ") FROM stdin;" +:+ NL
           +:+ foldr (fun r t => dataLine r +:+ NL +:+ t) "" rs +:+ "\." +:+ NL +:+ NL)
    with (head +:+ foldr (fun r t => (dataLine r +:+ NL) +:+ t) "" rs
          +:+ ("\." +:+ NL) +:+ ("" +:+ NL)).
  - apply wrote_bind; [apply wrote_Fprint|].
    apply wrote_bind; [apply (wrote_forEach rs _ (fun r => dataLine r +:+ NL));
                       intros x; apply wrote_Fprint|].
    apply wrote_bind; apply wrote_Fprint.
  - unfold head. rewrite !append_assoc. do 7 f_equal.
    induction rs as [|x rs IH]; [done|]. cbn [foldr]. by rewrite !append_assoc, IH.
Qed.

(** The same for the extractor: the collected rows stay as they are. *)
Definition wrote_st (m : M state unit) (f : gmap string (list row) → string) : Prop :=
  ∀ st st', m st = (Ok tt, st') →
    collected st' = collected st
    ∧ ∃ added, trace (env st') = trace (env st) ++ added
               ∧ text_of added = f (collected st).

Lemma wrote_st_liftIO m text : wrote m text → wrote_st (liftIO m) (fun _ => text).
Proof.
  intros Hm st st'. unfold liftIO. destruct (m (env st)) as [r w'] eqn:E.
  intros [= -> <-]. split; [done|]. by apply Hm.
Qed.

Lemma wrote_st_bind (m1 m2 : M state unit) f1 f2 :
  wrote_st m1 f1 → wrote_st m2 f2 →
  wrote_st (bind m1 (fun _ => m2)) (fun rows => f1 rows +:+ f2 rows).
Proof.
  intros H1 H2 st st'. unfold bind. destruct (m1 st) as [[[]|err|] st1] eqn:E1; [|done..].
  intros E2. destruct (H1 _ _ E1) as (Hc1 & a1 & Ht1 & <-).
  destruct (H2 _ _ E2) as (Hc2 & a2 & Ht2 & Hx). split; [congruence|].
  exists (a1 ++ a2). split; [by rewrite Ht2, Ht1, app_assoc|].
  rewrite text_of_app, Hx. by rewrite Hc1.
Qed.

Lemma wrote_st_forEach {A} (l : list A) (body : A → M state unit)
    (f : A → gmap string (list row) → string) :
  (∀ x, wrote_st (body x) (f x)) →
  wrote_st (forEach l body) (fun rows => foldr (fun x t => f x rows +:+ t) "" l).
Proof.
  intros Hbody. induction l as [|x l IH]; cbn [forEach foldr].
  - intros st st' [= <-]. split; [done|]. exists []. by rewrite app_nil_r.
  - by apply (wrote_st_bind _ _ (f x)).
Qed.

Lemma wrote_st_writeTable e name :
  wrote_st (writeTable e name)
    (fun rows => match Tables (g e) !! name with
                 | Some tbl => copyBlock tbl (getList rows name)
                 | None => ""
                 end).
Proof.
  unfold writeTable. destruct (Tables (g e) !! name) as [tbl|].
  - intros st st'. unfold bind, gets, wrap.
    destruct (liftIO (WriteTableData tbl (getList (collected st) name)) st)
      as [[[]|err|] st1] eqn:E; [|done..].
    intros [= <-].
    apply (wrote_st_liftIO _ _ (wrote_WriteTableData tbl (getList (collected st) name))
             st st1 E).
  - intros st st' [= <-]. split; [done|]. exists []. by rewrite app_nil_r.
Qed.

Lemma wrote_st_emission e all :
  wrote_st (emission e all) (script (g e) (order_of e all)).
Proof.
  unfold emission, script.
  apply (wrote_st_bind _ _ (fun _ => headerText)); [apply wrote_st_liftIO, wrote_WriteHeader|].
  apply (wrote_st_bind _ _ (blocks (g e) (order_of e all)) (fun _ => footerText));
    [|apply wrote_st_liftIO, wrote_WriteFooter].
  apply (wrote_st_forEach (order_of e all) (writeTable e)
           (fun name rows => match Tables (g e) !! name with
                             | Some tbl => copyBlock tbl (getList rows name)
                             | None => ""
                             end)).
  intros name. apply wrote_st_writeTable.
Qed.

(** X24. When Extract succeeds outside a dry run, what it has written is the
    header, then for each table in topological order that has collected rows
    one COPY block (the COPY line with the column names, one data line per
    collected row, the end marker and an empty line), then the footer; a
    table without rows gets no block. *)
Theorem Extract_writes_the_script Sprint e all w st :
  dryRun e = false →
  Extract Sprint e all (New w) = (Ok tt, st) →
  ∃ added, trace (env st) = trace w ++ added
           ∧ text_of added = script (g e) (order_of e all) (collected st).
Proof.
  intros Hdry. rewrite Extract_phases, Hdry.
  pose proof (ext_traversal Sprint e all (New w)) as (a1 & Htr1 & Hw1 & _).
  destruct (traversal Sprint e all (New w)) as [[[]|err|] st1]; [|done..].
  cbn [fst snd] in *. intros Hem.
  destruct (wrote_st_emission e all st1 st Hem) as (Hc & a2 & Htr2 & Htext).
  exists (a1 ++ a2). split; [by rewrite Htr2, Htr1, app_assoc|].
  rewrite text_of_app, Htext, Hc. unfold text_of at 1. by rewrite Hw1.
Qed.

Lemma Extract_writes_the_script_witness :
  ∃ added, trace (env (demo_run false false).2) = [] ++ added
           ∧ text_of added
             = script chain_graph ["public.tenants"; "public.users"; "public.orders"]
                 (collected (demo_run false false).2).
Proof.
  apply (Extract_writes_the_script demo_Sprint (demo_extractor false)
           ["public.orders"; "public.users"; "public.tenants"] (demo_world false)
           (demo_run false false).2 eq_refl).
  by vm_compute.
Defined.

Example demo_script :
  script chain_graph ["public.tenants"; "public.users"; "public.orders"]
    (collected (demo_run false false).2)
  = "BEGIN;
SET session_replication_role = 'replica';

COPY public.tenants (id) FROM stdin;
1
2
\.

COPY public.users (id, tenant_id) FROM stdin;
10	1
11	2
\.

COPY public.orders (id, user_id) FROM stdin;
100	10
\.

SET session_replication_role = 'origin';
COMMIT;
".
Proof. by vm_compute. Qed.

(** ** Where the errors of [Extract] come from *)

(** During the extraction an error is the error of a failed query. *)
Definition src_ok (k : kind) (added : list event) : Prop :=
  ∀ err, k = KErr err → ∃ e, query_failed_with added e ∧ wraps err e.

Definition R_src (st : state) (k : kind) (st' : state) : Prop :=
  io_fail (env st') = io_fail (env st) ∧ st_appends src_ok st k st'.

Lemma R_src_same st k : (∀ err, k ≠ KErr err) → R_src st k st.
Proof.
  intros Hk. split; [done|]. exists []. rewrite app_nil_r. split; [done|].
  intros err ->. by destruct (Hk err).
Qed.

Lemma R_src_ok st : R_src st KOk st.
Proof. by apply R_src_same. Qed.

Lemma R_src_panic st : R_src st KPanic st.
Proof. by apply R_src_same. Qed.

Lemma R_src_seq s s1 s2 k : R_src s KOk s1 → R_src s1 k s2 → R_src s k s2.
Proof.
  intros [Hio1 (a1 & Ht1 & _)] [Hio2 (a2 & Ht2 & H2)]. split; [congruence|].
  exists (a1 ++ a2). split; [by rewrite Ht2, Ht1, app_assoc|].
  intros err Hk. destruct (H2 err Hk) as (e & (sql & args & r & Hin & He) & Hw).
  exists e. split; [|done]. exists sql, args, r. split; [|done]. apply elem_of_app. by right.
Qed.

Lemma R_src_wrap s s' prefix e :
  R_src s (KErr e) s' → R_src s (KErr (Wrapped prefix e)) s'.
Proof.
  intros [Hio (added & Ht & H)]. split; [done|]. exists added. split; [done|].
  intros err [= <-]. destruct (H e eq_refl) as (e0 & Hq & Hw).
  exists e0. split; [done|]. by constructor.
Qed.

Lemma R_src_quiet (st st' : state) evs :
  env st' = foldl (fun w ev => emit ev w) (env st) evs → R_src st KOk st'.
Proof.
  intros He. split.
  - rewrite He. clear He. generalize (env st). induction evs as [|ev evs IH]; intros w; [done|].
    cbn [foldl]. by rewrite IH.
  - exists evs. split; [|done]. rewrite He. clear He. generalize (env st).
    induction evs as [|ev evs IH]; intros w; cbn [foldl]; [by rewrite app_nil_r|].
    rewrite IH. cbn. by rewrite <- app_assoc.
Qed.

Lemma src_Printf text : sat R_src (Printf text).
Proof. intros st. rewrite Printf_run. by apply (R_src_quiet _ _ [EvPrint text]). Qed.

Lemma src_logPrintf text : sat R_src (logPrintf text).
Proof. intros st. rewrite logPrintf_run. by apply (R_src_quiet _ _ [EvLog text]). Qed.

Lemma src_addRow table values : sat R_src (addRow table values).
Proof. intros st. by apply (R_src_quiet _ _ []). Qed.

Lemma src_after_query {A} sql args (k : QueryResult → M state A) :
  (∀ r, query_error r = None → sat R_src (k r)) →
  (∀ r st e, query_error r = Some e →
     (∃ err, kind_of (k r st).1 = KErr err ∧ wraps err e)
     ∧ io_fail (env (k r st).2) = io_fail (env st)
     ∧ ∃ added, trace (env (k r st).2) = trace (env st) ++ added) →
  sat R_src (bind (Query sql args) k).
Proof.
  intros Hgood Hbad st. unfold bind. rewrite Query_run.
  set (r := exec (env st) sql args). set (st1 := with_env st _).
  assert (R_src st KOk st1) as H1 by (by apply (R_src_quiet _ _ [EvQuery sql args r])).
  destruct (query_error r) as [e|] eqn:He.
  - destruct (Hbad r st1 e He) as ((err & Hk & Hwr) & Hio & added & Htr).
    split; [by rewrite Hio|]. exists (EvQuery sql args r :: added). split.
    + rewrite Htr. unfold st1. simpl. by rewrite <- app_assoc.
    + rewrite Hk. intros err' [= <-]. exists e. split; [|done].
      exists sql, args, r. split; [apply list_elem_of_here|done].
  - eapply R_src_seq; [exact H1|]. apply (Hgood r He).
Qed.

Ltac src_steps :=
  repeat match goal with
    | |- sat R_src (bind (Query _ _) _) => apply src_after_query
    | |- sat R_src (bind _ _) => apply (sat_bind R_src R_src_seq); [|intros ?]
    | |- sat R_src (wrap _ _) => apply (sat_wrap R_src R_src_wrap)
    | |- sat R_src (ret _) => apply (sat_ret R_src R_src_ok)
    | |- sat R_src (orPanic _) => apply (sat_orPanic R_src R_src_ok R_src_panic)
    | |- sat R_src (gets _) => apply (sat_gets R_src); apply R_src_ok
    | |- sat R_src (rowCount _) => apply (sat_gets R_src); apply R_src_ok
    | |- sat R_src (when _ _) => apply (sat_when R_src); [apply R_src_ok|]
    | |- sat R_src (Printf _) => apply src_Printf
    | |- sat R_src (logPrintf _) => apply src_logPrintf
    | |- sat R_src (addRow _ _) => apply src_addRow
    | |- sat R_src (forEach _ _) =>
        apply (sat_forEach R_src R_src_ok R_src_seq); intros ? _
    | |- sat R_src (if ?b then _ else _) => destruct b
    | |- sat R_src (let '(_, _) := ?p in _) => destruct p
    | |- sat R_src (match ?x with [] => _ | _ :: _ => _ end) => destruct x
    end.

Section error_sources.
Variable Sprint : list value → string.
Variable e : Extractor.

Lemma src_collectRows table sql args : sat R_src (collectRows e table sql args).
Proof.
  unfold collectRows. src_steps.
  - intros [err|rows [|err|err]] Hf; simpl in Hf; try done. cbv iota. src_steps.
  - intros [err|rows [|err|err]] st e0 Hf; simpl in Hf; try done; injection Hf as <-.
    + split; [eexists; split; [done|constructor]|]. split; [done|].
      exists []. by rewrite app_nil_r.
    + rewrite (bind_ok _ _ _ _ _ (forEach_addRow_run table rows st)).
      split; [eexists; split; [done|constructor]|]. cbn [fail snd].
      destruct (forEach_addRow table rows st) as [_ ->]. split; [done|].
      exists []. by rewrite app_nil_r.
    + rewrite (bind_ok _ _ _ _ _ (forEach_addRow_run table rows st)).
      destruct (forEach_addRow table rows st) as [_ He].
      destruct (verbose e); cbn [when].
      * split; [eexists; split; [reflexivity|constructor]|]. split.
        -- cbn. by rewrite He.
        -- eexists [_]. cbn. by rewrite He.
      * split; [eexists; split; [reflexivity|constructor]|]. cbn. rewrite He.
        split; [done|]. exists []. by rewrite app_nil_r.
Qed.

Lemma src_extractRoot table where_ : sat R_src (extractRoot e table where_).
Proof. unfold extractRoot. src_steps. apply src_collectRows. Qed.

Lemma src_extractChild table : sat R_src (extractChild Sprint e table).
Proof. unfold extractChild. src_steps. apply src_collectRows. Qed.

Lemma src_fetchSelfRefRows table fk seedPKs v :
  sat R_src (fetchSelfRefRows Sprint table fk seedPKs v).
Proof.
  unfold fetchSelfRefRows. src_steps.
  - intros [err|rows [|err|err]] Hf; simpl in Hf; try done. cbv iota. src_steps.
  - intros [err|rows [|err|err]] st e0 Hf; simpl in Hf; try done; injection Hf as <-;
      (split; [eexists; split; [done|repeat constructor]|]; split; [done|];
       exists []; by rewrite app_nil_r).
Qed.

Lemma src_addNewRows table extraRows : ∀ existing,
  sat R_src (addNewRows Sprint table extraRows existing).
Proof.
  induction extraRows as [|row rows IH]; intros existing; cbn [addNewRows];
    src_steps; apply IH.
Qed.

Lemma src_extractSelfRef table selfRefs :
  sat R_src (extractSelfRef Sprint e table selfRefs).
Proof.
  unfold extractSelfRef. src_steps; [apply src_fetchSelfRefRows | apply src_addNewRows].
Qed.

Lemma src_extractTable rootWhere tableName :
  sat R_src (extractTable Sprint e rootWhere tableName).
Proof.
  unfold extractTable. destruct (Tables (g e) !! tableName) as [tbl|]; src_steps.
  - destruct (rootWhere !! tbl_Name tbl); src_steps.
    + apply src_extractRoot.
    + apply src_extractChild.
  - destruct (SelfRefs (g e) !! tableName) as [[|fk fks]|]; src_steps.
    apply src_extractSelfRef.
Qed.

Lemma src_traversal all : sat R_src (traversal Sprint e all).
Proof. unfold traversal, warnings. src_steps. apply src_extractTable. Qed.
End error_sources.

(** During the output an error is the error of the write that the writer
    refused. *)
Definition R_io (w : world) (k : kind) (w' : world) : Prop :=
  io_fail w' = io_fail w
  ∧ ∃ added, trace w' = trace w ++ added
    ∧ ∀ err, k = KErr err →
        ∃ e, io_fail w (length (writes (trace w'))) = Some e ∧ wraps err e.

Definition R_ios (st : state) (k : kind) (st' : state) : Prop :=
  R_io (env st) k (env st').

Lemma R_io_ok w : R_io w KOk w.
Proof. split; [done|]. exists []. by rewrite app_nil_r. Qed.

Lemma R_io_seq s s1 s2 k : R_io s KOk s1 → R_io s1 k s2 → R_io s k s2.
Proof.
  intros [Hio1 (a1 & Ht1 & _)] [Hio2 (a2 & Ht2 & H2)]. split; [congruence|].
  exists (a1 ++ a2). split; [by rewrite Ht2, Ht1, app_assoc|].
  intros err Hk. destruct (H2 err Hk) as (e & He & Hw). exists e. by rewrite <- Hio1.
Qed.

Lemma R_ios_ok st : R_ios st KOk st.
Proof. apply R_io_ok. Qed.

Lemma R_ios_seq s s1 s2 k : R_ios s KOk s1 → R_ios s1 k s2 → R_ios s k s2.
Proof. apply R_io_seq. Qed.

Lemma R_ios_wrap s s' prefix e :
  R_ios s (KErr e) s' → R_ios s (KErr (Wrapped prefix e)) s'.
Proof.
  intros [Hio (added & Ht & H)]. split; [done|]. exists added. split; [done|].
  intros err [= <-]. destruct (H e eq_refl) as (e0 & Hq & Hw).
  exists e0. split; [done|]. by constructor.
Qed.

Lemma io_Fprint data : sat R_io (Fprint data).
Proof.
  intros w. unfold Fprint. destruct (io_fail w _) as [e|] eqn:He; cbn.
  - split; [done|]. exists []. rewrite app_nil_r. split; [done|].
    intros err [= <-]. exists e. split; [done|constructor].
  - split; [done|]. by exists [EvWrite data].
Qed.

Ltac io_steps :=
  repeat match goal with
    | |- sat R_io (bind _ _) => apply (sat_bind R_io R_io_seq); [|intros ?]
    | |- sat R_io (ret _) => apply (sat_ret R_io R_io_ok)
    | |- sat R_io (Fprint _) => apply io_Fprint
    | |- sat R_io (Fprintln _) => apply io_Fprint
    | |- sat R_io (forEach _ _) => apply (sat_forEach R_io R_io_ok R_io_seq); intros ? _
    end.

Lemma io_WriteHeader : sat R_io WriteHeader.
Proof. unfold WriteHeader. io_steps. Qed.

Lemma io_WriteFooter : sat R_io WriteFooter.
Proof. unfold WriteFooter. io_steps. Qed.

Lemma io_WriteTableData table rows : sat R_io (WriteTableData table rows).
Proof. unfold WriteTableData. destruct rows; io_steps. Qed.

Lemma ios_liftIO {A} (m : M world A) : sat R_io m → sat R_ios (liftIO m).
Proof.
  intros Hm st. unfold liftIO, R_ios. specialize (Hm (env st)).
  by destruct (m (env st)) as [r w].
Qed.

Lemma ios_emission e all : sat R_ios (emission e all).
Proof.
  unfold emission.
  apply (sat_bind R_ios R_ios_seq); [apply ios_liftIO, io_WriteHeader|]. intros _.
  apply (sat_bind R_ios R_ios_seq); [|intros _; apply ios_liftIO, io_WriteFooter].
  apply (sat_forEach R_ios R_ios_ok R_ios_seq). intros name _.
  unfold writeTable. destruct (Tables (g e) !! name) as [tbl|].
  - apply (sat_bind R_ios R_ios_seq); [apply sat_gets, R_ios_ok|]. intros rows.
    apply (sat_wrap R_ios R_ios_wrap), ios_liftIO, io_WriteTableData.
  - apply sat_ret, R_ios_ok.
Qed.

(** X25. Every error that Extract returns wraps either the error of a query of
    this run that failed, or the error with which the writer refused the
    next write after all queries had succeeded; Extract makes up no error of
    its own. *)
Theorem Extract_error_provenance Sprint e all w err :
  let run := Extract Sprint e all (New w) in
  run.1 = Err err →
  ∃ added, trace (env run.2) = trace w ++ added
    ∧ ((∃ e0, query_failed_with added e0 ∧ wraps err e0)
       ∨ (∃ e0, io_fail w (length (writes (trace (env run.2)))) = Some e0
                ∧ wraps err e0 ∧ ∀ e1, ¬ query_failed_with added e1)).
Proof.
  intros run. unfold run. rewrite Extract_phases.
  pose proof (src_traversal Sprint e all (New w)) as [Hio1 (a1 & Htr1 & Hsrc)].
  pose proof (ext_traversal Sprint e all (New w)) as (a1' & Htr1' & _ & Hext).
  destruct (traversal Sprint e all (New w)) as [[[]|err1|] st1]; cbn [fst snd kind_of] in *.
  - rewrite Htr1 in Htr1'. apply app_inv_head in Htr1' as <-.
    destruct (dryRun e); [done|].
    pose proof (ios_emission e all st1) as [Hio2 (a2 & Htr2 & Hsrc2)].
    pose proof (wr_output e (order_of e all) st1) as (a2' & Htr2' & Hq2).
    fold (emission e all) in Htr2', Hq2. rewrite Htr2 in Htr2'.
    apply app_inv_head in Htr2' as <-. unfold wr_ok in Hq2.
    destruct (emission e all st1) as [[[]|err2|] st2]; cbn [fst snd kind_of] in *; try done.
    intros [= <-]. destruct (Hsrc2 err2 eq_refl) as (e0 & He0 & Hw0).
    exists (a1 ++ a2). split; [by rewrite Htr2, Htr1, app_assoc|]. right.
    exists e0. change (io_fail (env st1) = io_fail w) in Hio1.
    rewrite <- Hio1. split; [done|]. split; [done|].
    intros e1 [H|H]%query_failed_with_app.
    + by destruct (Hext e1 H) as (? & ? & _).
    + by apply no_queries_no_failure in H.
  - intros [= <-]. exists a1. split; [done|]. left. by apply Hsrc.
  - done.
Qed.

(** The writer refuses the fifth write of the run of scenario 1. *)
Definition full_disk : world :=
  {| exec := demo_exec false;
     io_fail := fun n => if (n =? 4)%nat then Some (IOError "no space left on device") else None;
     trace := [] |}.

Example Extract_write_error :
  let run := Extract demo_Sprint (demo_extractor false)
               ["public.orders"; "public.users"; "public.tenants"] (New full_disk) in
  run.1 = Err (Wrapped "writing public.tenants" (IOError "no space left on device"))
  ∧ length (writes (trace (env run.2))) = 4%nat.
Proof. by vm_compute. Qed.

Lemma Extract_error_provenance_witness :
  ∃ added, trace (env (demo_run false true).2) = trace (demo_world true) ++ added
    ∧ ((∃ e0, query_failed_with added e0
              ∧ wraps (Wrapped "extracting child public.orders"
                         (ExecError "connection reset")) e0)
       ∨ (∃ e0, io_fail (demo_world true)
                  (length (writes (trace (env (demo_run false true).2)))) = Some e0
                ∧ wraps (Wrapped "extracting child public.orders"
                           (ExecError "connection reset")) e0
                ∧ ∀ e1, ¬ query_failed_with added e1)).
Proof.
  apply (Extract_error_provenance demo_Sprint (demo_extractor false)
           ["public.orders"; "public.users"; "public.tenants"] (demo_world true)).
  by vm_compute.
Defined.
